(** * Schema validation and export of the environment evaluator

    A shallow embedding of package [eval]: the validation engine
    ([validationLoc], [equalsConst], [validateSchemaType], [validateElement]
    and the type-specific validators) and [expr.export], together with the
    parts of [math/big], [schema], [ast] and [environments] they call. *)

From Stdlib Require Import ZArith QArith List String Ascii Bool Lia DecimalString.
Import ListNotations.
#[local] Set Warnings "-register-all".
Local Open Scope string_scope.
Local Open Scope list_scope.
Local Open Scope Z_scope.

(** ** math/big: the [Float] operations used by [validateNumber]

    [big.Float] is part of Go's standard library.  A finite [Float] is a
    binary floating-point number [mant * 2^exp] carrying its precision in
    bits; every operation computes the exact result and rounds it once to the
    precision of the destination (here always to nearest, ties to even).
    The sign of a zero is not kept: [Cmp] and [IsInt], the only observers
    used by the validator, do not distinguish [+0] from [-0]. *)
Module big.

Inductive form : Type :=
| finite (mant exp : Z)      (* the value mant * 2^exp; mant = 0 is zero *)
| inf (neg : bool).

Record Float : Type := mkFloat { prec : Z; val : form }.

Definition MaxExp : Z := 2147483647.
Definition MinExp : Z := -2147483648.

(** [bits n] is the bit length of [n > 0]. *)
Definition bits (n : Z) : Z := Z.log2 n + 1.

(** [binexp num den e] is the exponent [x] with
    [2^(x-1) <= num/den * 2^e < 2^x], for [num, den > 0]. *)
Definition binexp (num den e : Z) : Z :=
  let d := Z.log2 num - Z.log2 den in
  let ge := if 0 <=? d then den * 2 ^ d <=? num else den <=? num * 2 ^ (- d) in
  (if ge then d + 1 else d) + e.

(** [round p neg num den e] rounds [(-1)^neg * num/den * 2^e]
    ([num, den > 0]) to [p] bits, to nearest with ties to even.  An
    exponent below [MinExp] gives zero and one above [MaxExp] an infinity,
    as in [Float.setExpAndRound]. *)
Definition round (p : Z) (neg : bool) (num den e : Z) : form :=
  let x := binexp num den e in
  if x <? MinExp then finite 0 0
  else if MaxExp <? x then inf neg
  else
    (* scaled = num/den * 2^(e - (x - p)) lies in [2^(p-1), 2^p) *)
    let s := e - (x - p) in
    let n' := if 0 <=? s then num * 2 ^ s else num in
    let d' := if 0 <=? s then den else den * 2 ^ (- s) in
    let m := n' / d' in
    let r := n' mod d' in
    let up := match 2 * r ?= d' with
              | Gt => true
              | Eq => Z.odd m
              | Lt => false
              end in
    let m' := if up then m + 1 else m in
    if (m' =? 2 ^ p) && (MaxExp <=? x) then inf neg
    else finite (if neg then - m' else m') (x - p).

(** [x.Cmp(y)]: -1, 0 or +1 as [x < y], [x = y] or [x > y]. *)
Definition Cmp (x y : Float) : Z :=
  match val x, val y with
  | finite m1 e1, finite m2 e2 =>
      let e := Z.min e1 e2 in
      match m1 * 2 ^ (e1 - e) ?= m2 * 2 ^ (e2 - e) with
      | Lt => -1 | Eq => 0 | Gt => 1
      end
  | inf true, inf true => 0
  | inf false, inf false => 0
  | inf true, _ => -1
  | inf false, _ => 1
  | _, inf true => 1
  | _, inf false => -1
  end.

(** [x.IsInt()]: infinities are not integers. *)
Definition IsInt (x : Float) : bool :=
  match val x with
  | finite m e => if 0 <=? e then true else m mod 2 ^ (- e) =? 0
  | inf _ => false
  end.

(** [z.Quo(x, y)] for a fresh [z] (precision 0): the precision of the
    result is the larger of the operands'.  [None] is the [ErrNaN] panic
    raised when both operands are zero or both are infinities. *)
Definition Quo (x y : Float) : option Float :=
  let p := Z.max (prec x) (prec y) in
  match val x, val y with
  | inf _, inf _ => None
  | inf nx, finite my _ => Some (mkFloat p (inf (xorb nx (my <? 0))))
  | finite mx _, inf _ => Some (mkFloat p (finite 0 0))
  | finite mx ex, finite my ey =>
      if my =? 0 then
        if mx =? 0 then None
        else Some (mkFloat p (inf (mx <? 0)))
      else if mx =? 0 then Some (mkFloat p (finite 0 0))
      else Some (mkFloat p (round p (xorb (mx <? 0) (my <? 0))
                                  (Z.abs mx) (Z.abs my) (ex - ey)))
  end.

(** *** Parsing decimal numbers *)

Definition digit (c : ascii) : option Z :=
  let n := Z.of_N (N_of_ascii c) in
  if (48 <=? n) && (n <=? 57) then Some (n - 48) else None.

(** [scanDigits s acc cnt]: the longest prefix of decimal digits of [s],
    accumulated on [acc]; returns the number, how many digits were read
    and the rest. *)
Fixpoint scanDigits (s : string) (acc : Z) (cnt : Z) : Z * Z * string :=
  match s with
  | String c s' =>
      match digit c with
      | Some d => scanDigits s' (10 * acc + d) (cnt + 1)
      | None => (acc, cnt, s)
      end
  | EmptyString => (acc, cnt, s)
  end.

Definition scanSign (s : string) : bool * string :=
  match s with
  | String "-" s' => (true, s')
  | String "+" s' => (false, s')
  | _ => (false, s)
  end.

(** Exponent part: [e], [E] (decimal) or [p], [P] (binary), an optional
    sign and at least one digit.  Returns the exponent and whether it is
    a binary one. *)
Definition scanExponent (s : string) : option (Z * bool * string) :=
  let scan (binary : bool) (s' : string) :=
    let '(neg, s1) := scanSign s' in
    let '(x, cnt, s2) := scanDigits s1 0 0 in
    if cnt =? 0 then None
    else Some (if neg then - x else x, binary, s2) in
  match s with
  | String "e" s' | String "E" s' => scan false s'
  | String "p" s' | String "P" s' => scan true s'
  | _ => Some (0, false, s)
  end.

(** The literal read by [Float.scan] in base 10: a sign, the digits [mant]
    of the mantissa and the exponents [exp5] and [exp2], standing for
    [mant * 5^exp5 * 2^exp2] (a decimal exponent and the digits after the
    point count for both, a binary exponent for [exp2] only).  [None] when
    [s] is not a number; the whole string must be consumed. *)
Inductive literal : Type :=
| lit_inf (neg : bool)
| lit_num (neg : bool) (mant exp5 exp2 : Z).

Definition scan (s : string) : option literal :=
  let '(neg, s0) := scanSign s in
  if String.eqb s0 "Inf" || String.eqb s0 "inf" then Some (lit_inf neg)
  else
    let '(ip, icnt, s1) := scanDigits s0 0 0 in
    let '(mant, fcount, s2) :=
      match s1 with
      | String "." s1' =>
          let '(m, cnt, s2) := scanDigits s1' ip 0 in (m, cnt, s2)
      | _ => (ip, 0, s1)
      end in
    if icnt + fcount =? 0 then None
    else
      match scanExponent s2 with
      | Some (exp, binary, EmptyString) =>
          let exp5 := if binary then - fcount else exp - fcount in
          let exp2 := if binary then exp - fcount else exp5 in
          Some (lit_num neg mant exp5 exp2)
      | _ => None
      end.

(** [big.ParseFloat(s, 10, 0, big.ToNearestEven)]: the value of the
    literal [s] rounded once to 64 bits (the precision that [Parse]
    substitutes for 0), as documented ("z is set to the (possibly rounded)
    value of s").  An exponent outside [MinExp, MaxExp] is an error. *)
Definition ParseFloat (s : string) : option Float :=
  match scan s with
  | None => None
  | Some (lit_inf neg) => Some (mkFloat 64 (inf neg))
  | Some (lit_num neg mant exp5 exp2) =>
      if mant =? 0 then Some (mkFloat 64 (finite 0 0))
      else
        let x := bits mant + exp2 in
        if (x <? MinExp) || (MaxExp <? x) then None    (* exponent overflow *)
        else if 0 <=? exp5
             then Some (mkFloat 64 (round 64 neg (mant * 5 ^ exp5) 1 exp2))
             else Some (mkFloat 64 (round 64 neg mant (5 ^ (- exp5)) exp2))
  end.

End big.

(** ** encoding/json *)
Module json.

(** [json.Number]: a number kept in its lexical form. *)
Definition Number : Type := string.

End json.

(** [any]: the dynamic values a decoded JSON literal may hold (the [Const] and
    [Enum] members of a schema, the [Literal] of an exported expression). *)
Inductive any : Type :=
| a_nil
| a_bool (b : bool)
| a_Number (n : json.Number)
| a_string (s : string)
| a_slice (l : list any)                (* []any *)
| a_map (m : list (string * any))       (* map[string]any *)
| a_other (dyn : string).               (* a value of any other dynamic type *)

(** A Go map is kept as the list of its entries in one iteration order; keys
    are pairwise distinct ([uniqueKeys]). *)
Fixpoint lookup {V : Type} (m : list (string * V)) (k : string) : option V :=
  match m with
  | [] => None
  | (k', v) :: m' => if String.eqb k' k then Some v else lookup m' k
  end.

Definition uniqueKeys {V : Type} (m : list (string * V)) : Prop :=
  NoDup (map fst m).

(** ** Package schema *)
Module schema.

(** The fields of [schema.Schema] read by the validator.  A [*Schema] is an
    [option] ([None] is nil); unset numeric bounds are the empty
    [json.Number]; unset [*uint] bounds are [None]. *)
Inductive Schema : Type := mkSchema {
  Never : bool;
  Always : bool;
  Type_ : string;
  Const : any;
  Enum : list any;
  MultipleOf : json.Number;
  Maximum : json.Number;
  ExclusiveMaximum : json.Number;
  Minimum : json.Number;
  ExclusiveMinimum : json.Number;
  MaxLength : option Z;
  MinLength : option Z;
  Pattern : string;
  PrefixItems : list (option Schema);
  Items : option Schema;
  MaxItems : option Z;
  MinItems : option Z;
  Properties : list (string * option Schema);
  AdditionalProperties : option Schema;
  MaxProperties : option Z;
  MinProperties : option Z;
  Required : list string;
  DependentRequired : list (string * list string)
}.

(** Modelled from the spec: the numeric getters of package [schema], which
    is not part of the sources at hand.  A bound is kept in its lexical form
    and compared as an arbitrary-precision number: the getter returns the
    bound parsed by [big.ParseFloat], nil when the bound is unset. *)
Definition getNumber (n : json.Number) : option big.Float :=
  if String.eqb n "" then None else big.ParseFloat n.

Definition GetMultipleOf (s : Schema) := getNumber (MultipleOf s).
Definition GetMaximum (s : Schema) := getNumber (Maximum s).
Definition GetExclusiveMaximum (s : Schema) := getNumber (ExclusiveMaximum s).
Definition GetMinimum (s : Schema) := getNumber (Minimum s).
Definition GetExclusiveMinimum (s : Schema) := getNumber (ExclusiveMinimum s).

Definition GetMaxLength (s : Schema) := MaxLength s.
Definition GetMinLength (s : Schema) := MinLength s.
Definition GetMaxItems (s : Schema) := MaxItems s.
Definition GetMinItems (s : Schema) := MinItems s.
Definition GetMaxProperties (s : Schema) := MaxProperties s.
Definition GetMinProperties (s : Schema) := MinProperties s.

End schema.
Import schema.

(** ** Source ranges and syntax nodes (packages hcl and ast) *)
Module hcl.
Record Pos : Type := mkPos { Line : Z; Column : Z; Byte : Z }.
Record Range : Type := mkRange { Filename : string; Start : Pos; End_ : Pos }.
End hcl.

Module ast.

(** What an [ast.Expr] node is, as far as [export] looks: the three literal
    node types carry their value. *)
Inductive ExprKind : Type :=
| NullExpr
| BooleanExpr (Value : bool)
| NumberExpr (Value : json.Number)
| StringExpr (Value : string)
| CompositeExpr.              (* interpolations, symbols, lists, objects, builtins *)

(** A syntax node: its kind and the range [Syntax().Syntax().Range()]
    reports for it (nil when the node has no source information). *)
Record Expr : Type := mkExpr { kind : ExprKind; Range : option hcl.Range }.

(** The index of a [PropertySubscript] is an [any]; only strings and ints
    are meaningful. *)
Inductive Index : Type :=
| IndexString (s : string)
| IndexInt (i : Z)
| IndexOther.

Inductive PropertyAccessor : Type :=
| PropertyName (Name : string)
| PropertySubscript (Index : Index).

Record Interpolation : Type := mkInterpolation { Text : string }.

End ast.

(** ** Package environments: the exported, serializable representation *)
Module environments.

Record Pos : Type := mkPos { Line : Z; Column : Z; Byte : Z }.

Record Range : Type :=
  mkRange { Environment : string; Begin : Pos; End_ : Pos }.

Record Accessor : Type :=
  mkAccessor { Index : option Z; Key : option string }.

Record PropertyAccessor : Type :=
  mkPropertyAccessor { Accessor_ : Accessor; Value : Range }.

Record Interpolation : Type :=
  mkInterpolation { Text : string; Value_ : option (list PropertyAccessor) }.

Record AccessExpr : Type :=
  mkAccessExpr { Receiver : Range; Accessors : list Accessor }.

(** A slice or map that may be nil is an [option]. *)
Inductive Expr : Type := mkExpr {
  Range_ : Range;
  Base : option Expr;
  Schema_ : option Schema;
  Literal : any;
  Interpolate : option (list Interpolation);
  Symbol : option (list PropertyAccessor);
  Access : option AccessExpr;
  List_ : option (list Expr);
  Object : option (list (string * Expr));
  Builtin : option BuiltinExpr
}
with BuiltinExpr : Type := mkBuiltinExpr {
  ArgSchema : option Schema;
  Arg : Expr
}.

End environments.

(** ** Package eval: expressions and values *)

Record propertyAccessor (V : Type) : Type :=
  mkPropertyAccessor { accessor : ast.PropertyAccessor; value_ : V }.
Arguments mkPropertyAccessor {V}.
Arguments accessor {V}.
Arguments value_ {V}.

Record propertyAccess (V : Type) : Type :=
  mkPropertyAccess { accessors : list (propertyAccessor V) }.
Arguments mkPropertyAccess {V}.
Arguments accessors {V}.

Record interpolation (V : Type) : Type :=
  mkInterpolation { isyntax : ast.Interpolation; ivalue : option (propertyAccess V) }.
Arguments mkInterpolation {V}.
Arguments isyntax {V}.
Arguments ivalue {V}.

(** An [expr] and the [value]s it refers to.  Pointers are unfolded into
    trees; the memo slot [expr.value] (a back-pointer, read by neither
    validation nor export) is left out.

    Modelled from the spec: the struct [value], whose declaration is not part
    of the sources at hand.  A value carries its concrete representation
    (null, boolean, number in its lexical form, string, list of values,
    key->value mapping), a back-pointer to the defining expression, the
    effective schema, and the [secret] and [unknown] flags; these are the
    fields [repr], [def], [schema] and [unknown] that the validator reads. *)
Inductive expr : Type :=
| mkExpr (path : string) (repr : exprRepr) (base : option value)
         (schema : option Schema) (state : Z) (secret : bool)
with exprRepr : Type :=
| literalExpr (node : ast.Expr)
| interpolateExpr (node : ast.Expr) (parts : list (interpolation value))
| symbolExpr (node : ast.Expr) (property : propertyAccess value)
| accessExpr (node : ast.Expr) (receiver : value) (accessor : ast.PropertyAccessor)
| listExpr (node : ast.Expr) (elements : list expr)
| objectExpr (node : ast.Expr) (properties : list (string * expr))
| openExpr (node : ast.Expr) (provider inputs : expr) (inputSchema : option Schema)
| toJSONExpr (node : ast.Expr) (value : expr)
| toStringExpr (node : ast.Expr) (value : expr)
| joinExpr (node : ast.Expr) (delimiter values : expr)
| secretExpr (node : ast.Expr) (value : expr)
| toBase64Expr (node : ast.Expr) (value : expr)
with value : Type :=
| mkValue (def : expr) (vschema : option Schema) (vsecret unknown : bool)
          (vrepr : valueRepr)
with valueRepr : Type :=
| r_nil
| r_bool (b : bool)
| r_Number (n : json.Number)
| r_string (s : string)
| r_slice (a : list value)                (* []*value *)
| r_map (m : list (string * value)).      (* map[string]*value *)

Definition repr (x : expr) : exprRepr := let 'mkExpr _ r _ _ _ _ := x in r.
Definition base (x : expr) : option value := let 'mkExpr _ _ b _ _ _ := x in b.
Definition schema (x : expr) : option Schema := let 'mkExpr _ _ _ s _ _ := x in s.

Definition def (v : value) : expr := let 'mkValue d _ _ _ _ := v in d.
Definition vschema (v : value) : option Schema := let 'mkValue _ s _ _ _ := v in s.
Definition unknown (v : value) : bool := let 'mkValue _ _ _ u _ := v in u.
Definition vrepr (v : value) : valueRepr := let 'mkValue _ _ _ _ r := v in r.

(** [exprRepr.syntax()]: every representation returns its node. *)
Definition syntax (r : exprRepr) : ast.Expr :=
  match r with
  | literalExpr n | interpolateExpr n _ | symbolExpr n _ | accessExpr n _ _
  | listExpr n _ | objectExpr n _ | openExpr n _ _ _ | toJSONExpr n _
  | toStringExpr n _ | joinExpr n _ _ | secretExpr n _ | toBase64Expr n _ => n
  end.

(** *** The evaluation context: diagnostics and panics

    The methods of [evalContext] report errors through [e.errorf]; a
    diagnostic records one such call.  A computation yields its result with
    the diagnostics it emitted, in order, or panics ([None]). *)
Inductive error : Type :=
| ErrNumber (n : json.Number)       (* a number that does not parse *)
| ErrPattern (p : string).          (* a pattern that does not compile *)

Inductive fmtArg : Type :=
| ArgString (s : string)
| ArgUint (u : option Z)            (* a *uint *)
| ArgError (err : error).

Record Diag : Type :=
  mkDiag { dnode : ast.Expr; dformat : string; dargs : list fmtArg }.

Definition M (A : Type) : Type := option (A * list Diag).

Definition ret {A} (a : A) : M A := Some (a, []).

Definition bind {A B} (m : M A) (f : A -> M B) : M B :=
  match m with
  | None => None
  | Some (a, d1) =>
      match f a with
      | None => None
      | Some (b, d2) => Some (b, d1 ++ d2)
      end
  end.

Definition panic {A} : M A := None.

Definition errorf (node : ast.Expr) (format : string) (args : list fmtArg) : M unit :=
  Some (tt, [mkDiag node format args]).

Declare Scope eval_scope.
Delimit Scope eval_scope with eval.
Notation "x <- m ;; k" := (bind m (fun x => k))
  (at level 61, m at next level, right associativity) : eval_scope.
Notation "m ;;; k" := (bind m (fun _ => k))
  (at level 61, right associativity) : eval_scope.
Local Open Scope eval_scope.

(** The diagnostics of a computation that did not panic. *)
Definition diags {A} (m : M A) : list Diag :=
  match m with Some (_, d) => d | None => [] end.


(** A [for ... range] loop over a slice that threads the loop variables
    [S] through the iterations. *)
Section forRange.
Context {A S : Type} (body : A -> S -> M S).

Fixpoint forRange (l : list A) (s : S) : M S :=
  match l with
  | [] => ret s
  | a :: l' => s' <- body a s ;; forRange l' s'
  end.
End forRange.

(** [fmt.Sprintf("%v", i)] for a non-negative [int]. *)
Definition itoa (i : nat) : string := NilZero.string_of_uint (Nat.to_uint i).

(** [validationLoc] tracks the location to blame for a validation failure. *)
Record validationLoc : Type :=
  mkLoc { x : expr; path : string; prefix : bool }.

Section Validation.

(** Functions of the package and of its libraries whose code is not at
    hand: [joinKey] (the path of a key below a path), [json.Marshal]
    ([inr] is its error) and the regular expressions of package regexp. *)
Variable joinKey : string -> string -> string.
Variable json_Marshal : any -> string + string.
Variable Regexp : Type.
Variable regexp_Compile : string -> option Regexp.
Variable MatchString : Regexp -> string -> bool.
Variable Regexp_String : Regexp -> string.

(** [jsonRepr] returns the JSON string representation of the given value. *)
Definition jsonRepr (v : any) : string :=
  match json_Marshal v with
  | inl bytes => bytes
  | inr err => ("<error formatting constant: " ++ err ++ ">")%string
  end.

Definition index (l : validationLoc) (i : nat) : validationLoc :=
  let outer := mkLoc (x l) (path l ++ "[" ++ itoa i ++ "]")%string true in
  match repr (x l) with
  | listExpr _ elements =>
      match nth_error elements i with
      | Some el => mkLoc el ("[" ++ itoa i ++ "]")%string false
      | None => outer
      end
  | _ => outer
  end.

Definition property (l : validationLoc) (k : string) : validationLoc :=
  let outer := mkLoc (x l) (joinKey (path l) k) true in
  match repr (x l) with
  | objectExpr _ properties =>
      match lookup properties k with
      | Some v => mkLoc v (joinKey "" k) false
      | None => outer
      end
  | _ => outer
  end.

(** [validationErrorf] issues a validation error at the given location. *)
Definition validationErrorf (loc : validationLoc) (format : string)
           (args : list fmtArg) : M bool :=
  let format := if prefix loc then (path loc ++ ": " ++ format)%string
                else format in
  errorf (syntax (repr (x loc))) format args ;;;
  ret false.

Definition constError (loc : validationLoc) (expected : any) : M bool :=
  validationErrorf loc "expected %v" [ArgString (jsonRepr expected)].

Definition enumError (loc : validationLoc) (expected : list any) : M bool :=
  match expected with
  | [e0] => constError loc e0
  | _ => validationErrorf loc "expected one of %v"
                          [ArgString (jsonRepr (a_slice expected))]
  end.

Definition typeError (loc : validationLoc) (expected got : string) : M bool :=
  validationErrorf loc "expected %s, got %s" [ArgString expected; ArgString got].

(** [isAny] returns true if a schema is the Always schema. *)
Definition isAny (s : option Schema) : bool :=
  match s with
  | None => true
  | Some s => Always s
  end.

(** The two loops of [equalsConst]:
    [for i, c := range c { if !e.equalsConst(a[i], c) { return false } }] and
    [for k, c := range c { v, ok := m[k]; if !ok || !e.equalsConst(v, c) { return false } }],
    each followed by [return true]. *)
Section equalsConstLoops.
Variable equalsConst : value -> any -> bool.

Fixpoint equalsSlice (a : list value) (i : nat) (c : list any) : bool :=
  match c with
  | [] => true
  | ci :: c' =>
      match nth_error a i with
      | Some ai => if negb (equalsConst ai ci) then false
                   else equalsSlice a (S i) c'
      | None => false
      end
  end.

Fixpoint equalsMap (m : list (string * value)) (c : list (string * any)) : bool :=
  match c with
  | [] => true
  | (k, ck) :: c' =>
      match lookup m k with
      | Some vk => if negb (equalsConst vk ck) then false
                   else equalsMap m c'
      | None => false
      end
  end.
End equalsConstLoops.

(** [equalsConst] returns true if the JSON value of [v] is equal to [c]. *)
Fixpoint equalsConst (v : value) (c : any) {struct c} : bool :=
  match c with
  | a_nil => match vrepr v with r_nil => true | _ => false end
  | a_bool c => match vrepr v with r_bool b => Bool.eqb b c | _ => false end
  | a_Number c => match vrepr v with r_Number n => String.eqb n c | _ => false end
  | a_string c => match vrepr v with r_string s => String.eqb s c | _ => false end
  | a_slice c =>
      match vrepr v with
      | r_slice a =>
          if negb (Nat.eqb (List.length a) (List.length c)) then false
          else equalsSlice equalsConst a O c
      | _ => false
      end
  | a_map c =>
      match vrepr v with
      | r_map m =>
          if negb (Nat.eqb (List.length m) (List.length c)) then false
          else equalsMap equalsConst m c
      | _ => false
      end
  | a_other _ => false
  end.

(** [checkType] validates the Type field of [accept] against the given
    actual type. *)
Definition checkType (actual : string) (accept : Schema)
           (loc : validationLoc) : M bool :=
  if negb (String.eqb actual (Type_ accept))
  then typeError loc (Type_ accept) actual
  else ret true.

(** [validateSchemaType] checks that [accept] validates [x].  Its calls
    to [validateSchemaArray] and [validateSchemaObject], with which it is
    mutually recursive, are the two parameters. *)
Definition validateSchemaType_
           (validateSchemaArray validateSchemaObject :
              Schema -> Schema -> validationLoc -> M bool)
           (x accept : option Schema) (loc : validationLoc) : M bool :=
  match accept with
  | None => ret true                                  (* e.isAny(accept) *)
  | Some accept =>
      if Always accept then ret true                  (* e.isAny(accept) *)
      else if Never accept then ret false
      else
        match x with
        | None => ret true                            (* e.isAny(x) *)
        | Some x =>
            if Always x then ret true                 (* e.isAny(x) *)
            else
              ok <- checkType (Type_ x) accept loc ;;
              if negb ok then ret false
              else if String.eqb (Type_ x) "array"
                   then validateSchemaArray x accept loc
              else if String.eqb (Type_ x) "object"
                   then validateSchemaObject x accept loc
              else ret true
        end
  end.

(** The three loops of [validateSchemaArray] over the prefix items: the
    common positions pairwise, then the surplus of [x] against [accept]'s
    Items or the surplus of [accept] against [x]'s Items.  [i] is the
    position, [allOk] the result so far. *)
Section validatePrefixItems.
Variable validateSchemaType :
  option Schema -> option Schema -> validationLoc -> M bool.
Variables xItems acceptItems : option Schema.
Variable loc : validationLoc.

Fixpoint validatePrefixItems (xprefix aprefix : list (option Schema))
         (i : nat) (allOk : bool) {struct xprefix} : M bool :=
  match xprefix, aprefix with
  | xp :: xprefix', ap :: aprefix' =>
      ok <- validateSchemaType xp ap (index loc i) ;;
      validatePrefixItems xprefix' aprefix' (S i) (allOk && ok)
  | xp :: xprefix', [] =>
      ok <- validateSchemaType xp acceptItems (index loc i) ;;
      validatePrefixItems xprefix' [] (S i) (allOk && ok)
  | [], _ :: _ =>
      r <- forRange (fun ap '(i, allOk) =>
                       ok <- validateSchemaType xItems ap (index loc i) ;;
                       ret (S i, allOk && ok))
                    aprefix (i, allOk) ;;
      ret (snd r)
  | [], [] => ret allOk
  end.
End validatePrefixItems.

(** [checkRequired], the closure of [validateSchemaObject]: every name of
    [ra] must be in [xreq]. *)
Definition checkRequired (xreq : string -> bool) (loc : validationLoc)
           (ra : list string) : M bool :=
  forRange (fun name ok =>
              if negb (xreq name)
              then validationErrorf (property loc name) "missing required property" [] ;;;
                   ret false
              else ret ok)
           ra true.

Fixpoint validateSchemaArray (x accept : Schema) (loc : validationLoc)
         {struct x} : M bool :=
  let validateSchemaType :=
    validateSchemaType_ validateSchemaArray validateSchemaObject in
  allOk <- validatePrefixItems validateSchemaType (Items x) (Items accept) loc
                               (PrefixItems x) (PrefixItems accept) O true ;;
  match Items x with
  | Some xitems =>
      if negb (Never xitems) then
        ok <- validateSchemaType (Items x) (Items accept) loc ;;
        ret (allOk && ok)
      else ret allOk
  | None => ret allOk
  end

with validateSchemaObject (x accept : Schema) (loc : validationLoc)
     {struct x} : M bool :=
  let validateSchemaType :=
    validateSchemaType_ validateSchemaArray validateSchemaObject in
  allOk <-
    forRange (fun '(name, px) allOk =>
                match lookup (Properties accept) name with
                | Some pa =>
                    ok <- validateSchemaType px pa (property loc name) ;;
                    ret (allOk && ok)
                | None =>
                    ok <- validateSchemaType px (AdditionalProperties accept)
                                             (property loc name) ;;
                    ret (allOk && ok)
                end)
             (Properties x) true ;;
  match AdditionalProperties x with
  | None =>
      let xreq name := existsb (String.eqb name) (Required x) in
      ok <- checkRequired xreq loc (Required accept) ;;
      let allOk := allOk && ok in
      forRange (fun '(name, req) allOk =>
                  if xreq name then
                    ok <- checkRequired xreq loc req ;;
                    ret (allOk && ok)
                  else ret allOk)
               (DependentRequired accept) allOk
  | Some xadditional =>
      if negb (Never xadditional) then
        ok <- validateSchemaType (AdditionalProperties x)
                                 (AdditionalProperties accept) loc ;;
        ret (allOk && ok)
      else ret allOk
  end.

Definition validateSchemaType : option Schema -> option Schema -> validationLoc -> M bool :=
  validateSchemaType_ validateSchemaArray validateSchemaObject.

(** Modelled from the spec: [Schema.GetPattern] and [Schema.Compile] of
    package [schema], which is not part of the sources at hand ("compile is
    idempotent and may fail", "patterns are compiled once on first schema
    use").  Compiling parses the numeric bounds that are set and compiles
    the pattern; [validateElement] compiles its schema before it tests it
    for nil, so compiling nil succeeds. *)
Definition GetPattern (s : Schema) : option Regexp :=
  if String.eqb (Pattern s) "" then None else regexp_Compile (Pattern s).

Definition compileNumber (n : json.Number) : option error :=
  if String.eqb n "" then None
  else match big.ParseFloat n with
       | Some _ => None
       | None => Some (ErrNumber n)
       end.

Definition Compile (s : option Schema) : option error :=
  match s with
  | None => None
  | Some s =>
      let first (a b : option error) := match a with Some _ => a | None => b end in
      first (compileNumber (MultipleOf s))
      (first (compileNumber (Maximum s))
      (first (compileNumber (ExclusiveMaximum s))
      (first (compileNumber (Minimum s))
      (first (compileNumber (ExclusiveMinimum s))
             (if String.eqb (Pattern s) "" then None
              else match regexp_Compile (Pattern s) with
                   | Some _ => None
                   | None => Some (ErrPattern (Pattern s))
                   end)))))
  end.

(** Modelled from the spec: [value.keys] and [value.property], which are
    not part of the sources at hand.  An object value is an "ordered
    key->value mapping": [entries] lists each key returned by [keys()] with
    the value [property(nil, k)] returns for it. *)
Definition entries (v : value) : list (string * value) :=
  match vrepr v with
  | r_map m => m
  | _ => []
  end.

Definition keys (v : value) : list string := map fst (entries v).

(** [for _, k := range v.keys() { kv := v.property(nil, k); ... }]: the
    loop over the entries of an object value. *)
Definition forEntries {S : Type} (body : string * value -> S -> M S)
           (v : value) (s : S) : M S :=
  match vrepr v with
  | r_map m => forRange body m s
  | _ => ret s
  end.

(** One clause of a validator:
    [if violated { e.validationErrorf(loc, format, args...); ok = false }]. *)
Definition clause (violated : bool) (loc : validationLoc) (format : string)
           (args : list fmtArg) (ok : bool) : M bool :=
  if violated then validationErrorf loc format args ;;; ret false
  else ret ok.

(** [validateConst] checks that [accept]'s Const validates [v]. *)
Definition validateConst (v : value) (accept : Schema) (loc : validationLoc) : M bool :=
  match Const accept with
  | a_nil => ret true
  | c => if equalsConst v c then ret true else constError loc c
  end.

(** [validateEnum] checks that [accept]'s Enum validates [v]. *)
Definition validateEnum (v : value) (accept : Schema) (loc : validationLoc) : M bool :=
  match Enum accept with
  | [] => ret true
  | enum => if existsb (equalsConst v) enum then ret true
            else enumError loc enum
  end.

(** [validateNumber] checks that [accept]'s number-specific clauses
    validate [v]. *)
Definition validateNumber (v : json.Number) (accept : Schema)
           (loc : validationLoc) : M bool :=
  match big.ParseFloat v with
  | None =>
      validationErrorf loc "internal error: invalid number %q (%v)"
                       [ArgString v; ArgError (ErrNumber v)] ;;;
      ret false
  | Some n =>
      let ok := true in
      ok <- match GetMultipleOf accept with
            | Some m =>
                match big.Quo n m with
                | Some q => clause (negb (big.IsInt q)) loc
                                   "expected a multiple of %v"
                                   [ArgString (MultipleOf accept)] ok
                | None => panic
                end
            | None => ret ok
            end ;;
      ok <- match GetMinimum accept with
            | Some m => clause (big.Cmp n m >? 0) loc
                               "expected a number greater than or equal to %v"
                               [ArgString (Minimum accept)] ok
            | None => ret ok
            end ;;
      ok <- match GetExclusiveMinimum accept with
            | Some m => clause (big.Cmp n m >=? 0) loc
                               "expected a number greater than %v"
                               [ArgString (ExclusiveMinimum accept)] ok
            | None => ret ok
            end ;;
      ok <- match GetMaximum accept with
            | Some m => clause (big.Cmp n m <? 0) loc
                               "expected a number less than or equal to%v"
                               [ArgString (Maximum accept)] ok
            | None => ret ok
            end ;;
      ok <- match GetExclusiveMaximum accept with
            | Some m => clause (big.Cmp n m <=? 0) loc
                               "expected a number less than %v"
                               [ArgString (ExclusiveMaximum accept)] ok
            | None => ret ok
            end ;;
      ret ok
  end.

(** [validateString] checks that [accept]'s string-specific clauses
    validate [v]. *)
Definition validateString (v : string) (accept : Schema)
           (loc : validationLoc) : M bool :=
  let len := Z.of_nat (String.length v) in
  let ok := true in
  ok <- match GetMinLength accept with
        | Some m => clause (len <? m) loc
                           "expected a string of at least length %v"
                           [ArgUint (MinLength accept)] ok
        | None => ret ok
        end ;;
  ok <- match GetMaxLength accept with
        | Some m => clause (len >? m) loc
                           "expected a string of at most length %v"
                           [ArgUint (MaxLength accept)] ok
        | None => ret ok
        end ;;
  ok <- match GetPattern accept with
        | Some p => clause (negb (MatchString p v)) loc
                           "string must match the pattern %q"
                           [ArgString (Regexp_String p)] ok
        | None => ret ok
        end ;;
  ret ok.

(** [validateValue] checks that [accept] validates [v]: the location it is
    passed is not used, validation restarts at the expression that defines
    [v]. *)
Definition validateValue_
           (validateElement : value -> option Schema -> validationLoc -> M bool)
           (v : value) (accept : option Schema) (loc : validationLoc) : M bool :=
  validateElement v accept (mkLoc (def v) "" false).

(** [validateArray] checks that [accept]'s array-specific clauses
    validate [v]. *)
Definition validateArray_
           (validateValue : value -> option Schema -> validationLoc -> M bool)
           (v : list value) (accept : Schema) (loc : validationLoc) : M bool :=
  let len := Z.of_nat (List.length v) in
  let ok := true in
  ok <- match GetMinItems accept with
        | Some m => clause (len <? m) loc
                           "expected an array with at least %v items"
                           [ArgUint (MinItems accept)] ok
        | None => ret ok
        end ;;
  ok <- match GetMaxItems accept with
        | Some m => clause (len >? m) loc
                           "expected an array with at most %v items"
                           [ArgUint (MaxItems accept)] ok
        | None => ret ok
        end ;;
  r <- forRange (fun v '(i, ok) =>
                   let vloc := index loc i in
                   match nth_error (PrefixItems accept) i with
                   | Some p =>
                       vok <- validateValue v p vloc ;;
                       ret (S i, if negb vok then false else ok)
                   | None =>
                       vok <- validateValue v (Items accept) vloc ;;
                       ret (S i, if negb vok then false else ok)
                   end)
                v (O, ok) ;;
  ret (snd r).

(** The [missing] list of [validateObject]: the required keys, then the
    dependent keys of the keys that are present, that are not in
    [keySet]. *)
Definition missingKeys (keySet : list string) (accept : Schema) : list string :=
  let has k := existsb (String.eqb k) keySet in
  filter (fun k => negb (has k)) (Required accept)
  ++ flat_map (fun '(k, required) =>
                 if has k then filter (fun rk => negb (has rk)) required
                 else [])
              (DependentRequired accept).

(** [validateObject] checks that [accept]'s object-specific clauses
    validate [v]. *)
Definition validateObject_
           (validateValue : value -> option Schema -> validationLoc -> M bool)
           (v : value) (accept : Schema) (loc : validationLoc) : M bool :=
  let len := Z.of_nat (List.length (keys v)) in
  let ok := true in
  ok <- match GetMinProperties accept with
        | Some m => clause (len <? m) loc
                           "expected an object with at least %v properties"
                           [ArgUint (MinProperties accept)] ok
        | None => ret ok
        end ;;
  ok <- match GetMaxProperties accept with
        | Some m => clause (len >? m) loc
                           "expected an object with at most %v properties"
                           [ArgUint (MaxProperties accept)] ok
        | None => ret ok
        end ;;
  ok <- forEntries (fun '(k, kv) ok =>
                      let vloc := property loc k in
                      match lookup (Properties accept) k with
                      | Some p =>
                          vok <- validateValue kv p vloc ;;
                          ret (if negb vok then false else ok)
                      | None =>
                          vok <- validateValue kv (AdditionalProperties accept) vloc ;;
                          ret (if negb vok then false else ok)
                      end)
                   v ok ;;
  let missing := missingKeys (keys v) accept in
  ok <- clause (negb (Nat.eqb (List.length missing) 0)) loc
               "missing required properties: %s"
               [ArgString (String.concat ", " missing)] ok ;;
  ret ok.

(** [validateType] checks that [accept]'s type-specific clauses validate
    [v]. *)
Definition validateType_
           (validateValue : value -> option Schema -> validationLoc -> M bool)
           (v : value) (accept : Schema) (loc : validationLoc) : M bool :=
  match vrepr v with
  | r_nil =>
      ok <- checkType "null" accept loc ;;
      if negb ok then ret false else ret true
  | r_bool _ =>
      ok <- checkType "boolean" accept loc ;;
      if negb ok then ret false else ret true
  | r_Number repr =>
      ok <- checkType "number" accept loc ;;
      if negb ok then ret false else validateNumber repr accept loc
  | r_string repr =>
      ok <- checkType "string" accept loc ;;
      if negb ok then ret false else validateString repr accept loc
  | r_slice repr =>
      ok <- checkType "array" accept loc ;;
      if negb ok then ret false else validateArray_ validateValue repr accept loc
  | r_map _ =>
      ok <- checkType "object" accept loc ;;
      if negb ok then ret false else validateObject_ validateValue v accept loc
  end.

(** [validateElement] checks that [accept] validates [v]. *)
Fixpoint validateElement (v : value) (accept : option Schema)
         (loc : validationLoc) {struct v} : M bool :=
  match Compile accept with
  | Some err =>
      validationErrorf loc "internal error: invalid schema: %w" [ArgError err] ;;;
      ret false
  | None =>
      match accept with
      | None => ret true                              (* e.isAny(accept) *)
      | Some accept' =>
          if Always accept' then ret true             (* e.isAny(accept) *)
          else if Never accept' then ret false
          else if unknown v then validateSchemaType (vschema v) accept loc
          else
            cok <- validateConst v accept' loc ;;
            eok <- validateEnum v accept' loc ;;
            tok <- validateType_ (validateValue_ validateElement) v accept' loc ;;
            ret (cok && eok && tok)
      end
  end.

Definition validateValue := validateValue_ validateElement.
Definition validateArray := validateArray_ validateValue.
Definition validateObject := validateObject_ validateValue.
Definition validateType := validateType_ validateValue.

End Validation.

(** ** Export *)

(** A panic of [export] is [None]. *)
Definition obind {A B} (m : option A) (f : A -> option B) : option B :=
  match m with
  | Some a => f a
  | None => None
  end.

Notation "x <~ m ;; k" := (obind m (fun x => k))
  (at level 61, m at next level, right associativity) : eval_scope.

Section mapO.
Context {A B : Type} (f : A -> option B).

Fixpoint mapO (l : list A) : option (list B) :=
  match l with
  | [] => Some []
  | a :: l' => b <~ f a ;; bs <~ mapO l' ;; Some (b :: bs)
  end.
End mapO.

Definition exportPos (p : hcl.Pos) : environments.Pos :=
  environments.mkPos (hcl.Line p) (hcl.Column p) (hcl.Byte p).

(** [defRange] returns the source range for the expression.  If the
    expression does not have source information, it returns a range that
    only refers to the given environment. *)
Definition defRange (x : expr) (environment : string) : environments.Range :=
  match ast.Range (syntax (repr x)) with
  | Some r =>
      environments.mkRange (hcl.Filename r) (exportPos (hcl.Start r))
                           (exportPos (hcl.End_ r))
  | None =>
      environments.mkRange environment (environments.mkPos 0 0 0)
                           (environments.mkPos 0 0 0)
  end.

Definition exportAccessor (accessor : ast.PropertyAccessor) : option environments.Accessor :=
  match accessor with
  | ast.PropertyName Name => Some (environments.mkAccessor None (Some Name))
  | ast.PropertySubscript (ast.IndexString index) =>
      Some (environments.mkAccessor None (Some index))
  | ast.PropertySubscript (ast.IndexInt index) =>
      Some (environments.mkAccessor (Some index) None)
  | ast.PropertySubscript ast.IndexOther => None      (* panic: invalid property accessor *)
  end.

(** The accessors of a symbol or of an interpolation, exported. *)
Definition exportAccess (environment : string) (accessors : list (propertyAccessor value))
  : option (list environments.PropertyAccessor) :=
  mapO (fun a =>
          acc <~ exportAccessor (accessor a) ;;
          Some (environments.mkPropertyAccessor
                  acc (defRange (def (value_ a)) environment)))
       accessors.

Module Import ExprUpdate.
Import environments.

Definition withLiteral (ex : Expr) (v : any) : Expr :=
  mkExpr (Range_ ex) (Base ex) (Schema_ ex) v (Interpolate ex) (Symbol ex)
         (Access ex) (List_ ex) (Object ex) (Builtin ex).
Definition withInterpolate (ex : Expr) (v : list Interpolation) : Expr :=
  mkExpr (Range_ ex) (Base ex) (Schema_ ex) (Literal ex) (Some v) (Symbol ex)
         (Access ex) (List_ ex) (Object ex) (Builtin ex).
Definition withSymbol (ex : Expr) (v : list PropertyAccessor) : Expr :=
  mkExpr (Range_ ex) (Base ex) (Schema_ ex) (Literal ex) (Interpolate ex) (Some v)
         (Access ex) (List_ ex) (Object ex) (Builtin ex).
Definition withAccess (ex : Expr) (v : AccessExpr) : Expr :=
  mkExpr (Range_ ex) (Base ex) (Schema_ ex) (Literal ex) (Interpolate ex) (Symbol ex)
         (Some v) (List_ ex) (Object ex) (Builtin ex).
Definition withList (ex : Expr) (v : list Expr) : Expr :=
  mkExpr (Range_ ex) (Base ex) (Schema_ ex) (Literal ex) (Interpolate ex) (Symbol ex)
         (Access ex) (Some v) (Object ex) (Builtin ex).
Definition withObject (ex : Expr) (v : list (string * Expr)) : Expr :=
  mkExpr (Range_ ex) (Base ex) (Schema_ ex) (Literal ex) (Interpolate ex) (Symbol ex)
         (Access ex) (List_ ex) (Some v) (Builtin ex).
Definition withBuiltin (ex : Expr) (v : BuiltinExpr) : Expr :=
  mkExpr (Range_ ex) (Base ex) (Schema_ ex) (Literal ex) (Interpolate ex) (Symbol ex)
         (Access ex) (List_ ex) (Object ex) (Some v).

(** The zero [Expr], with only the given list or object set. *)
Definition zeroRange : Range := mkRange "" (mkPos 0 0 0) (mkPos 0 0 0).
Definition zeroExpr : Expr :=
  mkExpr zeroRange None None a_nil None None None None None None.
End ExprUpdate.

Section ExportExpr.

(** The argument schemas of the builtins, built by package [schema]:
    [schema.Tuple(schema.String(), schema.Array().Items(schema.String())).Schema()],
    [schema.Record({"provider": schema.String(), "inputs": inputSchema}).Schema()],
    [schema.Always().Schema()] and [schema.String().Schema()]. *)
Variable joinArgSchema : option Schema.
Variable openArgSchema : option Schema -> option Schema.
Variable alwaysSchema : option Schema.
Variable stringSchema : option Schema.

(** [export] transforms an [expr] into its exported, serializable
    representation. *)
Fixpoint export (x : expr) (environment : string) {struct x}
  : option environments.Expr :=
  base <~ match base x with
          | Some b => b <~ export (def b) environment ;; Some (Some b)
          | None => Some None
          end ;;
  let ex := environments.mkExpr (defRange x environment) base (schema x)
                                a_nil None None None None None None in
  match repr x with
  | literalExpr _ =>
      match ast.kind (syntax (repr x)) with
      | ast.BooleanExpr Value => Some (withLiteral ex (a_bool Value))
      | ast.NumberExpr Value => Some (withLiteral ex (a_Number Value))
      | ast.StringExpr Value => Some (withLiteral ex (a_string Value))
      | _ => Some ex
      end
  | interpolateExpr _ parts =>
      interp <~ mapO (fun p =>
                        value <~ match ivalue p with
                                 | Some pa =>
                                     v <~ exportAccess environment (accessors pa) ;;
                                     Some (Some v)
                                 | None => Some None
                                 end ;;
                        Some (environments.mkInterpolation
                                (ast.Text (isyntax p)) value))
                     parts ;;
      Some (withInterpolate ex interp)
  | symbolExpr _ property =>
      value <~ exportAccess environment (accessors property) ;;
      Some (withSymbol ex value)
  | accessExpr _ receiver accessor =>
      accessor <~ exportAccessor accessor ;;
      match repr (def receiver) with
      | accessExpr _ _ _ =>
          ex <~ export (def receiver) environment ;;
          match environments.Access ex with
          | Some a =>
              Some (withAccess ex (environments.mkAccessExpr
                                     (environments.Receiver a)
                                     (environments.Accessors a ++ [accessor])))
          | None => None                (* nil dereference *)
          end
      | _ =>
          Some (withAccess ex (environments.mkAccessExpr
                                 (defRange (def receiver) environment)
                                 [accessor]))
      end
  | joinExpr _ delimiter values =>
      d <~ export delimiter environment ;;
      v <~ export values environment ;;
      Some (withBuiltin ex (environments.mkBuiltinExpr
                              joinArgSchema (withList zeroExpr [d; v])))
  | openExpr _ provider inputs inputSchema =>
      p <~ export provider environment ;;
      i <~ export inputs environment ;;
      Some (withBuiltin ex (environments.mkBuiltinExpr
                              (openArgSchema inputSchema)
                              (withObject zeroExpr [("provider", p); ("inputs", i)])))
  | secretExpr _ value =>
      arg <~ export value environment ;;
      Some (withBuiltin ex (environments.mkBuiltinExpr alwaysSchema arg))
  | toBase64Expr _ value =>
      arg <~ export value environment ;;
      Some (withBuiltin ex (environments.mkBuiltinExpr stringSchema arg))
  | toJSONExpr _ value =>
      arg <~ export value environment ;;
      Some (withBuiltin ex (environments.mkBuiltinExpr alwaysSchema arg))
  | toStringExpr _ value =>
      arg <~ export value environment ;;
      Some (withBuiltin ex (environments.mkBuiltinExpr alwaysSchema arg))
  | listExpr _ elements =>
      l <~ mapO (fun el => export el environment) elements ;;
      Some (withList ex l)
  | objectExpr _ properties =>
      o <~ mapO (fun '(k, v) => e <~ export v environment ;; Some (k, e))
                properties ;;
      Some (withObject ex o)
  end.

End ExportExpr.
(** ** Inputs used by the examples

    Instances of the functions the development is parametric in, and small
    schemas, expressions and values. *)
Module Sample.

(** [joinKey] appends [.key] to a path. *)
Definition joinKey (root k : string) : string :=
  if String.eqb root "" then k else (root ++ "." ++ k)%string.

(** A renderer of JSON constants without string escapes. *)
Fixpoint marshal (v : any) : string :=
  match v with
  | a_nil => "null"
  | a_bool true => "true"
  | a_bool false => "false"
  | a_Number n => n
  | a_string s => ("'" ++ s ++ "'")%string
  | a_slice l => ("[" ++ String.concat "," (map marshal l) ++ "]")%string
  | a_map m =>
      ("{" ++ String.concat ","
                (map (fun '(k, c) => ("'" ++ k ++ "':" ++ marshal c)%string) m)
           ++ "}")%string
  | a_other dyn => dyn
  end.

Definition json_Marshal (v : any) : string + string := inl (marshal v).

(** Patterns that match literally. *)
Definition Regexp : Type := string.
Definition regexp_Compile (p : string) : option Regexp := Some p.
Definition MatchString (p : Regexp) (s : string) : bool := String.eqb p s.
Definition Regexp_String (p : Regexp) : string := p.

Definition numberSchema
           (multipleOf maximum exclusiveMaximum minimum exclusiveMinimum : json.Number)
  : Schema :=
  mkSchema false false "number" a_nil [] multipleOf maximum exclusiveMaximum
           minimum exclusiveMinimum None None "" [] None None None [] None
           None None [] [].

Definition stringSchema : Schema :=
  mkSchema false false "string" a_nil [] "" "" "" "" "" None None "" [] None
           None None [] None None None [] [].

Definition neverSchema : Schema :=
  mkSchema true false "" a_nil [] "" "" "" "" "" None None "" [] None
           None None [] None None None [] [].

Definition alwaysSchema : Schema :=
  mkSchema false true "" a_nil [] "" "" "" "" "" None None "" [] None
           None None [] None None None [] [].

Definition arraySchema (prefixItems : list (option Schema)) (items : option Schema)
  : Schema :=
  mkSchema false false "array" a_nil [] "" "" "" "" "" None None ""
           prefixItems items None None [] None None None [] [].

Definition objectSchema (properties : list (string * option Schema))
           (additionalProperties : option Schema) (required : list string)
           (dependentRequired : list (string * list string)) : Schema :=
  mkSchema false false "object" a_nil [] "" "" "" "" "" None None "" [] None
           None None properties additionalProperties None None required
           dependentRequired.

Definition pos (l c b : Z) : hcl.Pos := hcl.mkPos l c b.

(** A syntax node of the file [env.yaml], on line [l]. *)
Definition node (k : ast.ExprKind) (l : Z) : ast.Expr :=
  ast.mkExpr k (Some (hcl.mkRange "env.yaml" (pos l 1 0) (pos l 9 8))).

Definition mk (r : exprRepr) : expr := mkExpr "" r None None 2 false.

(** The literal [5], the symbol [${xs}] and the list literal [[5]]. *)
Definition five : expr := mk (literalExpr (node (ast.NumberExpr "5") 1)).
Definition vfive : value := mkValue five None false false (r_Number "5").
Definition xs : expr :=
  mk (symbolExpr (node ast.CompositeExpr 2) (mkPropertyAccess [])).
Definition vxs : value := mkValue xs None false false (r_slice [vfive]).
Definition lst : expr := mk (listExpr (node ast.CompositeExpr 3) [five]).
Definition vlst : value := mkValue lst None false false (r_slice [vfive]).

Definition loc (e : expr) : validationLoc := mkLoc e "" false.

(** The object literal [{b: 5}], and a schema that requires the key [a]
    and, where [b] is present, the key [c]. *)
Definition obj : expr := mk (objectExpr (node ast.CompositeExpr 4) [("b", five)]).
Definition vobj : value := mkValue obj None false false (r_map [("b", vfive)]).
Definition requiresAC : Schema := objectSchema [] None ["a"] [("b", ["c"])].

(** A schema whose constant is [{b: 5}] and one whose members are 4 and 5. *)
Definition constObject : Schema :=
  mkSchema false false "object" (a_map [("b", a_Number "5")]) [] "" "" "" "" ""
           None None "" [] None None None [] None None None [] [].
Definition enumNumbers : Schema :=
  mkSchema false false "number" a_nil [a_Number "4"; a_Number "5"] "" "" "" "" ""
           None None "" [] None None None [] None None None [] [].

(** An unknown value whose schema is the string schema. *)
Definition vunknown : value := mkValue xs (Some stringSchema) false true r_nil.

(** The chain [${xs}.b[0]]: the access [.b] on the value of [xs], then the
    access [[0]] on the result. *)
Definition xs_b : expr :=
  mk (accessExpr (node ast.CompositeExpr 5) vxs (ast.PropertyName "b")).
Definition vxs_b : value := mkValue xs_b None false true r_nil.
Definition xs_b_0 : expr :=
  mk (accessExpr (node ast.CompositeExpr 6) vxs_b
                 (ast.PropertySubscript (ast.IndexInt 0))).

(** Argument schemas for the builtins. *)
Definition joinArgSchema : option Schema :=
  Some (arraySchema [Some stringSchema; Some (arraySchema [] (Some stringSchema))]
                    (Some neverSchema)).
Definition openArgSchema (inputSchema : option Schema) : option Schema :=
  Some (objectSchema [("provider", Some stringSchema); ("inputs", inputSchema)]
                     (Some neverSchema) ["provider"; "inputs"] []).

(** The validators and [export] at these instances. *)
Definition validateValue :=
  validateValue joinKey json_Marshal Regexp regexp_Compile MatchString Regexp_String.
Definition validateElement :=
  validateElement joinKey json_Marshal Regexp regexp_Compile MatchString Regexp_String.
Definition validateArray :=
  validateArray joinKey json_Marshal Regexp regexp_Compile MatchString Regexp_String.
Definition export :=
  export joinArgSchema openArgSchema (Some alwaysSchema) (Some stringSchema).

(** An array schema without prefix items whose tail is [never], and one
    whose tail items are strings. *)
Definition emptyArray : Schema := arraySchema [] (Some neverSchema).
Definition stringArray : Schema := arraySchema [] (Some stringSchema).

(** An object schema that admits no additional property and requires none,
    and one that requires the key [a]. *)
Definition closedObject : Schema := objectSchema [] (Some neverSchema) [] [].
Definition requiresA : Schema := objectSchema [] None ["a"] [].

End Sample.


(** ** Definitions used by the statements *)

(** A computation returns (it does not panic). *)
Definition returns {A} (m : M A) : Prop := exists a d, m = Some (a, d).

(** The boolean a check returned; a panic counts as a failure. *)
Definition passed (m : M bool) : bool :=
  match m with
  | Some (b, _) => b
  | None => false
  end.

(** [onSome P o]: [P] holds of the schema [o] points to, if any. *)
Definition onSome (P : Schema -> Prop) (o : option Schema) : Prop :=
  match o with
  | Some s => P s
  | None => True
  end.

(** A schema that is [never] (and not nil). *)
Definition isNever (s : option Schema) : bool :=
  match s with
  | Some s => Never s
  | None => false
  end.

(** [v] with another representation. *)
Definition withRepr (v : value) (r : valueRepr) : value :=
  let 'mkValue d s sec u _ := v in mkValue d s sec u r.

(** The diagnostic that [validationErrorf loc format args] issues. *)
Definition errorAt (loc : validationLoc) (format : string) (args : list fmtArg) : Diag :=
  mkDiag (syntax (repr (x loc)))
         (if prefix loc then (path loc ++ ": " ++ format)%string else format)
         args.

(** [imap f i l] maps [f] over [l], passing each element its position,
    counted from [i]. *)
Fixpoint imap {A B} (f : nat -> A -> B) (i : nat) (l : list A) : list B :=
  match l with
  | [] => []
  | a :: l' => f i a :: imap f (S i) l'
  end.

(** The checks that validate an array schema [x] against [accept], in the
    words of the specification: the common [prefixItems] positions pairwise;
    the surplus [prefixItems] of the input against the target's [items] and
    the surplus of the target against the input's [items]; and the tail
    [items] of the input against the tail [items] of the target, unless the
    input's is [never]. *)
Definition arrayChecks (validateSchemaType : option Schema -> option Schema -> validationLoc -> M bool)
           (x accept : Schema) (loc : validationLoc) : list (M bool) :=
  let xprefix := PrefixItems x in
  let aprefix := PrefixItems accept in
  let n := Nat.min (List.length xprefix) (List.length aprefix) in
  imap (fun i '(xp, ap) => validateSchemaType xp ap (index loc i))
       O (combine xprefix aprefix)
  ++ imap (fun i xp => validateSchemaType xp (Items accept) (index loc i))
          n (skipn n xprefix)
  ++ imap (fun i ap => validateSchemaType (Items x) ap (index loc i))
          n (skipn n aprefix)
  ++ (if isNever (Items x) then []
      else [validateSchemaType (Items x) (Items accept) loc]).

(** Deep equality of a value and a constant, in the words of the
    specification: null, booleans and strings compare by equality, numbers by
    equality of their lexical forms, arrays element-wise with equal length,
    objects key-wise with equal key sets. *)
Inductive deepEqual : value -> any -> Prop :=
| deepEqual_nil v :
    vrepr v = r_nil -> deepEqual v a_nil
| deepEqual_bool v b :
    vrepr v = r_bool b -> deepEqual v (a_bool b)
| deepEqual_Number v n :
    vrepr v = r_Number n -> deepEqual v (a_Number n)
| deepEqual_string v s :
    vrepr v = r_string s -> deepEqual v (a_string s)
| deepEqual_slice v a c :
    vrepr v = r_slice a ->
    Forall2 deepEqual a c ->
    deepEqual v (a_slice c)
| deepEqual_map v m c :
    vrepr v = r_map m ->
    (forall k, In k (map fst m) <-> In k (map fst c)) ->
    (forall k ck, lookup c k = Some ck ->
                  exists vk, lookup m k = Some vk /\ deepEqual vk ck) ->
    deepEqual v (a_map c).

(** The keys of every map inside a constant, or inside a value, are pairwise
    distinct, as the keys of a Go map are. *)
Fixpoint wfAny (c : any) : Prop :=
  match c with
  | a_slice l =>
      (fix all (l : list any) : Prop :=
         match l with
         | [] => True
         | c :: l' => wfAny c /\ all l'
         end) l
  | a_map m =>
      uniqueKeys m /\
      (fix all (m : list (string * any)) : Prop :=
         match m with
         | [] => True
         | kc :: m' => wfAny (snd kc) /\ all m'
         end) m
  | _ => True
  end.

Fixpoint wfValue (v : value) : Prop :=
  match vrepr v with
  | r_slice a =>
      (fix all (a : list value) : Prop :=
         match a with
         | [] => True
         | v :: a' => wfValue v /\ all a'
         end) a
  | r_map m =>
      uniqueKeys m /\
      (fix all (m : list (string * value)) : Prop :=
         match m with
         | [] => True
         | kv :: m' => wfValue (snd kv) /\ all m'
         end) m
  | _ => True
  end.

(** *** The clauses of a validator

    A clause is a test with the error it issues when violated.  [report]
    is the outcome of a list of clauses that are all evaluated: the result is
    true when none is violated, and each violated clause contributes its own
    diagnostic, in order. *)
Definition Clause : Type := bool * string * list fmtArg.

Definition diagIf (loc : validationLoc) (c : Clause) : list Diag :=
  let '(violated, format, args) := c in
  if violated then [errorAt loc format args] else [].

Definition holds (c : Clause) : bool := negb (fst (fst c)).

Definition bound {A} (get : option A) (violated : A -> bool) : bool :=
  match get with
  | Some m => violated m
  | None => false
  end.

Definition numberClauses (n : big.Float) (accept : Schema) : list Clause :=
  [ (bound (GetMultipleOf accept)
           (fun m => match big.Quo n m with
                     | Some q => negb (big.IsInt q)
                     | None => false
                     end),
     "expected a multiple of %v", [ArgString (MultipleOf accept)]);
    (bound (GetMinimum accept) (fun m => big.Cmp n m >? 0),
     "expected a number greater than or equal to %v", [ArgString (Minimum accept)]);
    (bound (GetExclusiveMinimum accept) (fun m => big.Cmp n m >=? 0),
     "expected a number greater than %v", [ArgString (ExclusiveMinimum accept)]);
    (bound (GetMaximum accept) (fun m => big.Cmp n m <? 0),
     "expected a number less than or equal to%v", [ArgString (Maximum accept)]);
    (bound (GetExclusiveMaximum accept) (fun m => big.Cmp n m <=? 0),
     "expected a number less than %v", [ArgString (ExclusiveMaximum accept)]) ].

Definition stringClauses {Regexp : Type} (GetPattern : Schema -> option Regexp)
           (MatchString : Regexp -> string -> bool)
           (Regexp_String : Regexp -> string)
           (v : string) (accept : Schema) : list Clause :=
  let len := Z.of_nat (String.length v) in
  [ (bound (GetMinLength accept) (fun m => len <? m),
     "expected a string of at least length %v", [ArgUint (MinLength accept)]);
    (bound (GetMaxLength accept) (fun m => len >? m),
     "expected a string of at most length %v", [ArgUint (MaxLength accept)]) ]
  ++ match GetPattern accept with
     | Some p => [ (negb (MatchString p v),
                    "string must match the pattern %q", [ArgString (Regexp_String p)]) ]
     | None => []
     end.

Definition arrayClauses (v : list value) (accept : Schema) : list Clause :=
  let len := Z.of_nat (List.length v) in
  [ (bound (GetMinItems accept) (fun m => len <? m),
     "expected an array with at least %v items", [ArgUint (MinItems accept)]);
    (bound (GetMaxItems accept) (fun m => len >? m),
     "expected an array with at most %v items", [ArgUint (MaxItems accept)]) ].

Definition objectClauses (len : Z) (accept : Schema) : list Clause :=
  [ (bound (GetMinProperties accept) (fun m => len <? m),
     "expected an object with at least %v properties", [ArgUint (MinProperties accept)]);
    (bound (GetMaxProperties accept) (fun m => len >? m),
     "expected an object with at most %v properties", [ArgUint (MaxProperties accept)]) ].

(** The one clause for [required] and [dependentRequired] together. *)
Definition missingClause (keySet : list string) (accept : Schema) : Clause :=
  let missing := missingKeys keySet accept in
  (negb (Nat.eqb (List.length missing) 0),
   "missing required properties: %s", [ArgString (String.concat ", " missing)]).

(** The schema for the element at position [i] of an array, and for the
    property [k] of an object. *)
Definition itemSchema (accept : Schema) (i : nat) : option Schema :=
  match nth_error (PrefixItems accept) i with
  | Some p => p
  | None => Items accept
  end.

Definition propertySchema (accept : Schema) (k : string) : option Schema :=
  match lookup (Properties accept) k with
  | Some p => p
  | None => AdditionalProperties accept
  end.

(** *** Chains of access expressions

    An access expression whose receiver is defined by an access expression
    continues a chain.  [chainRoot] is the expression that defines the
    innermost receiver, the first along the chain that is not an access;
    [chainAccessors] lists the accessors in the order they are applied. *)
Definition isAccess (x : expr) : bool :=
  match repr x with
  | accessExpr _ _ _ => true
  | _ => false
  end.

Fixpoint chainRoot (x : expr) : expr :=
  match repr x with
  | accessExpr _ receiver _ => chainRoot (def receiver)
  | _ => x
  end.

Fixpoint chainAccessors (x : expr) : list ast.PropertyAccessor :=
  match repr x with
  | accessExpr _ receiver accessor => chainAccessors (def receiver) ++ [accessor]
  | _ => []
  end.

(** Nothing panics along the chain: every accessor is a name, a string or an
    int, and the base of every access expression, which [export] exports
    first, is exported. *)
Fixpoint chainExports (exportBase : expr -> bool) (x : expr) : Prop :=
  match repr x with
  | accessExpr _ receiver accessor =>
      exportAccessor accessor <> None
      /\ match base x with
         | Some b => exportBase (def b) = true
         | None => True
         end
      /\ chainExports exportBase (def receiver)
  | _ => True
  end.

(** *** Exact decimal arithmetic

    The value of a decimal literal as a rational number, and what it is for a
    number to be a multiple of another in exact arithmetic: their quotient is
    an integer. *)
Definition exactValue (s : string) : option Q :=
  match big.scan s with
  | Some (big.lit_num neg mant exp5 exp2) =>
      Some ((if neg then - inject_Z mant else inject_Z mant)
            * Qpower (5 # 1) exp5 * Qpower (2 # 1) exp2)%Q
  | _ => None
  end.

Definition exactMultiple (v m : string) : Prop :=
  exists (qv qm : Q) (k : Z),
    exactValue v = Some qv /\ exactValue m = Some qm /\ (qv == inject_Z k * qm)%Q.

(** The value [mant * 2^exp] of a finite float is an integer. *)
Definition isIntegral (f : big.form) : Prop :=
  match f with
  | big.finite mant exp => exists k, mant * 2 ^ Z.max exp 0 = k * 2 ^ Z.max (- exp) 0
  | big.inf _ => False
  end.

(** [x] is checked against every schema, at every location, without a panic. *)
Definition checks (joinKey : string -> string -> string) (x : Schema) : Prop :=
  forall accept loc,
    returns (validateSchemaArray joinKey x accept loc) /\
    returns (validateSchemaObject joinKey x accept loc).

(** The diagnostics of [checkRequired]: one per name that is not required. *)
Definition missingRequired (joinKey : string -> string -> string)
           (xreq : string -> bool) (loc : validationLoc)
           (ra : list string) : list Diag :=
  map (fun name => errorAt (property joinKey loc name) "missing required property" [])
      (filter (fun name => negb (xreq name)) ra).

(** [mant * 2^exp] is [num/den * 2^e] (for [num, den > 0]) rounded to [p]
    bits, to nearest with ties to even: the mantissa has [p] bits (or is
    [2^p], after a carry), the result is within half a unit in the last place
    of the exact value, and is even when exactly half way. *)
Definition nearest (p num den e mant exp : Z) : Prop :=
  2 ^ (p - 1) <= Z.abs mant <= 2 ^ p
  /\ let k := Z.min e exp in
     let err := Z.abs (num * 2 ^ (e - k) - Z.abs mant * den * 2 ^ (exp - k)) in
     2 * err <= den * 2 ^ (exp - k)
     /\ (2 * err = den * 2 ^ (exp - k) -> Z.even mant = true).

(** *** Diagnostics and verdicts

    [keeps ok b m]: when [m] ends with a state whose flag [ok] is set, the
    flag [b] it started from was set and [m] emitted nothing.  [quiet m]:
    a check that succeeds emits no diagnostic.  [allDiags P m]: every
    diagnostic of [m] satisfies [P]. *)
Definition keeps {T} (ok : T -> bool) (b : bool) (m : M T) : Prop :=
  match m with
  | Some (t, d) => ok t = true -> b = true /\ d = []
  | None => True
  end.

Definition quiet (m : M bool) : Prop :=
  match m with
  | Some (true, d) => d = []
  | _ => True
  end.

Definition allDiags {T} (P : Diag -> Prop) (m : M T) : Prop :=
  match m with
  | Some (_, d) => Forall P d
  | None => True
  end.

(** *** Blame

    [within y e]: the expression [y] is [e] or an element or property of the
    list or object literal [e], at any depth: the expressions that [index]
    and [property] can move a location to.  [blames root d]: the diagnostic
    [d] is attached to the syntax node of an expression within [root].
    [subvalue w v]: [w] is [v] or an element or property value of [v], at any
    depth. *)
Inductive within : expr -> expr -> Prop :=
| within_refl e : within e e
| within_element y e node elements el :
    repr e = listExpr node elements -> In el elements -> within y el -> within y e
| within_property y e node properties k p :
    repr e = objectExpr node properties -> In (k, p) properties -> within y p ->
    within y e.

Definition blames (root : expr) (d : Diag) : Prop :=
  exists e, within e root /\ dnode d = syntax (repr e).

Inductive subvalue : value -> value -> Prop :=
| subvalue_refl v : subvalue v v
| subvalue_element w v a e :
    vrepr v = r_slice a -> In e a -> subvalue w e -> subvalue w v
| subvalue_property w v m k e :
    vrepr v = r_map m -> In (k, e) m -> subvalue w e -> subvalue w v.

(** A diagnostic of [validateElement] is at the location given, or at the
    defining expression of a value nested in [v]. *)
Definition blamesAt (loc : validationLoc) (v : value) (d : Diag) : Prop :=
  blames (x loc) d \/ exists w, subvalue w v /\ blames (def w) d.

(** *** Failures and [never]

    [loud ok b m]: when [m] ends with the flag [ok] cleared, the flag [b] it
    started from was cleared already or [m] emitted a diagnostic.
    [hasNever s]: [s] or a schema nested in it (an item, a property, the
    additional properties) is a [never] schema. *)
Definition loud {T} (ok : T -> bool) (b : bool) (m : M T) : Prop :=
  match m with
  | Some (t, d) => ok t = false -> b = false \/ d <> []
  | None => True
  end.

Inductive hasNever : Schema -> Prop :=
| hasNever_here s : Never s = true -> hasNever s
| hasNever_prefixItem s c : In (Some c) (PrefixItems s) -> hasNever c -> hasNever s
| hasNever_items s c : Items s = Some c -> hasNever c -> hasNever s
| hasNever_property s k c : In (k, Some c) (Properties s) -> hasNever c -> hasNever s
| hasNever_additional s c : AdditionalProperties s = Some c -> hasNever c -> hasNever s.

Definition neverIn (o : option Schema) : Prop :=
  match o with
  | Some s => hasNever s
  | None => False
  end.

(** *** Verdicts

    Two computations have the same verdict when both panic, or both return
    the same result with the same number of diagnostics. *)
Definition sameVerdict {A} (m1 m2 : M A) : Prop :=
  match m1, m2 with
  | Some (a1, d1), Some (a2, d2) => a1 = a2 /\ List.length d1 = List.length d2
  | None, None => True
  | _, _ => False
  end.

(** *** Export

    [validAccessor]: the accessors [exportAccessor] does not panic on.
    [accessorsValid x]: every accessor that [export] reads on its way through
    [x] is valid: those of [x] itself, of the base it overrides and of the
    expressions it exports in turn (the receiver of an access only when it is
    itself an access). *)
Definition validAccessor (a : ast.PropertyAccessor) : bool :=
  match a with
  | ast.PropertySubscript ast.IndexOther => false
  | _ => true
  end.

Definition validAccess (pa : propertyAccess value) : bool :=
  forallb (fun a => validAccessor (accessor a)) (accessors pa).

Fixpoint accessorsValid (x : expr) : bool :=
  match base x with
  | Some b => accessorsValid (def b)
  | None => true
  end
  && match repr x with
     | literalExpr _ => true
     | interpolateExpr _ parts =>
         forallb (fun p => match ivalue p with
                           | Some pa => validAccess pa
                           | None => true
                           end) parts
     | symbolExpr _ property => validAccess property
     | accessExpr _ receiver accessor =>
         validAccessor accessor
         && match repr (def receiver) with
            | accessExpr _ _ _ => accessorsValid (def receiver)
            | _ => true
            end
     | listExpr _ elements => forallb accessorsValid elements
     | objectExpr _ properties => forallb (fun kv => accessorsValid (snd kv)) properties
     | openExpr _ provider inputs _ => accessorsValid provider && accessorsValid inputs
     | joinExpr _ delimiter values => accessorsValid delimiter && accessorsValid values
     | toJSONExpr _ v | toStringExpr _ v | secretExpr _ v | toBase64Expr _ v =>
         accessorsValid v
     end.

(** The innermost access expression of a chain of accesses; any other
    expression is its own head. *)
Fixpoint chainHead (x : expr) : expr :=
  match repr x with
  | accessExpr _ receiver _ =>
      match repr (def receiver) with
      | accessExpr _ _ _ => chainHead (def receiver)
      | _ => x
      end
  | _ => x
  end.

(** The payload fields of an exported expression, and those that are set. *)
Inductive Payload : Type :=
| PLiteral | PInterpolate | PSymbol | PAccess | PList | PObject | PBuiltin.

Definition payloads (ex : environments.Expr) : list Payload :=
  match environments.Literal ex with a_nil => [] | _ => [PLiteral] end
  ++ match environments.Interpolate ex with Some _ => [PInterpolate] | None => [] end
  ++ match environments.Symbol ex with Some _ => [PSymbol] | None => [] end
  ++ match environments.Access ex with Some _ => [PAccess] | None => [] end
  ++ match environments.List_ ex with Some _ => [PList] | None => [] end
  ++ match environments.Object ex with Some _ => [PObject] | None => [] end
  ++ match environments.Builtin ex with Some _ => [PBuiltin] | None => [] end.

(** The payload of each kind of expression; a literal that is neither a
    boolean, a number nor a string has none. *)
Definition payloadOf (r : exprRepr) : list Payload :=
  match r with
  | literalExpr node =>
      match ast.kind node with
      | ast.BooleanExpr _ | ast.NumberExpr _ | ast.StringExpr _ => [PLiteral]
      | _ => []
      end
  | interpolateExpr _ _ => [PInterpolate]
  | symbolExpr _ _ => [PSymbol]
  | accessExpr _ _ _ => [PAccess]
  | listExpr _ _ => [PList]
  | objectExpr _ _ => [PObject]
  | openExpr _ _ _ _ | toJSONExpr _ _ | toStringExpr _ _ | joinExpr _ _ _
  | secretExpr _ _ | toBase64Expr _ _ => [PBuiltin]
  end.

(** The accessors an exported expression holds, and what a well-formed one
    is: a key or an index, not both. *)
Definition accessorsOf (ex : environments.Expr) : list environments.Accessor :=
  match environments.Access ex with
  | Some a => environments.Accessors a
  | None => []
  end
  ++ match environments.Symbol ex with
     | Some l => map environments.Accessor_ l
     | None => []
     end
  ++ match environments.Interpolate ex with
     | Some l => flat_map (fun i => match environments.Value_ i with
                                    | Some v => map environments.Accessor_ v
                                    | None => []
                                    end) l
     | None => []
     end.

Definition keyOrIndex (a : environments.Accessor) : Prop :=
  match environments.Index a, environments.Key a with
  | Some _, None | None, Some _ => True
  | _, _ => False
  end.

Definition isSome {A} (o : option A) : bool :=
  match o with Some _ => true | None => false end.

(** *** Types, nested schemas and divisors

    [typeName r]: the type that [validateType] checks a representation
    against.  [nested c s]: [c] is [s] or a schema nested in it.
    [divisor m]: [m] is finite and not zero, so that no quotient by [m] is
    undefined.  [sticks ok b m]: [m] does not set a flag [ok] that was
    cleared. *)
Definition typeName (r : valueRepr) : string :=
  match r with
  | r_nil => "null"
  | r_bool _ => "boolean"
  | r_Number _ => "number"
  | r_string _ => "string"
  | r_slice _ => "array"
  | r_map _ => "object"
  end.

Inductive nested : Schema -> Schema -> Prop :=
| nested_refl s : nested s s
| nested_prefixItem d s c : In (Some c) (PrefixItems s) -> nested d c -> nested d s
| nested_items d s c : Items s = Some c -> nested d c -> nested d s
| nested_property d s k c : In (k, Some c) (Properties s) -> nested d c -> nested d s
| nested_additional d s c : AdditionalProperties s = Some c -> nested d c -> nested d s.

Definition divisor (m : big.Float) : Prop :=
  match big.val m with
  | big.finite mant _ => mant <> 0
  | big.inf _ => False
  end.

Definition isZero (n : big.Float) : Prop :=
  match big.val n with
  | big.finite mant _ => mant = 0
  | big.inf _ => False
  end.

Definition isInf (n : big.Float) : Prop :=
  match big.val n with
  | big.finite _ _ => False
  | big.inf _ => True
  end.

(** Every [multipleOf] of [accept] and of the schemas nested in it is a
    divisor. *)
Definition divisors (accept : option Schema) : Prop :=
  match accept with
  | Some a => forall c m, nested c a -> GetMultipleOf c = Some m -> divisor m
  | None => True
  end.

Definition sticks {T} (ok : T -> bool) (b : bool) (m : M T) : Prop :=
  match m with
  | Some (t, d) => b = false -> ok t = false
  | None => True
  end.

(** *** The part of a schema that schema-versus-schema validation reads

    [skeleton s] keeps the [never] and [always] flags, the type, the items,
    the properties and the required keys of [s] and of the schemas nested in
    it, and drops every constraint on values: constant, enumeration, numeric
    bounds, lengths, pattern and counts. *)
Fixpoint skeleton (s : Schema) : Schema :=
  mkSchema (Never s) (Always s) (Type_ s) a_nil [] "" "" "" "" "" None None ""
           (map (option_map skeleton) (PrefixItems s))
           (option_map skeleton (Items s))
           None None
           (map (fun kv => (fst kv, option_map skeleton (snd kv))) (Properties s))
           (option_map skeleton (AdditionalProperties s))
           None None (Required s) (DependentRequired s).

(** * Properties *)

(** ** Induction over schemas *)
Section SchemaInduction.
Variable P : Schema -> Prop.

Hypothesis step : forall s,
    Forall (onSome P) (PrefixItems s) ->
    onSome P (Items s) ->
    Forall (fun kv => onSome P (snd kv)) (Properties s) ->
    onSome P (AdditionalProperties s) ->
    P s.

Lemma Schema_induction : forall s, P s.
Proof.
  fix IH 1. intros s. apply step.
  - destruct s as [? ? ? ? ? ? ? ? ? ? ? ? ? pis ? ? ? ? ? ? ? ? ?]. simpl.
    induction pis as [|o pis IHl]; constructor; [|exact IHl].
    destruct o as [s'|]; [apply IH | exact I].
  - destruct s as [? ? ? ? ? ? ? ? ? ? ? ? ? ? it ? ? ? ? ? ? ? ?]. simpl.
    destruct it as [s'|]; [apply IH | exact I].
  - destruct s as [? ? ? ? ? ? ? ? ? ? ? ? ? ? ? ? ? props ? ? ? ? ?]. simpl.
    induction props as [|[k o] props IHl]; constructor; [|exact IHl].
    destruct o as [s'|]; [apply IH | exact I].
  - destruct s as [? ? ? ? ? ? ? ? ? ? ? ? ? ? ? ? ? ? ap ? ? ? ?]. simpl.
    destruct ap as [s'|]; [apply IH | exact I].
Qed.
End SchemaInduction.

(** ** Computations *)

Lemma bind_ret {A B} (a : A) (f : A -> M B) : bind (ret a) f = f a.
Proof. unfold bind, ret. destruct (f a) as [[b d]|]; reflexivity. Qed.

Lemma bind_Some {A B} (m : M A) (f : A -> M B) a d1 b d2 :
  m = Some (a, d1) -> f a = Some (b, d2) -> bind m f = Some (b, d1 ++ d2).
Proof. intros -> H. unfold bind. rewrite H. reflexivity. Qed.

Lemma bind_inv {A B} (m : M A) (f : A -> M B) b d :
  bind m f = Some (b, d) ->
  exists a d1 d2, m = Some (a, d1) /\ f a = Some (b, d2) /\ d = d1 ++ d2.
Proof.
  unfold bind. destruct m as [[a d1]|]; [|discriminate].
  destruct (f a) as [[b' d2]|] eqn:E; [|discriminate].
  intros H. inversion H; subst. eauto 7.
Qed.

Lemma returns_ret {A} (a : A) : returns (ret a).
Proof. unfold returns, ret. eauto. Qed.

Lemma returns_bind {A B} (m : M A) (f : A -> M B) :
  returns m -> (forall a, returns (f a)) -> returns (bind m f).
Proof.
  intros (a & d & ->) H. destruct (H a) as (b & d' & E).
  unfold returns. erewrite bind_Some; eauto.
Qed.

Lemma returns_validationErrorf loc format args :
  returns (validationErrorf loc format args).
Proof. unfold returns, validationErrorf, errorf. simpl. eauto. Qed.

Lemma returns_clause violated loc format args ok :
  returns (clause violated loc format args ok).
Proof.
  unfold clause. destruct violated; [|apply returns_ret].
  apply returns_bind; [apply returns_validationErrorf | intros; apply returns_ret].
Qed.

Lemma returns_forRange {A S} (body : A -> S -> M S) l :
  Forall (fun a => forall s, returns (body a s)) l ->
  forall s, returns (forRange body l s).
Proof.
  induction 1 as [|a l Ha _ IH]; intros s; simpl.
  - apply returns_ret.
  - apply returns_bind; [apply Ha | intros; apply IH].
Qed.

Lemma forRange_ret {A S} (body : A -> S -> M S) (g : A -> S -> S) l :
  Forall (fun a => forall s, body a s = ret (g a s)) l ->
  forall s, forRange body l s = ret (fold_left (fun s a => g a s) l s).
Proof.
  induction 1 as [|a l Ha _ IH]; intros s; simpl; [reflexivity|].
  rewrite Ha, bind_ret. apply IH.
Qed.

Create HintDb returns.
#[local] Hint Resolve returns_ret returns_validationErrorf returns_clause : returns.

(** ** Schema-versus-schema validation always returns *)
Section SchemaValidation.
Variable joinKey : string -> string -> string.

Lemma validateSchemaArray_eq x accept loc :
  validateSchemaArray joinKey x accept loc =
  (allOk <- validatePrefixItems (validateSchemaType joinKey) (Items x) (Items accept)
                                loc (PrefixItems x) (PrefixItems accept) O true ;;
   match Items x with
   | Some xitems =>
       if negb (Never xitems) then
         ok <- validateSchemaType joinKey (Items x) (Items accept) loc ;;
         ret (allOk && ok)
       else ret allOk
   | None => ret allOk
   end).
Proof. destruct x; reflexivity. Qed.

Lemma validateSchemaObject_eq x accept loc :
  validateSchemaObject joinKey x accept loc =
  (allOk <-
     forRange (fun '(name, px) allOk =>
                 match lookup (Properties accept) name with
                 | Some pa =>
                     ok <- validateSchemaType joinKey px pa (property joinKey loc name) ;;
                     ret (allOk && ok)
                 | None =>
                     ok <- validateSchemaType joinKey px (AdditionalProperties accept)
                                              (property joinKey loc name) ;;
                     ret (allOk && ok)
                 end)
              (Properties x) true ;;
   match AdditionalProperties x with
   | None =>
       let xreq name := existsb (String.eqb name) (Required x) in
       ok <- checkRequired joinKey xreq loc (Required accept) ;;
       let allOk := allOk && ok in
       forRange (fun '(name, req) allOk =>
                   if xreq name then
                     ok <- checkRequired joinKey xreq loc req ;;
                     ret (allOk && ok)
                   else ret allOk)
                (DependentRequired accept) allOk
   | Some xadditional =>
       if negb (Never xadditional) then
         ok <- validateSchemaType joinKey (AdditionalProperties x)
                                  (AdditionalProperties accept) loc ;;
         ret (allOk && ok)
       else ret allOk
   end).
Proof. destruct x; reflexivity. Qed.

Lemma returns_checkType actual accept loc : returns (checkType actual accept loc).
Proof.
  unfold checkType, typeError.
  destruct (negb _); auto with returns.
Qed.

Lemma returns_checkRequired xreq loc ra :
  returns (checkRequired joinKey xreq loc ra).
Proof.
  unfold checkRequired. apply returns_forRange.
  apply Forall_forall. intros name _ ok.
  destruct (negb (xreq name)); auto with returns.
  apply returns_bind; auto with returns.
Qed.

Lemma returns_validateSchemaType_on x :
  onSome (checks joinKey) x ->
  forall accept loc, returns (validateSchemaType joinKey x accept loc).
Proof.
  intros Hx accept loc. unfold validateSchemaType, validateSchemaType_.
  destruct accept as [a|]; auto with returns.
  destruct (Always a); auto with returns.
  destruct (Never a); auto with returns.
  destruct x as [x|]; auto with returns.
  destruct (Always x); auto with returns.
  apply returns_bind; [apply returns_checkType|].
  intros ok. destruct (negb ok); auto with returns.
  destruct (Hx a loc) as [HA HO].
  destruct (String.eqb (Type_ x) "array"); [exact HA|].
  destruct (String.eqb (Type_ x) "object"); [exact HO|].
  auto with returns.
Qed.

Lemma validatePrefixItems_nil vst xItems acceptItems loc aprefix i allOk :
  validatePrefixItems vst xItems acceptItems loc [] aprefix i allOk =
  (r <- forRange (fun ap '(i, allOk) =>
                    ok <- vst xItems ap (index loc i) ;;
                    ret (S i, allOk && ok))
                 aprefix (i, allOk) ;;
   ret (snd r)).
Proof. destruct aprefix; reflexivity. Qed.

Lemma returns_validatePrefixItems xItems acceptItems loc xprefix :
  Forall (onSome (checks joinKey)) xprefix ->
  onSome (checks joinKey) xItems ->
  forall aprefix i allOk,
    returns (validatePrefixItems (validateSchemaType joinKey) xItems acceptItems
                                 loc xprefix aprefix i allOk).
Proof.
  intros Hp Hi. induction Hp as [|xp xprefix Hxp _ IH]; intros aprefix i allOk.
  - rewrite validatePrefixItems_nil.
    apply returns_bind; [|intros; auto with returns].
    apply returns_forRange. apply Forall_forall. intros a _ [j b].
    apply returns_bind; [|intros; auto with returns].
    apply returns_validateSchemaType_on; assumption.
  - destruct aprefix as [|ap aprefix]; simpl.
    + apply returns_bind; [|intros; apply IH].
      apply returns_validateSchemaType_on; assumption.
    + apply returns_bind; [|intros; apply IH].
      apply returns_validateSchemaType_on; assumption.
Qed.

Lemma checks_all : forall x, checks joinKey x.
Proof.
  apply Schema_induction. intros x Hpre Hit Hprops Hap accept loc. split.
  - rewrite validateSchemaArray_eq.
    apply returns_bind; [apply returns_validatePrefixItems; assumption|].
    intros allOk. destruct (Items x) as [xi|] eqn:E; auto with returns.
    destruct (negb (Never xi)); auto with returns.
    apply returns_bind; [|intros; auto with returns].
    apply returns_validateSchemaType_on. exact Hit.
  - rewrite validateSchemaObject_eq.
    apply returns_bind.
    + apply returns_forRange. rewrite Forall_forall in *.
      intros [name px] Hin allOk. specialize (Hprops _ Hin). simpl in Hprops.
      destruct (lookup (Properties accept) name);
        (apply returns_bind; [|intros; auto with returns]);
        apply returns_validateSchemaType_on; assumption.
    + intros allOk. destruct (AdditionalProperties x) as [xa|] eqn:E.
      * destruct (negb (Never xa)); auto with returns.
        apply returns_bind; [|intros; auto with returns].
        apply returns_validateSchemaType_on. exact Hap.
      * cbv zeta. apply returns_bind; [apply returns_checkRequired|].
        intros ok. apply returns_forRange. apply Forall_forall.
        intros [name req] _ b.
        destruct (existsb _ _); auto with returns.
        apply returns_bind; [apply returns_checkRequired|].
        intros; auto with returns.
Qed.

Lemma returns_validateSchemaType x accept loc :
  returns (validateSchemaType joinKey x accept loc).
Proof.
  apply returns_validateSchemaType_on. destruct x; simpl; [apply checks_all | exact I].
Qed.

Lemma validationErrorf_eq loc format args :
  validationErrorf loc format args = Some (false, [errorAt loc format args]).
Proof. reflexivity. Qed.

Lemma existsb_eqb_In name l : existsb (String.eqb name) l = true <-> In name l.
Proof.
  rewrite existsb_exists. split.
  - intros (y & Hin & E). apply String.eqb_eq in E. subst. exact Hin.
  - intros Hin. exists name. split; [exact Hin | apply String.eqb_refl].
Qed.

Lemma checkRequired_loop xreq loc ra :
  forall ok,
    forRange (fun name ok =>
                if negb (xreq name)
                then validationErrorf (property joinKey loc name)
                                      "missing required property" [] ;;;
                     ret false
                else ret ok)
             ra ok
    = Some (ok && forallb xreq ra, missingRequired joinKey xreq loc ra).
Proof.
  unfold missingRequired.
  induction ra as [|name ra IH]; intros ok; cbn [forRange forallb filter map].
  - rewrite andb_true_r. reflexivity.
  - destruct (xreq name); cbn [negb map].
    + rewrite bind_ret. apply IH.
    + rewrite validationErrorf_eq.
      erewrite bind_Some; [|reflexivity|apply IH].
      rewrite andb_false_r. reflexivity.
Qed.

Lemma checkRequired_eq xreq loc ra :
  checkRequired joinKey xreq loc ra
  = Some (forallb xreq ra, missingRequired joinKey xreq loc ra).
Proof. unfold checkRequired. rewrite checkRequired_loop. reflexivity. Qed.

Lemma dependentRequired_eq xreq loc deps :
  forall allOk,
    forRange (fun '(name, req) allOk =>
                if xreq name : bool then
                  ok <- checkRequired joinKey xreq loc req ;;
                  ret (allOk && ok)
                else ret allOk)
             deps allOk
    = Some (allOk && forallb (fun '(name, req) =>
                                if xreq name then forallb xreq req else true) deps,
            flat_map (fun '(name, req) =>
                        if xreq name then missingRequired joinKey xreq loc req else [])
                     deps).
Proof.
  induction deps as [|[name req] deps IH]; intros allOk;
    cbn [forRange forallb flat_map].
  - rewrite andb_true_r. reflexivity.
  - destruct (xreq name).
    + rewrite checkRequired_eq.
      erewrite bind_Some; [|reflexivity|apply IH].
      rewrite app_nil_r, andb_assoc. reflexivity.
    + rewrite bind_ret, IH. reflexivity.
Qed.

Lemma surplusAccept_eq (vst : option Schema -> option Schema -> validationLoc -> M bool)
      xItems loc aprefix :
  (forall x a l, returns (vst x a l)) ->
  forall i allOk,
    forRange (fun ap '(i, allOk) =>
                ok <- vst xItems ap (index loc i) ;;
                ret (S i, allOk && ok))
             aprefix (i, allOk)
    = let cs := imap (fun i ap => vst xItems ap (index loc i)) i aprefix in
      Some ((i + List.length aprefix, allOk && forallb passed cs)%nat, flat_map diags cs).
Proof.
  intros Hv. induction aprefix as [|ap aprefix IH]; intros i allOk;
    cbn [forRange imap forallb flat_map List.length].
  - rewrite andb_true_r, Nat.add_0_r. reflexivity.
  - destruct (Hv xItems ap (index loc i)) as (b & d & E). rewrite E.
    erewrite bind_Some; [|reflexivity|apply IH]. cbn zeta. simpl passed. simpl diags.
    rewrite app_nil_r, andb_assoc, Nat.add_succ_r. reflexivity.
Qed.

Lemma validatePrefixItems_eq (vst : option Schema -> option Schema -> validationLoc -> M bool)
      xItems acceptItems loc :
  (forall x a l, returns (vst x a l)) ->
  forall xprefix aprefix i allOk,
    validatePrefixItems vst xItems acceptItems loc xprefix aprefix i allOk
    = let n := Nat.min (List.length xprefix) (List.length aprefix) in
      let cs :=
        imap (fun i '(xp, ap) => vst xp ap (index loc i)) i (combine xprefix aprefix)
        ++ imap (fun i xp => vst xp acceptItems (index loc i)) (i + n) (skipn n xprefix)
        ++ imap (fun i ap => vst xItems ap (index loc i)) (i + n) (skipn n aprefix) in
      Some (allOk && forallb passed cs, flat_map diags cs).
Proof.
  intros Hv. induction xprefix as [|xp xprefix IH]; intros aprefix i allOk.
  - rewrite validatePrefixItems_nil, surplusAccept_eq by exact Hv.
    cbn. rewrite Nat.add_0_r, app_nil_r. reflexivity.
  - destruct aprefix as [|ap aprefix]; cbn [validatePrefixItems].
    + destruct (Hv xp acceptItems (index loc i)) as (b & d & E).
      erewrite bind_Some; [|exact E|apply IH].
      cbv zeta. cbn [List.length Nat.min].
      rewrite !Nat.min_0_r, !combine_nil, !Nat.add_0_r.
      cbn [skipn imap app forallb flat_map]. rewrite E. cbn [passed diags].
      rewrite andb_assoc. reflexivity.
    + destruct (Hv xp ap (index loc i)) as (b & d & E).
      erewrite bind_Some; [|exact E|apply IH].
      cbv zeta. cbn [List.length Nat.min combine skipn imap app forallb flat_map].
      rewrite E, Nat.add_succ_r, andb_assoc. reflexivity.
Qed.

(** C5, as amended.  For array schemas [x] and [accept], schema-versus-schema
    validation performs the checks of [arrayChecks]: the common [prefixItems]
    pairwise, the surplus of either side against the other side's [items],
    and, unless the input's [items] is [never], the input's [items] against
    the target's; its result is the conjunction of the results of these
    checks and its diagnostics are theirs, in that order.  (Left out: an
    input without [items] facing a target whose [items] is [never].) *)
Theorem validateSchemaArray_checks x accept loc :
  (Items x = None -> isAny (Items accept) || negb (isNever (Items accept)) = true) ->
  let cs := arrayChecks (validateSchemaType joinKey) x accept loc in
  validateSchemaArray joinKey x accept loc
  = Some (forallb passed cs, flat_map diags cs).
Proof.
  intros Hnil. unfold arrayChecks. cbv zeta.
  rewrite validateSchemaArray_eq.
  rewrite validatePrefixItems_eq by apply returns_validateSchemaType.
  cbv zeta. cbn [Nat.add andb].
  set (n := Nat.min _ _).
  set (c1 := imap _ O (combine _ _)).
  set (c2 := imap _ n (skipn n (PrefixItems x))).
  set (c3 := imap _ n (skipn n (PrefixItems accept))).
  rewrite !app_assoc. set (cs := ((c1 ++ c2) ++ c3)).
  rewrite forallb_app, flat_map_app.
  destruct (Items x) as [xi|] eqn:Ex; cbn [isNever].
  - destruct (Never xi); cbn [negb].
    + cbn. rewrite andb_true_r, app_nil_r. reflexivity.
    + destruct (returns_validateSchemaType (Some xi) (Items accept) loc)
        as (b & d & E).
      rewrite E. cbn. rewrite andb_true_r, !app_nil_r. reflexivity.
  - specialize (Hnil eq_refl).
    assert (E : validateSchemaType joinKey None (Items accept) loc = ret true).
    { destruct (Items accept) as [a|]; [|reflexivity].
      unfold validateSchemaType, validateSchemaType_. cbn in Hnil |- *.
      destruct (Always a); [reflexivity|]. destruct (Never a); [discriminate|reflexivity]. }
    rewrite E. cbn. rewrite andb_true_r, !app_nil_r. reflexivity.
Qed.

(** C2, as amended.  When the input schema has no [additionalProperties]
    (the field is nil), schema-versus-schema validation of object schemas
    succeeds only if every key the target requires is required by the input
    and, for every [dependentRequired] entry of the target whose key is
    required by the input, so are its dependent keys; each missing key is
    reported by a "missing required property" error at that property. *)
Theorem validateSchemaObject_required x accept loc :
  AdditionalProperties x = None ->
  let missing name :=
    errorAt (property joinKey loc name) "missing required property" [] in
  exists ok d,
    validateSchemaObject joinKey x accept loc = Some (ok, d)
    /\ (ok = true ->
        incl (Required accept) (Required x)
        /\ forall name req,
            In (name, req) (DependentRequired accept) ->
            In name (Required x) -> incl req (Required x))
    /\ (forall name,
           In name (Required accept) -> ~ In name (Required x) ->
           In (missing name) d)
    /\ (forall name req rk,
           In (name, req) (DependentRequired accept) -> In name (Required x) ->
           In rk req -> ~ In rk (Required x) ->
           In (missing rk) d).
Proof.
  intros Hap missing.
  destruct (proj2 (checks_all x accept loc)) as (ok & d & E).
  exists ok, d. split; [exact E|].
  rewrite validateSchemaObject_eq, Hap in E.
  apply bind_inv in E. destruct E as (ok0 & d0 & d1 & _ & E & ->).
  cbv zeta in E. rewrite checkRequired_eq in E.
  apply bind_inv in E. destruct E as (ok1 & d2 & d3 & E1 & E & ->).
  inversion E1; subst ok1 d2; clear E1.
  rewrite dependentRequired_eq in E. inversion E; subst ok d3; clear E.
  set (xreq := fun name => existsb (String.eqb name) (Required x)) in *.
  assert (Hx : forall name, xreq name = true <-> In name (Required x))
    by (intros; apply existsb_eqb_In).
  assert (Hmiss : forall ra name, In name ra -> ~ In name (Required x) ->
                                  In (missing name) (missingRequired joinKey xreq loc ra)).
  { intros ra name Hin Hn. unfold missingRequired. apply in_map_iff.
    exists name. split; [reflexivity|]. apply filter_In. split; [exact Hin|].
    destruct (xreq name) eqn:F; [|reflexivity]. apply Hx in F. contradiction. }
  repeat split.
  - intros name Hin. apply andb_prop in H. destruct H as [H _].
    apply andb_prop in H. destruct H as [_ H].
    rewrite forallb_forall in H. apply Hx, H, Hin.
  - intros name req Hin Hreq rk Hrk. apply andb_prop in H. destruct H as [_ H].
    rewrite forallb_forall in H. specialize (H _ Hin). cbv beta iota in H.
    apply Hx in Hreq. unfold xreq in H, Hreq. rewrite Hreq in H. rewrite forallb_forall in H.
    apply Hx, H, Hrk.
  - intros name Hin Hn. apply in_or_app. right. apply in_or_app. left.
    apply Hmiss; assumption.
  - intros name req rk Hin Hreq Hrk Hn. apply in_or_app. right. apply in_or_app. right.
    apply in_flat_map. exists (name, req). split; [exact Hin|].
    apply Hx in Hreq. unfold xreq in Hreq. cbv beta iota. rewrite Hreq.
    apply Hmiss; assumption.
Qed.

End SchemaValidation.

(** C2, as stated, fails: an input schema whose [additionalProperties] is
    [never] and that requires no key is validated by a target that requires
    the key [a]. *)
Lemma validateSchemaObject_never_skips_required :
  AdditionalProperties Sample.closedObject = Some Sample.neverSchema
  /\ Never Sample.neverSchema = true
  /\ In "a" (Required Sample.requiresA)
  /\ ~ In "a" (Required Sample.closedObject)
  /\ validateSchemaObject Sample.joinKey Sample.closedObject Sample.requiresA
                          (Sample.loc Sample.xs) = Some (true, []).
Proof.
  repeat split; try reflexivity.
  - simpl. auto.
  - simpl. auto.
Qed.

(** An input without [additionalProperties] that requires nothing is refused
    by a target that requires [a], with one error below the blamed
    expression. *)
Lemma validateSchemaObject_required_witness :
  exists ok d,
    validateSchemaObject Sample.joinKey (Sample.objectSchema [] None [] [])
                         Sample.requiresA (Sample.loc Sample.xs) = Some (ok, d)
    /\ In (errorAt (property Sample.joinKey (Sample.loc Sample.xs) "a")
                   "missing required property" []) d.
Proof.
  destruct (validateSchemaObject_required Sample.joinKey
              (Sample.objectSchema [] None [] []) Sample.requiresA
              (Sample.loc Sample.xs) eq_refl) as (ok & d & E & _ & H & _).
  exists ok, d. split; [exact E|].
  apply H; simpl; [auto | intros []].
Defined.

(** ** Deep equality *)

Lemma lookup_In {V} (m : list (string * V)) k v : lookup m k = Some v -> In (k, v) m.
Proof.
  induction m as [|[k' v'] m IH]; simpl; [discriminate|].
  destruct (String.eqb k' k) eqn:E.
  - apply String.eqb_eq in E. intros H. inversion H; subst. auto.
  - auto.
Qed.

Lemma lookup_keys {V} (m : list (string * V)) k :
  In k (map fst m) <-> exists v, lookup m k = Some v.
Proof.
  induction m as [|[k' v'] m IH]; simpl.
  - split; [intros [] | intros [v H]; discriminate].
  - destruct (String.eqb k' k) eqn:E.
    + apply String.eqb_eq in E. split; eauto.
    + apply String.eqb_neq in E. rewrite <- IH. split; [intros [H|H]|]; tauto.
Qed.

Lemma In_lookup {V} (m : list (string * V)) k v :
  uniqueKeys m -> In (k, v) m -> lookup m k = Some v.
Proof.
  unfold uniqueKeys. induction m as [|[k' v'] m IH]; simpl; [intros _ []|].
  intros Hnd [H|H].
  - inversion H; subst. rewrite String.eqb_refl. reflexivity.
  - inversion Hnd as [|? ? Hnotin Hnd']; subst.
    destruct (String.eqb k' k) eqn:E; [|auto].
    apply String.eqb_eq in E. subst. exfalso. apply Hnotin.
    apply in_map_iff. exists (k, v). auto.
Qed.

Lemma wfAny_slice l : wfAny (a_slice l) <-> Forall wfAny l.
Proof.
  simpl. induction l as [|c l IH]; [split; auto|].
  rewrite IH. split; [intros [? ?]; constructor; auto | intros H; inversion H; auto].
Qed.

Lemma wfAny_map m :
  wfAny (a_map m) <-> uniqueKeys m /\ Forall (fun kc => wfAny (snd kc)) m.
Proof.
  simpl. apply and_iff_compat_l. induction m as [|kc m IH]; [split; auto|].
  rewrite IH. split; [intros [? ?]; constructor; auto | intros H; inversion H; auto].
Qed.

Lemma wfValue_slice v a :
  vrepr v = r_slice a -> wfValue v -> Forall wfValue a.
Proof.
  destruct v as [d sc sec u r]. simpl. intros ->.
  induction a as [|w a IH]; [auto|]. intros [? ?]. constructor; auto.
Qed.

Lemma wfValue_map v m :
  vrepr v = r_map m -> wfValue v ->
  uniqueKeys m /\ Forall (fun kv => wfValue (snd kv)) m.
Proof.
  destruct v as [d sc sec u r]. simpl. intros ->. intros [Hu H]. split; [exact Hu|].
  clear Hu. induction m as [|kv m IH]; [auto|]. destruct H. constructor; auto.
Qed.

Section AnyInduction.
Variable P : any -> Prop.
Hypothesis Hnil : P a_nil.
Hypothesis Hbool : forall b, P (a_bool b).
Hypothesis HNumber : forall n, P (a_Number n).
Hypothesis Hstring : forall s, P (a_string s).
Hypothesis Hslice : forall l, Forall P l -> P (a_slice l).
Hypothesis Hmap : forall m, Forall (fun kc => P (snd kc)) m -> P (a_map m).
Hypothesis Hother : forall dyn, P (a_other dyn).

Lemma any_induction : forall c, P c.
Proof.
  fix IH 1.
  intros [| b | n | s | l | m | dyn];
    [apply Hnil | apply Hbool | apply HNumber | apply Hstring | | | apply Hother].
  - apply Hslice. induction l as [|c l IHl]; constructor; [apply IH | exact IHl].
  - apply Hmap. induction m as [|[k c] m IHm]; constructor; [apply IH | exact IHm].
Qed.
End AnyInduction.

Lemma equalsSlice_iff (eq : value -> any -> bool) a :
  forall c pre rest,
    a = pre ++ rest -> List.length rest = List.length c ->
    (equalsSlice eq a (List.length pre) c = true
     <-> Forall2 (fun ai ci => eq ai ci = true) rest c).
Proof.
  induction c as [|ci c IH]; intros pre rest Ha Hlen; simpl.
  - destruct rest; [|discriminate]. split; auto.
  - destruct rest as [|ai rest]; [discriminate|]. subst a.
    rewrite nth_error_app2, Nat.sub_diag by auto. simpl.
    specialize (IH (pre ++ [ai]) rest).
    rewrite <- app_assoc, length_app, Nat.add_1_r in IH. simpl in IH.
    specialize (IH eq_refl ltac:(simpl in Hlen; congruence)).
    destruct (eq ai ci) eqn:E; simpl.
    + rewrite IH. split; [intros; constructor; auto | intros H; inversion H; auto].
    + split; [discriminate | intros H; inversion H; congruence].
Qed.

Lemma equalsMap_iff (eq : value -> any -> bool) m c :
  equalsMap eq m c = true
  <-> Forall (fun kc => exists vk, lookup m (fst kc) = Some vk
                                   /\ eq vk (snd kc) = true) c.
Proof.
  induction c as [|[k ck] c IH]; simpl; [split; auto|].
  destruct (lookup m k) as [vk|] eqn:L.
  - destruct (eq vk ck) eqn:E; simpl.
    + rewrite IH. split; [intros; constructor; eauto | intros H; inversion H; auto].
    + split; [discriminate|]. intros H. inversion H as [|? ? (vk' & L' & E') _]; subst.
      simpl in *. congruence.
  - split; [discriminate|]. intros H. inversion H as [|? ? (vk' & L' & E') _]; subst.
    simpl in *. congruence.
Qed.

Lemma equalsConst_iff : forall c v,
  wfValue v -> wfAny c -> (equalsConst v c = true <-> deepEqual v c).
Proof.
  induction c as [| b | n | s | l IH | m IH | dyn] using any_induction;
    intros v Hv Hc; simpl.
  - destruct (vrepr v) eqn:E; split; intros H; try discriminate;
      try (inversion H; congruence). constructor; auto.
  - destruct (vrepr v) as [| b' | | | |] eqn:E; split; intros H; try discriminate;
      try (inversion H; congruence).
    + apply Bool.eqb_prop in H. subst. constructor; auto.
    + inversion H as [| ? ? E' | | | |]; subst. rewrite E in E'. inversion E'.
      apply Bool.eqb_reflx.
  - destruct (vrepr v) as [| | n' | | |] eqn:E; split; intros H; try discriminate;
      try (inversion H; congruence).
    + apply String.eqb_eq in H. subst. constructor; auto.
    + inversion H as [| | ? ? E' | | |]; subst. rewrite E in E'. inversion E'.
      apply String.eqb_refl.
  - destruct (vrepr v) as [| | | s' | |] eqn:E; split; intros H; try discriminate;
      try (inversion H; congruence).
    + apply String.eqb_eq in H. subst. constructor; auto.
    + inversion H as [| | | ? ? E' | |]; subst. rewrite E in E'. inversion E'.
      apply String.eqb_refl.
  - apply wfAny_slice in Hc.
    destruct (vrepr v) as [| | | | a |] eqn:E;
      try (split; intros H; [discriminate | inversion H; congruence]).
    pose proof (wfValue_slice v a E Hv) as Ha.
    assert (Hall : forall a, Forall wfValue a ->
              (Forall2 (fun ai ci => equalsConst ai ci = true) a l
               <-> Forall2 deepEqual a l)).
    { clear E Ha. induction IH as [|c l Hc1 _ IHl]; intros a0 Ha0.
      - split; intros H; inversion H; constructor.
      - inversion Hc as [|? ? Hc2 Hc3]; subst.
        split; intros H; inversion H as [|ai ? a1 ? H1 H2]; subst;
          inversion Ha0; subst; constructor;
          try (apply Hc1; assumption); apply (IHl Hc3 a1); assumption. }
    destruct (Nat.eqb (List.length a) (List.length l)) eqn:L; simpl.
    + apply Nat.eqb_eq in L.
      rewrite (equalsSlice_iff equalsConst a l [] a eq_refl L), (Hall a Ha).
      split; [intros H; econstructor; eauto|].
      intros H. inversion H as [| | | | ? ? ? E' F |]; subst.
      rewrite E in E'. inversion E'; subst. exact F.
    + apply Nat.eqb_neq in L. split; [discriminate|].
      intros H. inversion H as [| | | | ? ? ? E' F |]; subst.
      rewrite E in E'. inversion E'; subst.
      apply Forall2_length in F. contradiction.
  - apply wfAny_map in Hc. destruct Hc as [Huc Hc].
    destruct (vrepr v) as [| | | | | vm] eqn:E;
      try (split; intros H; [discriminate | inversion H; congruence]).
    destruct (wfValue_map v vm E Hv) as [Hum Hvm].
    assert (Hentry : forall k ck vk,
              In (k, ck) m -> lookup vm k = Some vk ->
              (equalsConst vk ck = true <-> deepEqual vk ck)).
    { intros k ck vk Hin L. rewrite Forall_forall in IH, Hc, Hvm.
      apply (IH (k, ck) Hin).
      - apply (Hvm (k, vk)). apply lookup_In. exact L.
      - apply (Hc (k, ck) Hin). }
    destruct (Nat.eqb (List.length vm) (List.length m)) eqn:L; simpl.
    + apply Nat.eqb_eq in L. rewrite equalsMap_iff, Forall_forall. split.
      * intros H. apply deepEqual_map with (m := vm); [exact E | |].
        -- assert (I1 : incl (map fst m) (map fst vm)).
           { intros k Hk. apply in_map_iff in Hk. destruct Hk as ([k' ck] & <- & Hin).
             destruct (H _ Hin) as (vk & Lk & _). simpl in *.
             apply lookup_keys. eauto. }
           intros k. split; [|apply I1].
           apply (NoDup_length_incl Huc); [|exact I1].
           rewrite !length_map. rewrite L. apply Nat.le_refl.
        -- intros k ck Lc. apply lookup_In in Lc.
           destruct (H _ Lc) as (vk & Lk & Ek). simpl in *.
           exists vk. split; [exact Lk|]. apply (Hentry k ck vk Lc Lk). exact Ek.
      * intros H [k ck] Hin. simpl.
        inversion H as [| | | | | ? ? ? E' Hkeys Hvals]; subst.
        rewrite E in E'. inversion E'; subst.
        destruct (Hvals k ck (In_lookup m k ck Huc Hin)) as (vk & Lk & D).
        exists vk. split; [exact Lk|]. apply (Hentry k ck vk Hin Lk). exact D.
    + apply Nat.eqb_neq in L. split; [discriminate|].
      intros H. exfalso. apply L.
      inversion H as [| | | | | ? ? ? E' Hkeys Hvals]; subst.
      rewrite E in E'. inversion E'; subst.
      rewrite <- (length_map fst m0), <- (length_map fst m).
      apply Nat.le_antisymm; apply NoDup_incl_length; try assumption;
        intros k Hk; apply Hkeys; exact Hk.
  - split; [discriminate | intros H; inversion H].
Qed.

(** ** Value-versus-schema validation *)
Section ValueValidation.
Variable joinKey : string -> string -> string.
Variable json_Marshal : any -> string + string.
Variable Regexp : Type.
Variable regexp_Compile : string -> option Regexp.
Variable MatchString : Regexp -> string -> bool.
Variable Regexp_String : Regexp -> string.

Local Abbreviation validateElement' :=
  (validateElement joinKey json_Marshal Regexp regexp_Compile MatchString Regexp_String).
Local Abbreviation validateValue' :=
  (validateValue joinKey json_Marshal Regexp regexp_Compile MatchString Regexp_String).
Local Abbreviation validateType' :=
  (validateType joinKey json_Marshal Regexp regexp_Compile MatchString Regexp_String).
Local Abbreviation validateArray' :=
  (validateArray joinKey json_Marshal Regexp regexp_Compile MatchString Regexp_String).
Local Abbreviation validateObject' :=
  (validateObject joinKey json_Marshal Regexp regexp_Compile MatchString Regexp_String).
Local Abbreviation validateString' :=
  (validateString Regexp regexp_Compile MatchString Regexp_String).
Local Abbreviation Compile' := (Compile Regexp regexp_Compile).

Lemma validateElement_eq v accept loc :
  validateElement' v accept loc =
  match Compile' accept with
  | Some err =>
      validationErrorf loc "internal error: invalid schema: %w" [ArgError err] ;;;
      ret false
  | None =>
      match accept with
      | None => ret true
      | Some accept' =>
          if Always accept' then ret true
          else if Never accept' then ret false
          else if unknown v then validateSchemaType joinKey (vschema v) accept loc
          else
            cok <- validateConst json_Marshal v accept' loc ;;
            eok <- validateEnum json_Marshal v accept' loc ;;
            tok <- validateType' v accept' loc ;;
            ret (cok && eok && tok)
      end
  end.
Proof. destruct v; reflexivity. Qed.

Lemma validateValue_eq v accept loc :
  validateValue' v accept loc = validateElement' v accept (mkLoc (def v) "" false).
Proof. reflexivity. Qed.

(** C6, as amended.  [validateElement] compiles the accepting schema first;
    for an accepting schema that compiles, an unknown value is validated
    through its declared schema only: the check passes when the accepting
    schema is [always] (or nil), fails when it is [never], and is otherwise
    the schema-versus-schema validation of the value's schema; the
    representation of the value plays no part. *)
Theorem validateElement_unknown v accept loc :
  unknown v = true ->
  Compile' accept = None ->
  validateElement' v accept loc =
    (if isAny accept then ret true
     else if isNever accept then ret false
     else validateSchemaType joinKey (vschema v) accept loc)
  /\ validateValue' v accept loc =
     (if isAny accept then ret true
      else if isNever accept then ret false
      else validateSchemaType joinKey (vschema v) accept (mkLoc (def v) "" false))
  /\ forall r, validateElement' (withRepr v r) accept loc = validateElement' v accept loc.
Proof.
  intros Hu Hc.
  assert (E : forall w l, unknown w = true -> vschema w = vschema v ->
              validateElement' w accept l =
              (if isAny accept then ret true
               else if isNever accept then ret false
               else validateSchemaType joinKey (vschema v) accept l)).
  { intros w l Hw Hs. rewrite validateElement_eq, Hc.
    destruct accept as [a|]; simpl; [|reflexivity].
    destruct (Always a); [reflexivity|].
    destruct (Never a); [reflexivity|].
    rewrite Hw, Hs. reflexivity. }
  split; [|split].
  - apply E; auto.
  - rewrite validateValue_eq. apply E; auto.
  - intros r. rewrite (E v loc Hu eq_refl).
    apply E; destruct v; simpl in *; auto.
Qed.

Lemma clause_eq violated loc format args ok :
  clause violated loc format args ok
  = Some (ok && negb violated, diagIf loc (violated, format, args)).
Proof.
  unfold clause, diagIf. destruct violated.
  - rewrite validationErrorf_eq, andb_false_r. reflexivity.
  - rewrite andb_true_r. reflexivity.
Qed.

Lemma bound_clause {A} (get : option A) violated loc format args ok :
  match get with
  | Some m => clause (violated m) loc format args ok
  | None => ret ok
  end
  = Some (ok && negb (bound get violated), diagIf loc (bound get violated, format, args)).
Proof.
  destruct get as [m|]; simpl bound; [apply clause_eq|].
  rewrite andb_true_r. reflexivity.
Qed.

Lemma multipleOf_clause n accept loc ok :
  (forall m, GetMultipleOf accept = Some m -> big.Quo n m <> None) ->
  match GetMultipleOf accept with
  | Some m =>
      match big.Quo n m with
      | Some q => clause (negb (big.IsInt q)) loc "expected a multiple of %v"
                         [ArgString (MultipleOf accept)] ok
      | None => panic
      end
  | None => ret ok
  end
  = let violated :=
      bound (GetMultipleOf accept)
            (fun m => match big.Quo n m with
                      | Some q => negb (big.IsInt q)
                      | None => false
                      end) in
    Some (ok && negb violated,
          diagIf loc (violated, "expected a multiple of %v",
                      [ArgString (MultipleOf accept)])).
Proof.
  intros Hq. destruct (GetMultipleOf accept) as [m|]; simpl bound.
  - specialize (Hq m eq_refl). destruct (big.Quo n m); [apply clause_eq | congruence].
  - cbv zeta. rewrite andb_true_r. reflexivity.
Qed.

Lemma validateNumber_clauses v accept loc n :
  big.ParseFloat v = Some n ->
  (forall m, GetMultipleOf accept = Some m -> big.Quo n m <> None) ->
  let cs := numberClauses n accept in
  validateNumber v accept loc = Some (forallb holds cs, flat_map (diagIf loc) cs).
Proof.
  intros Hn Hq. unfold validateNumber. rewrite Hn.
  rewrite multipleOf_clause by exact Hq. cbv zeta. cbn [bind].
  repeat (rewrite bound_clause; cbn [bind]).
  cbn [ret numberClauses forallb flat_map holds fst andb].
  rewrite ?app_nil_r, ?andb_true_r, <- ?app_assoc, <- ?andb_assoc. reflexivity.
Qed.

Lemma pattern_clause v accept loc ok :
  match GetPattern Regexp regexp_Compile accept with
  | Some p => clause (negb (MatchString p v)) loc "string must match the pattern %q"
                     [ArgString (Regexp_String p)] ok
  | None => ret ok
  end
  = let cs := match GetPattern Regexp regexp_Compile accept with
              | Some p => [(negb (MatchString p v),
                            "string must match the pattern %q",
                            [ArgString (Regexp_String p)])]
              | None => []
              end in
    Some (ok && forallb holds cs, flat_map (diagIf loc) cs).
Proof.
  destruct (GetPattern Regexp regexp_Compile accept) as [p|]; cbv zeta.
  - rewrite clause_eq. cbn [forallb flat_map holds fst].
    rewrite app_nil_r, andb_true_r. reflexivity.
  - cbn. rewrite andb_true_r. reflexivity.
Qed.

Lemma validateString_clauses v accept loc :
  let cs := stringClauses (GetPattern Regexp regexp_Compile) MatchString Regexp_String
                          v accept in
  validateString' v accept loc = Some (forallb holds cs, flat_map (diagIf loc) cs).
Proof.
  unfold validateString, stringClauses. cbv zeta.
  repeat (rewrite bound_clause; cbn [bind]).
  rewrite pattern_clause. cbv zeta. cbn [bind ret].
  cbn [app forallb flat_map holds fst andb].
  rewrite ?app_nil_r, ?andb_true_r, <- ?app_assoc, <- ?andb_assoc. reflexivity.
Qed.

Lemma elements_loop (vs : list value) accept loc :
  forall i ok,
    Forall returns
           (imap (fun i v => validateValue' v (itemSchema accept i) (index loc i)) i vs) ->
    forRange (fun v '(i, ok) =>
                let vloc := index loc i in
                match nth_error (PrefixItems accept) i with
                | Some p =>
                    vok <- validateValue' v p vloc ;;
                    ret (S i, if negb vok then false else ok)
                | None =>
                    vok <- validateValue' v (Items accept) vloc ;;
                    ret (S i, if negb vok then false else ok)
                end)
             vs (i, ok)
    = let elems :=
        imap (fun i v => validateValue' v (itemSchema accept i) (index loc i)) i vs in
      Some ((i + List.length vs, ok && forallb passed elems)%nat, flat_map diags elems).
Proof.
  induction vs as [|v vs IH]; intros i ok Hr; cbn [forRange imap forallb flat_map List.length].
  - rewrite andb_true_r, Nat.add_0_r. reflexivity.
  - cbn [imap] in Hr. inversion Hr as [|? ? (b & d & E) Hr']; subst.
    assert (E' : (let vloc := index loc i in
                  match nth_error (PrefixItems accept) i with
                  | Some p =>
                      vok <- validateValue' v p vloc ;;
                      ret (S i, if negb vok then false else ok)
                  | None =>
                      vok <- validateValue' v (Items accept) vloc ;;
                      ret (S i, if negb vok then false else ok)
                  end) = Some ((S i, ok && b), d)).
    { cbv zeta. unfold itemSchema in E.
      destruct (nth_error (PrefixItems accept) i); rewrite E; cbn [bind ret];
        rewrite app_nil_r; destruct b; rewrite ?andb_true_r, ?andb_false_r; reflexivity. }
    erewrite bind_Some; [|exact E'|apply IH; exact Hr'].
    cbv zeta. rewrite E. cbn [passed diags].
    rewrite andb_assoc, Nat.add_succ_r. reflexivity.
Qed.

Lemma validateArray_clauses vs accept loc :
  let elems :=
    imap (fun i v => validateValue' v (itemSchema accept i) (index loc i)) O vs in
  Forall returns elems ->
  let cs := arrayClauses vs accept in
  validateArray' vs accept loc
  = Some (forallb holds cs && forallb passed elems,
          flat_map (diagIf loc) cs ++ flat_map diags elems).
Proof.
  intros elems Hr cs. unfold validateArray, validateArray_.
  repeat (rewrite bound_clause; cbn [bind]).
  rewrite elements_loop by exact Hr. cbv zeta. cbn [bind ret snd].
  subst cs elems. cbn [arrayClauses forallb flat_map holds fst andb].
  rewrite ?app_nil_r, ?andb_true_r, <- ?app_assoc, <- ?andb_assoc. reflexivity.
Qed.

Lemma forEntries_eq {S} (body : string * value -> S -> M S) v s :
  forEntries body v s = forRange body (entries v) s.
Proof. unfold forEntries, entries. destruct (vrepr v); reflexivity. Qed.

Lemma properties_loop (m : list (string * value)) accept loc :
  forall ok,
    Forall returns
           (map (fun '(k, kv) =>
                   validateValue' kv (propertySchema accept k) (property joinKey loc k)) m) ->
    forRange (fun '(k, kv) ok =>
                let vloc := property joinKey loc k in
                match lookup (Properties accept) k with
                | Some p =>
                    vok <- validateValue' kv p vloc ;;
                    ret (if negb vok then false else ok)
                | None =>
                    vok <- validateValue' kv (AdditionalProperties accept) vloc ;;
                    ret (if negb vok then false else ok)
                end)
             m ok
    = let props :=
        map (fun '(k, kv) =>
               validateValue' kv (propertySchema accept k) (property joinKey loc k)) m in
      Some (ok && forallb passed props, flat_map diags props).
Proof.
  induction m as [|[k kv] m IH]; intros ok Hr; cbn [forRange map forallb flat_map].
  - rewrite andb_true_r. reflexivity.
  - cbn [map] in Hr. inversion Hr as [|? ? (b & d & E) Hr']; subst.
    assert (E' : (let vloc := property joinKey loc k in
                  match lookup (Properties accept) k with
                  | Some p =>
                      vok <- validateValue' kv p vloc ;;
                      ret (if negb vok then false else ok)
                  | None =>
                      vok <- validateValue' kv (AdditionalProperties accept) vloc ;;
                      ret (if negb vok then false else ok)
                  end) = Some (ok && b, d)).
    { cbv zeta. unfold propertySchema in E.
      destruct (lookup (Properties accept) k); rewrite E; cbn [bind ret];
        rewrite app_nil_r; destruct b; rewrite ?andb_true_r, ?andb_false_r; reflexivity. }
    erewrite bind_Some; [|exact E'|apply IH; exact Hr'].
    cbv zeta. rewrite E. cbn [passed diags].
    rewrite andb_assoc. reflexivity.
Qed.

Lemma validateObject_clauses v accept loc :
  let props :=
    map (fun '(k, kv) =>
           validateValue' kv (propertySchema accept k) (property joinKey loc k))
        (entries v) in
  Forall returns props ->
  let cs := objectClauses (Z.of_nat (List.length (keys v))) accept in
  let missing := missingClause (keys v) accept in
  validateObject' v accept loc
  = Some (forallb holds cs && forallb passed props && holds missing,
          flat_map (diagIf loc) cs ++ flat_map diags props ++ diagIf loc missing).
Proof.
  intros props Hr cs missing. unfold validateObject, validateObject_.
  repeat (rewrite bound_clause; cbn [bind]).
  rewrite forEntries_eq, properties_loop by exact Hr. cbv zeta. cbn [bind].
  rewrite clause_eq. cbn [bind ret].
  subst cs props missing. unfold missingClause.
  cbn [objectClauses forallb flat_map holds fst andb].
  rewrite ?app_nil_r, ?andb_true_r, <- ?app_assoc, <- ?andb_assoc. reflexivity.
Qed.

Lemma returns_validateConst v accept loc :
  returns (validateConst json_Marshal v accept loc).
Proof.
  unfold validateConst, constError.
  destruct (Const accept); auto with returns;
    destruct (equalsConst v _); auto with returns.
Qed.

Lemma returns_validateEnum v accept loc :
  returns (validateEnum json_Marshal v accept loc).
Proof.
  unfold validateEnum, enumError, constError.
  destruct (Enum accept) as [|c l]; auto with returns.
  destruct (existsb _ _); auto with returns.
  destruct l; auto with returns.
Qed.

Lemma validateElement_clauses v accept loc :
  Compile' (Some accept) = None ->
  Always accept = false -> Never accept = false -> unknown v = false ->
  returns (validateType' v accept loc) ->
  let c := validateConst json_Marshal v accept loc in
  let e := validateEnum json_Marshal v accept loc in
  let t := validateType' v accept loc in
  validateElement' v (Some accept) loc
  = Some (passed c && passed e && passed t, diags c ++ diags e ++ diags t).
Proof.
  intros Hc Ha Hn Hu (tok & dt & Et) c e t.
  rewrite validateElement_eq, Hc, Ha, Hn, Hu.
  destruct (returns_validateConst v accept loc) as (cok & dc & Ec).
  destruct (returns_validateEnum v accept loc) as (eok & de & Ee).
  subst c e t. rewrite Ec, Ee, Et. cbn. rewrite app_nil_r. reflexivity.
Qed.

Lemma forRange_keep {A S} (body : A -> S -> M S) l :
  Forall (fun a => forall s, body a s = ret s) l ->
  forall s, forRange body l s = ret s.
Proof.
  induction 1 as [|a l Ha _ IH]; intros s; simpl; [reflexivity|].
  rewrite Ha, bind_ret. apply IH.
Qed.

Lemma validateElement_nil v loc : validateElement' v None loc = ret true.
Proof. rewrite validateElement_eq. reflexivity. Qed.

Lemma validateSchemaType_nil_accept x loc :
  validateSchemaType joinKey x None loc = ret true.
Proof. reflexivity. Qed.

Lemma validatePrefixItems_nil_accept xItems loc xprefix :
  forall i allOk,
    validatePrefixItems (validateSchemaType joinKey) xItems None loc xprefix [] i allOk
    = ret allOk.
Proof.
  induction xprefix as [|xp xprefix IH]; intros i allOk;
    cbn [validatePrefixItems]; [reflexivity|].
  rewrite validateSchemaType_nil_accept, bind_ret, IH, andb_true_r. reflexivity.
Qed.

(** C10, as amended.  A nil schema is treated as [always] where it is the
    accepting schema and where it is the whole input of schema-versus-schema
    validation: [isAny] holds of it; every value is validated by a nil
    accepting schema, with no diagnostic; a nil accepting schema validates
    every schema and a nil input schema is validated by every accepting
    schema that is not [never]; and where [Items] or [AdditionalProperties]
    of the accepting schema is nil, array and object validation (of values
    and of schemas) accept whatever is found in those positions.  (Nil
    [Items] and [AdditionalProperties] of the input schema are tested for
    nil, and are not covered.) *)
Theorem nil_schema_is_always :
  isAny None = true
  /\ (forall v loc,
         validateElement' v None loc = ret true /\ validateValue' v None loc = ret true)
  /\ (forall x loc, validateSchemaType joinKey x None loc = ret true)
  /\ (forall accept loc,
         validateSchemaType joinKey None accept loc = ret (isAny accept || negb (isNever accept)))
  /\ (forall vs accept loc,
         PrefixItems accept = [] -> Items accept = None ->
         MinItems accept = None -> MaxItems accept = None ->
         validateArray' vs accept loc = ret true)
  /\ (forall v accept loc,
         Properties accept = [] -> AdditionalProperties accept = None ->
         MinProperties accept = None -> MaxProperties accept = None ->
         Required accept = [] -> DependentRequired accept = [] ->
         validateObject' v accept loc = ret true)
  /\ (forall x accept loc,
         PrefixItems accept = [] -> Items accept = None ->
         validateSchemaArray joinKey x accept loc = ret true)
  /\ (forall x accept loc,
         Properties accept = [] -> AdditionalProperties accept = None ->
         Required accept = [] -> DependentRequired accept = [] ->
         validateSchemaObject joinKey x accept loc = ret true).
Proof.
  split; [reflexivity|].
  split; [intros; split; [|rewrite validateValue_eq]; apply validateElement_nil|].
  split; [intros; reflexivity|].
  split.
  { intros [a|] loc; [|reflexivity]. unfold validateSchemaType, validateSchemaType_.
    simpl. destruct (Always a); [reflexivity|]. destruct (Never a); reflexivity. }
  split.
  { intros vs accept loc Hp Hi Hmin Hmax.
    unfold validateArray, validateArray_, GetMinItems, GetMaxItems.
    rewrite Hmin, Hmax, Hp, Hi, !bind_ret.
    rewrite (forRange_ret _ (fun _ '(i, ok) => (S i, ok))).
    - rewrite bind_ret. f_equal.
      generalize O. induction vs as [|v vs IH]; intros n; simpl; [reflexivity|apply IH].
    - apply Forall_forall. intros v _ [i ok].
      destruct i; simpl; rewrite validateValue_eq, validateElement_nil, bind_ret;
        reflexivity. }
  split.
  { intros v accept loc Hp Ha Hmin Hmax Hr Hd.
    unfold validateObject, validateObject_, GetMinProperties, GetMaxProperties,
      missingKeys, forEntries.
    rewrite Hmin, Hmax, Hp, Ha, Hr, Hd, !bind_ret. simpl.
    assert (E : forall m ok,
               forRange (fun '(k, kv) ok =>
                           vok <- validateValue' kv None (property joinKey loc k) ;;
                           ret (if negb vok then false else ok)) m ok = ret ok).
    { intros m. apply forRange_keep. apply Forall_forall. intros [k kv] _ ok.
      rewrite validateValue_eq, validateElement_nil, bind_ret. reflexivity. }
    destruct (vrepr v); try rewrite E; rewrite ?bind_ret; reflexivity. }
  split.
  { intros x accept loc Hp Hi. rewrite validateSchemaArray_eq, Hp, Hi.
    rewrite validatePrefixItems_nil_accept, bind_ret.
    destruct (Items x) as [xi|]; [|reflexivity].
    destruct (negb (Never xi)); reflexivity. }
  { intros x accept loc Hp Ha Hr Hd. rewrite validateSchemaObject_eq, Hp, Ha, Hr, Hd.
    rewrite (forRange_keep _ (Properties x)).
    - rewrite bind_ret. destruct (AdditionalProperties x) as [xa|]; [|reflexivity].
      destruct (negb (Never xa)); reflexivity.
    - apply Forall_forall. intros [name px] _ ok. simpl.
      rewrite ?bind_ret, ?andb_true_r. reflexivity. }
Qed.

Lemma validateType_dispatch v accept loc :
  match vrepr v with
  | r_Number n =>
      Type_ accept = "number" -> validateType' v accept loc = validateNumber n accept loc
  | r_string s =>
      Type_ accept = "string" -> validateType' v accept loc = validateString' s accept loc
  | r_slice a =>
      Type_ accept = "array" -> validateType' v accept loc = validateArray' a accept loc
  | r_map _ =>
      Type_ accept = "object" -> validateType' v accept loc = validateObject' v accept loc
  | _ => True
  end.
Proof.
  unfold validateType, validateType_, checkType.
  destruct (vrepr v); try exact I; intros <-; rewrite String.eqb_refl;
    cbn [negb]; rewrite bind_ret; reflexivity.
Qed.

(** C8, as amended.  Value-versus-schema validation does not stop at the
    first violation.  For a known value and a schema that is neither [always]
    nor [never], the const, enum and type checks are all evaluated: the
    result is the conjunction of theirs and the diagnostics are theirs, in
    order.  Where the type matches, the type check is the validator of that
    type, and each validator evaluates all of its clauses, every violated
    clause adding its own diagnostic: the five numeric clauses; min/max
    length and pattern; min/max items, then every element; min/max
    properties, then every property, then one clause for [required] and
    [dependentRequired] together, whose single diagnostic lists every missing
    key. *)
Theorem validation_accumulates :
  (forall v accept loc,
      Compile' (Some accept) = None ->
      Always accept = false -> Never accept = false -> unknown v = false ->
      returns (validateType' v accept loc) ->
      let c := validateConst json_Marshal v accept loc in
      let e := validateEnum json_Marshal v accept loc in
      let t := validateType' v accept loc in
      validateElement' v (Some accept) loc
      = Some (passed c && passed e && passed t, diags c ++ diags e ++ diags t))
  /\ (forall v accept loc,
         match vrepr v with
         | r_Number n =>
             Type_ accept = "number" ->
             validateType' v accept loc = validateNumber n accept loc
         | r_string s =>
             Type_ accept = "string" ->
             validateType' v accept loc = validateString' s accept loc
         | r_slice a =>
             Type_ accept = "array" ->
             validateType' v accept loc = validateArray' a accept loc
         | r_map _ =>
             Type_ accept = "object" ->
             validateType' v accept loc = validateObject' v accept loc
         | _ => True
         end)
  /\ (forall v accept loc n,
         big.ParseFloat v = Some n ->
         (forall m, GetMultipleOf accept = Some m -> big.Quo n m <> None) ->
         let cs := numberClauses n accept in
         validateNumber v accept loc = Some (forallb holds cs, flat_map (diagIf loc) cs))
  /\ (forall v accept loc,
         let cs := stringClauses (GetPattern Regexp regexp_Compile) MatchString
                                 Regexp_String v accept in
         validateString' v accept loc = Some (forallb holds cs, flat_map (diagIf loc) cs))
  /\ (forall vs accept loc,
         let elems :=
           imap (fun i v => validateValue' v (itemSchema accept i) (index loc i)) O vs in
         Forall returns elems ->
         let cs := arrayClauses vs accept in
         validateArray' vs accept loc
         = Some (forallb holds cs && forallb passed elems,
                 flat_map (diagIf loc) cs ++ flat_map diags elems))
  /\ (forall v accept loc,
         let props :=
           map (fun '(k, kv) =>
                  validateValue' kv (propertySchema accept k) (property joinKey loc k))
               (entries v) in
         Forall returns props ->
         let cs := objectClauses (Z.of_nat (List.length (keys v))) accept in
         let missing := missingClause (keys v) accept in
         validateObject' v accept loc
         = Some (forallb holds cs && forallb passed props && holds missing,
                 flat_map (diagIf loc) cs ++ flat_map diags props ++ diagIf loc missing)).
Proof.
  split; [exact validateElement_clauses|].
  split; [exact validateType_dispatch|].
  split; [exact validateNumber_clauses|].
  split; [exact validateString_clauses|].
  split; [exact validateArray_clauses | exact validateObject_clauses].
Qed.

(** C7.  Where the keys of every map are pairwise distinct, [equalsConst]
    decides deep equality: null, booleans and strings compare by equality,
    numbers by equality of their lexical forms, arrays element-wise with
    equal length, objects key-wise with equal key sets.  The const clause of
    a schema whose const is set passes exactly when the value deep-equals
    the const, and the enum clause of a schema with members passes exactly
    when the value deep-equals one of them. *)
Theorem const_and_enum_decide_deepEqual v accept loc :
  wfValue v -> wfAny (Const accept) -> Forall wfAny (Enum accept) ->
  (forall c, wfAny c -> (equalsConst v c = true <-> deepEqual v c))
  /\ (Const accept <> a_nil ->
      (validateConst json_Marshal v accept loc = ret true
       <-> deepEqual v (Const accept))
      /\ (~ deepEqual v (Const accept) ->
          validateConst json_Marshal v accept loc
          = constError json_Marshal loc (Const accept)))
  /\ (Enum accept <> [] ->
      (validateEnum json_Marshal v accept loc = ret true
       <-> exists c, In c (Enum accept) /\ deepEqual v c)
      /\ (~ (exists c, In c (Enum accept) /\ deepEqual v c) ->
          validateEnum json_Marshal v accept loc
          = enumError json_Marshal loc (Enum accept))).
Proof.
  intros Hv Hc He.
  split; [intros c Hwf; apply equalsConst_iff; assumption|].
  split.
  - intros Hset.
    assert (E : validateConst json_Marshal v accept loc
                = if equalsConst v (Const accept) then ret true
                  else constError json_Marshal loc (Const accept)).
    { unfold validateConst. destruct (Const accept); try reflexivity. congruence. }
    rewrite E, <- (equalsConst_iff _ _ Hv Hc).
    destruct (equalsConst v (Const accept)).
    + split; [tauto | intros H; exfalso; apply H; reflexivity].
    + split; [|reflexivity]. split; discriminate.
  - intros Hset.
    assert (E : validateEnum json_Marshal v accept loc
                = if existsb (equalsConst v) (Enum accept) then ret true
                  else enumError json_Marshal loc (Enum accept)).
    { unfold validateEnum. destruct (Enum accept); [congruence | reflexivity]. }
    assert (X : existsb (equalsConst v) (Enum accept) = true
                <-> exists c, In c (Enum accept) /\ deepEqual v c).
    { rewrite existsb_exists. rewrite Forall_forall in He.
      split; intros (c & Hin & H); exists c; (split; [exact Hin|]);
        apply (equalsConst_iff c v Hv (He c Hin)); exact H. }
    rewrite E, <- X.
    destruct (existsb (equalsConst v) (Enum accept)).
    + split; [tauto | intros H; exfalso; apply H; reflexivity].
    + split; [|reflexivity]. split; [|discriminate].
      unfold enumError, constError. destruct (Enum accept) as [|? [|]]; discriminate.
Qed.

End ValueValidation.

(** ** Export *)
Section ExportProperties.
Variable joinArgSchema : option Schema.
Variable openArgSchema : option Schema -> option Schema.
Variable alwaysSchema : option Schema.
Variable stringSchema : option Schema.

Local Abbreviation export' :=
  (export joinArgSchema openArgSchema alwaysSchema stringSchema).

Lemma export_access x node receiver accessor environment :
  repr x = accessExpr node receiver accessor ->
  export' x environment =
  (base <~ match base x with
           | Some b => b <~ export' (def b) environment ;; Some (Some b)
           | None => Some None
           end ;;
   let ex := environments.mkExpr (defRange x environment) base (schema x)
                                 a_nil None None None None None None in
   accessor <~ exportAccessor accessor ;;
   match repr (def receiver) with
   | accessExpr _ _ _ =>
       ex <~ export' (def receiver) environment ;;
       match environments.Access ex with
       | Some a =>
           Some (withAccess ex (environments.mkAccessExpr
                                  (environments.Receiver a)
                                  (environments.Accessors a ++ [accessor])))
       | None => None
       end
   | _ =>
       Some (withAccess ex (environments.mkAccessExpr
                              (defRange (def receiver) environment)
                              [accessor]))
   end).
Proof. destruct x as [p r b s st sec]. simpl. intros ->. reflexivity. Qed.

Lemma mapO_app {A B} (f : A -> option B) l1 l2 r1 r2 :
  mapO f l1 = Some r1 -> mapO f l2 = Some r2 -> mapO f (l1 ++ l2) = Some (r1 ++ r2).
Proof.
  revert r1. induction l1 as [|a l1 IH]; intros r1; simpl.
  - intros H. inversion H. auto.
  - destruct (f a) as [b|]; simpl; [|discriminate].
    destruct (mapO f l1) as [bs|]; simpl; [|discriminate].
    intros H H2. inversion H; subst. rewrite (IH bs eq_refl H2). reflexivity.
Qed.

(** C9.  The export of a chain of access expressions is one [access] record:
    its receiver is the range of the expression that defines the innermost
    receiver, the first that is not an access; its accessors are those of the
    chain, in the order they are applied; no other payload is set.  (The
    accessors of the chain and the bases exported on the way are such that
    nothing panics.) *)
Theorem export_flattens_access_chain x environment :
  isAccess x = true ->
  chainExports (fun b => match export' b environment with Some _ => true | None => false end)
               x ->
  exists ex accs,
    export' x environment = Some ex
    /\ mapO exportAccessor (chainAccessors x) = Some accs
    /\ environments.Access ex
       = Some (environments.mkAccessExpr (defRange (chainRoot x) environment) accs)
    /\ environments.Literal ex = a_nil
    /\ environments.Interpolate ex = None
    /\ environments.Symbol ex = None
    /\ environments.List_ ex = None
    /\ environments.Object ex = None
    /\ environments.Builtin ex = None.
Proof.
  remember (List.length (chainAccessors x)) as n eqn:Hn.
  revert x Hn. induction n as [|n IH]; intros x Hn Hacc Hch.
  - exfalso. destruct x as [p r b s st sec]. unfold isAccess in Hacc. simpl in *.
    destruct r; try discriminate. rewrite length_app in Hn. simpl in Hn.
    rewrite Nat.add_1_r in Hn. discriminate.
  - destruct x as [p r b s st sec]. unfold isAccess in Hacc. simpl in Hacc.
    destruct r as [| | | node receiver accessor | | | | | | | |]; try discriminate.
    rewrite (export_access (mkExpr p (accessExpr node receiver accessor) b s st sec)
                           node receiver accessor environment eq_refl).
    simpl in Hch, Hn. destruct Hch as (Ha & Hb & Hr).
    rewrite length_app, Nat.add_1_r in Hn. injection Hn as Hn.
    assert (Eb : exists eb,
               match b with
               | Some b0 => b1 <~ export' (def b0) environment ;; Some (Some b1)
               | None => Some None
               end = Some eb).
    { destruct b as [b0|]; [|eauto].
      destruct (export' (def b0) environment); [simpl; eauto | discriminate]. }
    destruct Eb as (eb & Eb). cbn [base]. rewrite Eb. cbn [obind].
    destruct (exportAccessor accessor) as [acc|] eqn:Ea; [|congruence]. cbn [obind].
    destruct (isAccess (def receiver)) eqn:Hrec.
    + destruct (IH (def receiver) Hn Hrec Hr)
        as (ex & accs & E & Em & EA & EL & EI & ES & ELi & EO & EB).
      unfold isAccess in Hrec.
      destruct (repr (def receiver)) eqn:Er; try discriminate.
      rewrite E. cbn [obind]. rewrite EA.
      exists (withAccess ex
                (environments.mkAccessExpr (defRange (chainRoot (def receiver)) environment)
                                           (accs ++ [acc]))),
        (accs ++ [acc]).
      split; [reflexivity|].
      split.
      { cbn [chainAccessors repr]. apply mapO_app; [exact Em|].
        simpl. rewrite Ea. reflexivity. }
      cbn [chainRoot repr]. simpl. repeat split; assumption.
    + unfold isAccess in Hrec.
      assert (Ec : chainAccessors (def receiver) = []
                   /\ chainRoot (def receiver) = def receiver).
      { destruct (def receiver) as [p' r' b' s' st' sec']. simpl in *.
        destruct r'; try discriminate; auto. }
      destruct Ec as [Ec1 Ec2].
      exists (withAccess
                (environments.mkExpr
                   (defRange (mkExpr p (accessExpr node receiver accessor) b s st sec)
                             environment)
                   eb s a_nil None None None None None None)
                (environments.mkAccessExpr (defRange (def receiver) environment) [acc])),
        [acc].
      split.
      { destruct (repr (def receiver)); try discriminate; reflexivity. }
      split.
      { cbn [chainAccessors repr]. rewrite Ec1. simpl. rewrite Ea. reflexivity. }
      cbn [chainRoot repr]. rewrite Ec2. simpl. repeat split; reflexivity.
Qed.

End ExportProperties.

(** ** Numbers *)

Lemma binexp_spec num den e :
  0 < num -> 0 < den ->
  let x := big.binexp num den e - e in
  (0 < x -> den * 2 ^ (x - 1) <= num < den * 2 ^ x)
  /\ (x <= 0 -> den <= num * 2 ^ (1 - x) /\ num * 2 ^ (- x) < den).
Proof.
  intros Hn Hd. unfold big.binexp.
  pose proof (Z.log2_spec num Hn) as [Ha1 Ha2].
  pose proof (Z.log2_spec den Hd) as [Hb1 Hb2].
  pose proof (Z.log2_nonneg num) as Ha0.
  pose proof (Z.log2_nonneg den) as Hb0.
  set (a := Z.log2 num) in *. set (b := Z.log2 den) in *.
  replace (Z.succ a) with (a + 1) in Ha2 by lia.
  replace (Z.succ b) with (b + 1) in Hb2 by lia.
  rewrite Z.pow_add_r in Ha2, Hb2 by lia. change (2 ^ 1) with 2 in *.
  assert (Pa : 0 < 2 ^ a) by (apply Z.pow_pos_nonneg; lia).
  assert (Pb : 0 < 2 ^ b) by (apply Z.pow_pos_nonneg; lia).
  destruct (0 <=? a - b) eqn:Ed.
  - apply Z.leb_le in Ed.
    assert (Eab : 2 ^ a = 2 ^ b * 2 ^ (a - b)).
    { rewrite <- Z.pow_add_r by lia. f_equal. lia. }
    assert (Pd : 0 < 2 ^ (a - b)) by (apply Z.pow_pos_nonneg; lia).
    destruct (den * 2 ^ (a - b) <=? num) eqn:G; cbv zeta.
    + apply Z.leb_le in G.
      replace (a - b + 1 + e - e) with (a - b + 1) by lia.
      split; [intros _|lia].
      replace (a - b + 1 - 1) with (a - b) by lia.
      rewrite Z.pow_add_r by lia. change (2 ^ 1) with 2. nia.
    + apply Z.leb_gt in G.
      replace (a - b + e - e) with (a - b) by lia.
      split.
      * intros Hpos. split; [|lia].
        assert (E1 : 2 ^ (a - b) = 2 ^ (a - b - 1) * 2).
        { replace (a - b) with ((a - b - 1) + 1) at 1 by lia.
          rewrite Z.pow_add_r by lia. reflexivity. }
        assert (0 < 2 ^ (a - b - 1)) by (apply Z.pow_pos_nonneg; lia). nia.
      * intros Hle. assert (a - b = 0) as E0 by lia. rewrite E0 in *.
        simpl in *. nia.
  - apply Z.leb_gt in Ed.
    assert (Eab : 2 ^ b = 2 ^ a * 2 ^ (- (a - b))).
    { rewrite <- Z.pow_add_r by lia. f_equal. lia. }
    assert (Pd : 0 < 2 ^ (- (a - b))) by (apply Z.pow_pos_nonneg; lia).
    destruct (den <=? num * 2 ^ (- (a - b))) eqn:G; cbv zeta.
    + apply Z.leb_le in G.
      replace (a - b + 1 + e - e) with (a - b + 1) by lia.
      split; [lia|]. intros _.
      replace (1 - (a - b + 1)) with (- (a - b)) by lia.
      split; [exact G|].
      assert (E1 : 2 ^ (- (a - b)) = 2 ^ (- (a - b + 1)) * 2).
      { replace (- (a - b)) with ((- (a - b + 1)) + 1) at 1 by lia.
        rewrite Z.pow_add_r by lia. reflexivity. }
      assert (0 < 2 ^ (- (a - b + 1))) by (apply Z.pow_pos_nonneg; lia). nia.
    + apply Z.leb_gt in G.
      replace (a - b + e - e) with (a - b) by lia.
      split; [lia|]. intros _. split; [|exact G].
      replace (1 - (a - b)) with ((- (a - b)) + 1) by lia.
      rewrite Z.pow_add_r by lia. change (2 ^ 1) with 2. nia.
Qed.

Lemma nearest_even n' d' :
  0 < d' -> 0 <= n' ->
  let m := n' / d' in
  let r := n' mod d' in
  let up := match 2 * r ?= d' with
            | Gt => true
            | Eq => Z.odd m
            | Lt => false
            end in
  let m' := if up then m + 1 else m in
  2 * Z.abs (n' - m' * d') <= d'
  /\ (2 * Z.abs (n' - m' * d') = d' -> Z.even m' = true)
  /\ m <= m' <= m + 1.
Proof.
  intros Hd Hn m r up m'.
  pose proof (Z.div_mod n' d' ltac:(lia)) as Hdm.
  pose proof (Z.mod_pos_bound n' d' Hd) as Hr.
  fold m r in Hdm, Hr. subst m' up.
  destruct (Z.compare_spec (2 * r) d') as [Heq|Hlt|Hgt].
  - destruct (Z.odd m) eqn:Ho.
    + split; [lia|]. split; [|lia]. intros _.
      rewrite Z.even_add, <- Z.negb_odd, Ho. reflexivity.
    + split; [lia|]. split; [|lia]. intros _.
      rewrite <- Z.negb_odd, Ho. reflexivity.
  - split; [lia|]. split; [lia|lia].
  - split; [lia|]. split; [lia|lia].
Qed.

Lemma round_spec p neg num den e M E :
  0 < p -> 0 < num -> 0 < den ->
  big.round p neg num den e = big.finite M E -> M <> 0 ->
  E = big.binexp num den e - p
  /\ (M < 0 <-> neg = true)
  /\ nearest p num den e M E.
Proof.
  intros Hp Hn Hd Hr HM. unfold big.round in Hr.
  pose proof (binexp_spec num den e Hn Hd) as Hx. cbv zeta in Hx.
  set (x := big.binexp num den e) in *.
  destruct (x <? big.MinExp); [inversion Hr; subst; contradiction|].
  destruct (big.MaxExp <? x); [discriminate|].
  cbv zeta in Hr.
  set (s := e - (x - p)) in *.
  set (n' := if 0 <=? s then num * 2 ^ s else num) in *.
  set (d' := if 0 <=? s then den else den * 2 ^ (- s)) in *.
  assert (Hd' : 0 < d').
  { subst d'. destruct (0 <=? s) eqn:Es; [lia|]. apply Z.leb_gt in Es.
    assert (0 < 2 ^ (- s)) by (apply Z.pow_pos_nonneg; lia). nia. }
  assert (Hn' : 0 <= n').
  { subst n'. destruct (0 <=? s) eqn:Es; [|lia]. apply Z.leb_le in Es.
    assert (0 < 2 ^ s) by (apply Z.pow_pos_nonneg; lia). nia. }
  assert (Pp : 0 < 2 ^ (p - 1)) by (apply Z.pow_pos_nonneg; lia).
  assert (Ep : 2 ^ p = 2 ^ (p - 1) * 2).
  { replace p with ((p - 1) + 1) at 1 by lia. rewrite Z.pow_add_r by lia. reflexivity. }
  assert (Hb : d' * 2 ^ (p - 1) <= n' < d' * 2 ^ p).
  { subst n' d'. destruct (0 <=? s) eqn:Es.
    - apply Z.leb_le in Es. destruct Hx as [Hx1 Hx2].
      destruct (Z.lt_ge_cases 0 (x - e)) as [Hpos|Hneg].
      + destruct (Hx1 Hpos) as [L U].
        assert (P1 : 2 ^ (p - 1) = 2 ^ (x - e - 1) * 2 ^ s).
        { rewrite <- Z.pow_add_r by lia. f_equal. lia. }
        assert (P2 : 2 ^ p = 2 ^ (x - e) * 2 ^ s).
        { rewrite <- Z.pow_add_r by lia. f_equal. lia. }
        assert (0 < 2 ^ s) by (apply Z.pow_pos_nonneg; lia).
        rewrite P1, P2. nia.
      + destruct (Hx2 Hneg) as [L U].
        assert (P1 : 2 ^ s = 2 ^ (1 - (x - e)) * 2 ^ (p - 1)).
        { rewrite <- Z.pow_add_r by lia. f_equal. lia. }
        assert (P2 : 2 ^ s = 2 ^ (- (x - e)) * 2 ^ p).
        { rewrite <- Z.pow_add_r by lia. f_equal. lia. }
        assert (0 < 2 ^ p) by (apply Z.pow_pos_nonneg; lia).
        split; [rewrite P1; nia | rewrite P2; nia].
    - apply Z.leb_gt in Es. destruct Hx as [Hx1 _].
      destruct (Hx1 ltac:(lia)) as [L U].
      assert (P1 : 2 ^ (x - e - 1) = 2 ^ (- s) * 2 ^ (p - 1)).
      { rewrite <- Z.pow_add_r by lia. f_equal. lia. }
      assert (P2 : 2 ^ (x - e) = 2 ^ (- s) * 2 ^ p).
      { rewrite <- Z.pow_add_r by lia. f_equal. lia. }
      rewrite P1 in L. rewrite P2 in U. nia. }
  pose proof (nearest_even n' d' Hd' Hn') as Hne. cbv zeta in Hne.
  set (m := n' / d') in *. set (r := n' mod d') in *.
  set (up := match 2 * r ?= d' with Gt => true | Eq => Z.odd m | Lt => false end) in *.
  set (m' := if up then m + 1 else m) in *.
  destruct Hne as (Herr & Heven & Hm').
  assert (Hm : 2 ^ (p - 1) <= m < 2 ^ p).
  { subst m. split.
    - apply Z.div_le_lower_bound; lia.
    - apply Z.div_lt_upper_bound; lia. }
  destruct ((m' =? 2 ^ p) && (big.MaxExp <=? x)); [discriminate|].
  inversion Hr as [[HMeq HEeq]]. clear Hr.
  assert (Habs : Z.abs (if neg then - m' else m') = m') by (destruct neg; lia).
  split; [reflexivity|].
  split; [destruct neg; split; intros; try lia; try discriminate|].
  unfold nearest. rewrite Habs. split; [lia|].
  assert (Ek : num * 2 ^ (e - Z.min e (x - p)) - m' * den * 2 ^ (x - p - Z.min e (x - p))
               = n' - m' * d'
               /\ den * 2 ^ (x - p - Z.min e (x - p)) = d').
  { subst n' d'. destruct (0 <=? s) eqn:Es.
    - apply Z.leb_le in Es. rewrite Z.min_r by lia.
      replace (x - p - (x - p)) with 0 by lia.
      replace (e - (x - p)) with s by lia. simpl. lia.
    - apply Z.leb_gt in Es. rewrite Z.min_l by lia.
      replace (e - e) with 0 by lia. replace (x - p - e) with (- s) by lia.
      simpl. lia. }
  destruct Ek as [Ek1 Ek2]. cbv zeta. rewrite Ek1, Ek2.
  split; [exact Herr|]. intros Ht. specialize (Heven Ht).
  destruct neg; [rewrite Z.even_opp|]; exact Heven.
Qed.

Lemma Quo_nearest n m q mn en mm em M E :
  big.Quo n m = Some q ->
  big.val n = big.finite mn en -> big.val m = big.finite mm em ->
  big.val q = big.finite M E -> M <> 0 -> 0 < big.prec q ->
  nearest (big.prec q) (Z.abs mn) (Z.abs mm) (en - em) M E.
Proof.
  intros Hq Hn Hm Hv HM Hp. unfold big.Quo in Hq. rewrite Hn, Hm in Hq.
  destruct (mm =? 0) eqn:Em.
  { destruct (mn =? 0); [discriminate|]. inversion Hq; subst. discriminate. }
  destruct (mn =? 0) eqn:En.
  { inversion Hq; subst. simpl in Hv. inversion Hv; subst. contradiction. }
  apply Z.eqb_neq in Em, En. inversion Hq; subst q. simpl in Hv, Hp |- *.
  assert (A1 : 0 < Z.abs mn) by lia. assert (A2 : 0 < Z.abs mm) by lia.
  exact (proj2 (proj2 (round_spec _ _ _ _ _ _ _ Hp A1 A2 Hv HM))).
Qed.

Lemma digit_range c d : big.digit c = Some d -> 0 <= d <= 9.
Proof.
  unfold big.digit. destruct (_ && _) eqn:E; [|discriminate].
  apply andb_prop in E. destruct E as [E1 E2].
  apply Z.leb_le in E1, E2. intros H. inversion H. lia.
Qed.

Lemma scanDigits_nonneg s : forall acc cnt,
  0 <= acc -> 0 <= fst (fst (big.scanDigits s acc cnt)).
Proof.
  induction s as [|c s IH]; intros acc cnt Hacc; cbn [big.scanDigits];
    [exact Hacc|].
  destruct (big.digit c) as [d|] eqn:Ed; [|exact Hacc].
  apply digit_range in Ed. apply IH. lia.
Qed.

Lemma scan_nonneg v neg mant exp5 exp2 :
  big.scan v = Some (big.lit_num neg mant exp5 exp2) -> 0 <= mant.
Proof.
  unfold big.scan. destruct (big.scanSign v) as [sg s0].
  destruct (_ || _); [discriminate|].
  pose proof (scanDigits_nonneg s0 0 0 ltac:(lia)) as H0.
  destruct (big.scanDigits s0 0 0) as [[ip icnt] s1]. simpl in H0.
  assert (Hm : forall mant' fcount s2,
             match s1 with
             | String "."%char s1' =>
                 let '(m, cnt, s2) := big.scanDigits s1' ip 0 in (m, cnt, s2)
             | _ => (ip, 0, s1)
             end = (mant', fcount, s2) -> 0 <= mant').
  { intros mant' fcount s2.
    destruct s1 as [|c s1']; [intros H; inversion H; subst; exact H0|].
    pose proof (scanDigits_nonneg s1' ip 0 H0) as H1.
    destruct (big.scanDigits s1' ip 0) as [[m cnt] s2'] eqn:Es. simpl in H1.
    destruct c as [[] [] [] [] [] [] [] []];
      intros H; inversion H; subst; assumption. }
  destruct (match s1 with
            | String "."%char s1' =>
                let '(m, cnt, s2) := big.scanDigits s1' ip 0 in (m, cnt, s2)
            | _ => (ip, 0, s1)
            end) as [[mant' fcount] s2] eqn:Em.
  specialize (Hm _ _ _ eq_refl).
  destruct (icnt + fcount =? 0); [discriminate|].
  destruct (big.scanExponent s2) as [[[ex bin] rest]|]; [|discriminate].
  destruct rest; [|discriminate]. intros H. inversion H; subst. exact Hm.
Qed.

Lemma ParseFloat_nearest v n neg mant exp5 exp2 M E :
  big.scan v = Some (big.lit_num neg mant exp5 exp2) ->
  big.ParseFloat v = Some n ->
  big.val n = big.finite M E -> M <> 0 ->
  nearest 64 (mant * 5 ^ Z.max exp5 0) (5 ^ Z.max (- exp5) 0) exp2 M E.
Proof.
  intros Hs Hn Hv HM. pose proof (scan_nonneg _ _ _ _ _ Hs) as H0.
  unfold big.ParseFloat in Hn. rewrite Hs in Hn.
  destruct (mant =? 0) eqn:Em.
  { inversion Hn; subst. simpl in Hv. inversion Hv; subst. contradiction. }
  apply Z.eqb_neq in Em.
  destruct (_ || _); [discriminate|].
  destruct (0 <=? exp5) eqn:E5; inversion Hn; subst n; simpl in Hv.
  - apply Z.leb_le in E5. rewrite Z.max_l, Z.max_r by lia. change (5 ^ 0) with 1.
    assert (0 < 5 ^ exp5) by (apply Z.pow_pos_nonneg; lia).
    assert (A0 : 0 < 64) by lia. assert (A1 : 0 < mant * 5 ^ exp5) by nia.
    assert (A2 : 0 < 1) by lia.
    exact (proj2 (proj2 (round_spec _ _ _ _ _ _ _ A0 A1 A2 Hv HM))).
  - apply Z.leb_gt in E5. rewrite Z.max_r, Z.max_l by lia. change (5 ^ 0) with 1.
    rewrite Z.mul_1_r.
    assert (A2 : 0 < 5 ^ (- exp5)) by (apply Z.pow_pos_nonneg; lia).
    assert (A0 : 0 < 64) by lia. assert (A1 : 0 < mant) by lia.
    exact (proj2 (proj2 (round_spec _ _ _ _ _ _ _ A0 A1 A2 Hv HM))).
Qed.

Lemma IsInt_isIntegral q : big.IsInt q = true <-> isIntegral (big.val q).
Proof.
  unfold big.IsInt, isIntegral. destruct (big.val q) as [m e|neg].
  - destruct (0 <=? e) eqn:E.
    + apply Z.leb_le in E. split; [intros _|reflexivity].
      exists (m * 2 ^ e). rewrite Z.max_l, Z.max_r by lia. simpl. lia.
    + apply Z.leb_gt in E. rewrite Z.max_r, Z.max_l by lia. simpl.
      assert (Hp : 0 < 2 ^ (- e)) by (apply Z.pow_pos_nonneg; lia).
      rewrite Z.eqb_eq, Z.mul_1_r. split.
      * intros H. exists (m / 2 ^ (- e)).
        rewrite (Z.div_mod m (2 ^ (- e))) at 1 by lia. lia.
      * intros [k ->]. apply Z.mod_mul. lia.
  - split; [discriminate | intros []].
Qed.

Lemma string_app_inv_head (p s1 s2 : string) :
  (p ++ s1)%string = (p ++ s2)%string -> s1 = s2.
Proof. induction p as [|c p IH]; simpl; [auto|]. intros H. inversion H. auto. Qed.

Lemma errorAt_format_inj loc f1 a1 f2 a2 :
  errorAt loc f1 a1 = errorAt loc f2 a2 -> f1 = f2.
Proof.
  unfold errorAt. intros H. inversion H as [[Hf Ha]].
  destruct (prefix loc); [|exact Hf].
  apply string_app_inv_head in Hf. simpl in Hf. inversion Hf. reflexivity.
Qed.

(** C4, as amended.  For a number [v] and a schema whose [multipleOf] is set,
    [validateNumber] accepts [v] on the [multipleOf] clause exactly when the
    quotient computed by [big.Float] is an integer: [v] and [multipleOf] are
    each rounded to 64 bits of mantissa when parsed, and [q] is their
    quotient rounded again, to nearest even, to the precision of the
    operands ([nearest]).  The clause reports "expected a multiple of"
    otherwise, whatever the other clauses do. *)
Theorem multipleOf_is_float_quotient v accept loc n m q :
  big.ParseFloat v = Some n ->
  GetMultipleOf accept = Some m ->
  big.Quo n m = Some q ->
  returns (validateNumber v accept loc)
  /\ (In (errorAt loc "expected a multiple of %v" [ArgString (MultipleOf accept)])
         (diags (validateNumber v accept loc))
      <-> ~ isIntegral (big.val q))
  /\ (passed (validateNumber v accept loc) = true -> isIntegral (big.val q))
  /\ big.prec n = 64
  /\ big.prec q = Z.max 64 (big.prec m)
  /\ (forall neg mant exp5 exp2 M E,
         big.scan v = Some (big.lit_num neg mant exp5 exp2) ->
         big.val n = big.finite M E -> M <> 0 ->
         nearest 64 (mant * 5 ^ Z.max exp5 0) (5 ^ Z.max (- exp5) 0) exp2 M E)
  /\ (forall mn en mm em M E,
         big.val n = big.finite mn en -> big.val m = big.finite mm em ->
         big.val q = big.finite M E -> M <> 0 ->
         nearest (big.prec q) (Z.abs mn) (Z.abs mm) (en - em) M E).
Proof.
  intros Hn Hm Hq.
  assert (Hnan : forall m', GetMultipleOf accept = Some m' -> big.Quo n m' <> None)
    by (intros m' Hm'; rewrite Hm in Hm'; inversion Hm'; subst; congruence).
  pose proof (validateNumber_clauses v accept loc n Hn Hnan) as E. cbv zeta in E.
  assert (Hp : big.prec n = 64).
  { unfold big.ParseFloat in Hn. destruct (big.scan v) as [[neg|neg mant e5 e2]|];
      [inversion Hn; reflexivity| |discriminate].
    destruct (mant =? 0); [inversion Hn; reflexivity|].
    destruct ((_ <? _) || _); [discriminate|].
    destruct (0 <=? e5); inversion Hn; reflexivity. }
  assert (Hpq : big.prec q = Z.max 64 (big.prec m)).
  { rewrite <- Hp. unfold big.Quo in Hq.
    destruct (big.val n) as [mx ex|nx], (big.val m) as [my ey|ny];
      try discriminate; try (inversion Hq; reflexivity).
    destruct (my =? 0), (mx =? 0); try discriminate; inversion Hq; reflexivity. }
  rewrite E. unfold numberClauses. rewrite Hm. simpl bound. rewrite Hq.
  split; [unfold returns; eauto|].
  rewrite <- IsInt_isIntegral.
  split; [|split; [|split; [exact Hp|split; [exact Hpq|split]]]].
  - cbn [diags flat_map diagIf]. split.
    + intros Hin. destruct (big.IsInt q); [|discriminate].
      exfalso. cbn [negb app] in Hin.
      repeat match goal with
             | H : In _ (_ ++ _) |- _ => apply in_app_or in H; destruct H as [H|H]
             | H : In _ (if ?b then _ else _) |- _ => destruct b
             | H : In _ [_] |- _ => destruct H as [H|[]]
             | H : In _ [] |- _ => destruct H
             | H : errorAt _ _ _ = errorAt _ _ _ |- _ =>
                 apply errorAt_format_inj in H; discriminate H
             end.
    + intros H. destruct (big.IsInt q); [exfalso; apply H; reflexivity|].
      cbn [negb]. left. reflexivity.
  - cbn [passed forallb holds fst]. destruct (big.IsInt q); [reflexivity|discriminate].
  - intros neg mant exp5 exp2 M X Hs Hv HM.
    exact (ParseFloat_nearest v n neg mant exp5 exp2 M X Hs Hn Hv HM).
  - intros mn en mm em M X Hvn Hvm Hvq HM.
    apply (Quo_nearest n m q mn en mm em M X Hq Hvn Hvm Hvq HM). lia.
Qed.


(** ** The code on concrete inputs *)

(** C1 fails on the code: the comparisons of the four bounds are inverted.
    The number 5 violates [minimum: 3], [exclusiveMinimum: 3], [maximum: 7]
    and [exclusiveMaximum: 7], each with the error that states the bound it
    satisfies, while 1 passes both minima and 9 both maxima. *)
Theorem validateNumber_bounds_inverted :
  let loc := Sample.loc Sample.five in
  validateNumber "5" (Sample.numberSchema "" "" "" "3" "") loc
  = Some (false, [errorAt loc "expected a number greater than or equal to %v"
                          [ArgString "3"]])
  /\ validateNumber "1" (Sample.numberSchema "" "" "" "3" "") loc = Some (true, [])
  /\ validateNumber "5" (Sample.numberSchema "" "" "" "" "3") loc
     = Some (false, [errorAt loc "expected a number greater than %v" [ArgString "3"]])
  /\ validateNumber "1" (Sample.numberSchema "" "" "" "" "3") loc = Some (true, [])
  /\ validateNumber "5" (Sample.numberSchema "" "7" "" "" "") loc
     = Some (false, [errorAt loc "expected a number less than or equal to%v"
                             [ArgString "7"]])
  /\ validateNumber "9" (Sample.numberSchema "" "7" "" "" "") loc = Some (true, [])
  /\ validateNumber "5" (Sample.numberSchema "" "" "7" "" "") loc
     = Some (false, [errorAt loc "expected a number less than %v" [ArgString "7"]])
  /\ validateNumber "9" (Sample.numberSchema "" "" "7" "" "") loc = Some (true, []).
Proof. vm_compute. repeat split. Qed.

(** C3 fails on the code: [validateArray] computes the location of an
    element with [index], the outer expression with the path [[0]] as a
    prefix when the value is not defined by a literal, but [validateValue]
    drops it and restarts at the expression that defines the element.  The
    list [${xs}] holds the number 5 where strings are expected: the error
    blames the literal [5], without a path.  (For the list literal [[5]] the
    location that [index] computes is the element, and the error is the
    same.) *)
Theorem validateValue_drops_location :
  let accept := Some (Sample.arraySchema [] (Some Sample.stringSchema)) in
  let outer := Sample.loc Sample.xs in
  let type_error loc :=
    errorAt loc "expected %s, got %s" [ArgString "string"; ArgString "number"] in
  index outer 0 = mkLoc Sample.xs "[0]" true
  /\ Sample.validateValue Sample.vxs accept outer
     = Some (false, [type_error (Sample.loc Sample.five)])
  /\ type_error (Sample.loc Sample.five) <> type_error (index outer 0)
  /\ dnode (type_error (index outer 0)) = syntax (repr Sample.xs)
  /\ dformat (type_error (index outer 0)) = "[0]: expected %s, got %s"
  /\ index (Sample.loc Sample.lst) 0 = mkLoc Sample.five "[0]" false
  /\ Sample.validateValue Sample.vlst accept (Sample.loc Sample.lst)
     = Some (false, [type_error (index (Sample.loc Sample.lst) 0)]).
Proof. vm_compute. repeat split. discriminate. Qed.

(** C4, as stated, fails: 2^64 + 1 is odd, and is accepted as a multiple
    of 2; 0.9 is three times 0.3, and is refused as a multiple of 0.3. *)
Lemma multipleOf_not_exact :
  let loc := Sample.loc Sample.five in
  ~ exactMultiple "18446744073709551617" "2"
  /\ validateNumber "18446744073709551617" (Sample.numberSchema "2" "" "" "" "") loc
     = Some (true, [])
  /\ exactMultiple "0.9" "0.3"
  /\ validateNumber "0.9" (Sample.numberSchema "0.3" "" "" "" "") loc
     = Some (false, [errorAt loc "expected a multiple of %v" [ArgString "0.3"]]).
Proof.
  cbv zeta. split; [|split; [|split]].
  - intros (qv & qm & k & Hv & Hm & H).
    vm_compute in Hv, Hm. inversion Hv; inversion Hm; subst; clear Hv Hm.
    unfold Qeq in H. simpl in H. lia.
  - vm_compute. reflexivity.
  - eexists _, _, 3%Z. split; [vm_compute; reflexivity|].
    split; [vm_compute; reflexivity|]. vm_compute. reflexivity.
  - vm_compute. reflexivity.
Qed.

(** 0.3 is accepted as a multiple of 0.1: the quotient of the two rounded
    numbers rounds to 3. *)
Lemma multipleOf_is_float_quotient_witness :
  let n := big.mkFloat 64 (big.finite 11068046444225730970 (-65)) in
  let m := big.mkFloat 64 (big.finite 14757395258967641293 (-67)) in
  let q := big.mkFloat 64 (big.finite 13835058055282163712 (-62)) in
  let accept := Sample.numberSchema "0.1" "" "" "" "" in
  let loc := Sample.loc Sample.five in
  big.ParseFloat "0.3" = Some n
  /\ GetMultipleOf accept = Some m
  /\ big.Quo n m = Some q
  /\ isIntegral (big.val q)
  /\ passed (validateNumber "0.3" accept loc) = true.
Proof.
  intros n m q accept loc.
  assert (Hn : big.ParseFloat "0.3" = Some n) by (vm_compute; reflexivity).
  assert (Hm : GetMultipleOf accept = Some m) by (vm_compute; reflexivity).
  assert (Hq : big.Quo n m = Some q) by (vm_compute; reflexivity).
  assert (P : passed (validateNumber "0.3" accept loc) = true)
    by (vm_compute; reflexivity).
  repeat split; try assumption.
  exact (proj1 (proj2 (proj2 (multipleOf_is_float_quotient "0.3" accept loc n m q
                                Hn Hm Hq))) P).
Defined.

(** C5, as stated, fails: where the input's tail [items] is [never] it is
    not compared with the target's.  Validating [never] against the string
    schema fails, yet the array whose tail is [never] is validated by the
    array of strings. *)
Lemma validateSchemaArray_never_tail_not_compared :
  let loc := Sample.loc Sample.xs in
  Items Sample.emptyArray = Some Sample.neverSchema
  /\ passed (validateSchemaType Sample.joinKey (Items Sample.emptyArray)
                                (Items Sample.stringArray) loc) = false
  /\ validateSchemaArray Sample.joinKey Sample.emptyArray Sample.stringArray loc
     = Some (true, []).
Proof. vm_compute. repeat split. Qed.

(** An input with the prefix items (string, number) and no [items], against
    a target with the prefix item (string) and string [items]: the second
    position is checked against the target's [items], and fails. *)
Lemma validateSchemaArray_checks_witness :
  let x := Sample.arraySchema
             [Some Sample.stringSchema; Some (Sample.numberSchema "" "" "" "" "")] None in
  let accept := Sample.arraySchema [Some Sample.stringSchema] (Some Sample.stringSchema) in
  let loc := Sample.loc Sample.xs in
  validateSchemaArray Sample.joinKey x accept loc
  = Some (false, [errorAt (mkLoc Sample.xs "[1]" true) "expected %s, got %s"
                          [ArgString "string"; ArgString "number"]]).
Proof.
  intros x accept loc.
  rewrite (validateSchemaArray_checks Sample.joinKey x accept loc (fun _ => eq_refl)).
  vm_compute. reflexivity.
Defined.

(** An unknown value whose schema is the string schema is accepted by the
    string schema, through schema-versus-schema validation. *)
Lemma validateElement_unknown_witness :
  let accept := Some Sample.stringSchema in
  let loc := Sample.loc Sample.xs in
  unknown Sample.vunknown = true
  /\ Compile Sample.Regexp Sample.regexp_Compile accept = None
  /\ Sample.validateElement Sample.vunknown accept loc
     = validateSchemaType Sample.joinKey (vschema Sample.vunknown) accept loc.
Proof.
  intros accept loc. split; [reflexivity|]. split; [reflexivity|].
  exact (proj1 (validateElement_unknown
                  Sample.joinKey Sample.json_Marshal Sample.Regexp Sample.regexp_Compile
                  Sample.MatchString Sample.Regexp_String
                  Sample.vunknown accept loc eq_refl eq_refl)).
Defined.

(** The object [{b: 5}] deep-equals the constant [{b: 5}], and the const
    clause passes. *)
Lemma const_and_enum_decide_deepEqual_witness :
  let loc := Sample.loc Sample.obj in
  deepEqual Sample.vobj (Const Sample.constObject)
  /\ validateConst Sample.json_Marshal Sample.vobj Sample.constObject loc = ret true.
Proof.
  intros loc.
  assert (Hv : wfValue Sample.vobj).
  { simpl. repeat split. unfold uniqueKeys. simpl. repeat constructor. intros []. }
  assert (Hc : wfAny (Const Sample.constObject)).
  { simpl. repeat split. unfold uniqueKeys. simpl. repeat constructor. intros []. }
  assert (He : Forall wfAny (Enum Sample.constObject)) by constructor.
  destruct (const_and_enum_decide_deepEqual Sample.json_Marshal
              Sample.vobj Sample.constObject loc Hv Hc He) as (_ & H & _).
  assert (Hset : Const Sample.constObject <> a_nil) by discriminate.
  destruct (H Hset) as [Hiff _].
  assert (E : validateConst Sample.json_Marshal Sample.vobj Sample.constObject loc
              = ret true) by reflexivity.
  split; [apply Hiff; exact E | exact E].
Defined.

(** C8, as stated, fails for [required] and [dependentRequired]: the object
    [{b: 5}] misses the required key [a] and, [b] being present, the
    dependent key [c]; both violations are reported by one diagnostic. *)
Lemma validateObject_one_diagnostic_for_missing_keys :
  let loc := Sample.loc Sample.obj in
  filter (fun k => negb (existsb (String.eqb k) (keys Sample.vobj)))
         (Required Sample.requiresAC) = ["a"]
  /\ lookup (DependentRequired Sample.requiresAC) "b" = Some ["c"]
  /\ In "b" (keys Sample.vobj) /\ ~ In "c" (keys Sample.vobj)
  /\ Sample.validateValue Sample.vobj (Some Sample.requiresAC) loc
     = Some (false, [errorAt loc "missing required properties: %s" [ArgString "a, c"]]).
Proof.
  vm_compute. repeat split; auto. intros [H|[]]. discriminate.
Qed.

(** The number 5 against [multipleOf: 2], [minimum: 3] and [maximum: 7]: the
    three clauses that the code finds violated are all reported. *)
Lemma validation_accumulates_witness :
  let accept := Sample.numberSchema "2" "7" "" "3" "" in
  let loc := Sample.loc Sample.five in
  validateNumber "5" accept loc
  = Some (false,
          [errorAt loc "expected a multiple of %v" [ArgString "2"];
           errorAt loc "expected a number greater than or equal to %v" [ArgString "3"];
           errorAt loc "expected a number less than or equal to%v" [ArgString "7"]]).
Proof.
  intros accept loc.
  destruct (validation_accumulates Sample.joinKey Sample.json_Marshal Sample.Regexp
              Sample.regexp_Compile Sample.MatchString Sample.Regexp_String)
    as (_ & _ & H & _).
  rewrite (H "5" accept loc (big.mkFloat 64 (big.finite (5 * 2 ^ 61) (-61)))).
  - vm_compute. reflexivity.
  - vm_compute. reflexivity.
  - intros m Hm. vm_compute in Hm. inversion Hm. vm_compute. discriminate.
Defined.

(** The chain [${xs}.b[0]] is exported as one access on the range of [${xs}],
    with the accessors [.b] and [[0]]. *)
Lemma export_flattens_access_chain_witness :
  exists ex,
    Sample.export Sample.xs_b_0 "env" = Some ex
    /\ environments.Access ex
       = Some (environments.mkAccessExpr
                 (defRange Sample.xs "env")
                 [environments.mkAccessor None (Some "b");
                  environments.mkAccessor (Some 0) None]).
Proof.
  destruct (export_flattens_access_chain
              Sample.joinArgSchema Sample.openArgSchema
              (Some Sample.alwaysSchema) (Some Sample.stringSchema)
              Sample.xs_b_0 "env" eq_refl)
    as (ex & accs & E & Em & EA & _).
  - simpl. repeat split; discriminate.
  - exists ex. split; [exact E|]. rewrite EA.
    vm_compute in Em. inversion Em. reflexivity.
Defined.

(** A schema without [prefixItems], [items] and bounds validates the array
    holding the number 5. *)
Lemma nil_schema_is_always_witness :
  Sample.validateArray [Sample.vfive] (Sample.arraySchema [] None)
                       (Sample.loc Sample.lst) = ret true.
Proof.
  destruct (nil_schema_is_always Sample.joinKey Sample.json_Marshal Sample.Regexp
              Sample.regexp_Compile Sample.MatchString Sample.Regexp_String)
    as (_ & _ & _ & _ & H & _).
  apply H; reflexivity.
Defined.

(** C6, as stated, fails: an accepting schema that does not compile rejects
    every value before the [always], [never] and [unknown] tests.  An
    [always] schema whose [multipleOf] is not a number rejects an unknown
    value, with an internal error; and a string schema with that
    [multipleOf] rejects the unknown string that schema-versus-schema
    validation accepts. *)
Lemma validateElement_unknown_compiles_first :
  let alwaysBad := mkSchema false true "" a_nil [] "abc" "" "" "" "" None None ""
                            [] None None None [] None None None [] [] in
  let stringBad := mkSchema false false "string" a_nil [] "abc" "" "" "" "" None None ""
                            [] None None None [] None None None [] [] in
  let loc := Sample.loc Sample.xs in
  let internal := errorAt loc "internal error: invalid schema: %w"
                          [ArgError (ErrNumber "abc")] in
  unknown Sample.vunknown = true
  /\ isAny (Some alwaysBad) = true
  /\ Sample.validateElement Sample.vunknown (Some alwaysBad) loc = Some (false, [internal])
  /\ validateSchemaType Sample.joinKey (vschema Sample.vunknown) (Some stringBad) loc
     = Some (true, [])
  /\ Sample.validateElement Sample.vunknown (Some stringBad) loc = Some (false, [internal]).
Proof. vm_compute. repeat split. Qed.

(** C10, as stated, fails: nil [items] and [additionalProperties] of the
    input schema are not treated as [always].  Against a target whose items
    are [never], the input without items passes and the input whose items
    are [always] fails; against a target that requires the key [a], the
    input without additional properties fails and the input whose additional
    properties are [always] passes. *)
Lemma nil_input_subschema_is_not_always :
  let loc := Sample.loc Sample.xs in
  let nilItems := Sample.arraySchema [] None in
  let alwaysItems := Sample.arraySchema [] (Some Sample.alwaysSchema) in
  let nilAdditional := Sample.objectSchema [] None [] [] in
  let alwaysAdditional := Sample.objectSchema [] (Some Sample.alwaysSchema) [] [] in
  validateSchemaType Sample.joinKey (Some nilItems) (Some Sample.emptyArray) loc
  = Some (true, [])
  /\ validateSchemaType Sample.joinKey (Some alwaysItems) (Some Sample.emptyArray) loc
     = Some (false, [])
  /\ validateSchemaType Sample.joinKey (Some nilAdditional) (Some Sample.requiresA) loc
     = Some (false, [errorAt (mkLoc Sample.xs "a" true) "missing required property" []])
  /\ validateSchemaType Sample.joinKey (Some alwaysAdditional) (Some Sample.requiresA) loc
     = Some (true, []).
Proof. vm_compute. repeat split. Qed.

(** * Further properties *)

(** ** A successful check is quiet *)

Lemma keeps_ret {T} (ok : T -> bool) t : keeps ok (ok t) (ret t).
Proof. simpl. auto. Qed.

Lemma keeps_false {T} (ok : T -> bool) b t d : ok t = false -> keeps ok b (Some (t, d)).
Proof. simpl. intros -> H. discriminate. Qed.

Lemma keeps_bind {A T} (okA : A -> bool) (okT : T -> bool) b (m : M A) (f : A -> M T) :
  keeps okA b m -> (forall a, keeps okT (okA a) (f a)) -> keeps okT b (bind m f).
Proof.
  intros Hm Hf. destruct m as [[a d1]|]; [|exact I]. simpl.
  specialize (Hf a). destruct (f a) as [[t d2]|]; [|exact I]. simpl in *.
  intros Ht. destruct (Hf Ht) as [Ha ->]. destruct (Hm Ha) as [Hb ->]. auto.
Qed.

Lemma keeps_bind_and {T} (okT : T -> bool) b (m : M bool) (f : bool -> M T) :
  keeps (fun ok => ok) true m -> (forall a, keeps okT (b && a) (f a)) ->
  keeps okT b (bind m f).
Proof.
  intros Hm Hf. destruct m as [[a d1]|]; [|exact I]. simpl.
  specialize (Hf a). destruct (f a) as [[t d2]|]; [|exact I]. simpl in *.
  intros Ht. destruct (Hf Ht) as [Ha ->]. apply andb_prop in Ha. destruct Ha as [Hb Ha].
  destruct (Hm Ha) as [_ ->]. auto.
Qed.

Lemma keeps_forRange {A S} (ok : S -> bool) (body : A -> S -> M S) l :
  Forall (fun a => forall s, keeps ok (ok s) (body a s)) l ->
  forall s, keeps ok (ok s) (forRange body l s).
Proof.
  induction 1 as [|a l Ha _ IH]; intros s; cbn [forRange].
  - apply keeps_ret.
  - eapply keeps_bind; [apply Ha | exact IH].
Qed.

Lemma quiet_keeps m : quiet m <-> keeps (fun ok => ok) true m.
Proof.
  unfold quiet, keeps. destruct m as [[[] d]|]; split; intros H; auto.
  - apply H. reflexivity.
  - discriminate.
Qed.

Lemma keeps_weaken {T} (ok : T -> bool) b (m : M T) : keeps ok true m -> b = true -> keeps ok b m.
Proof. intros H ->. exact H. Qed.

Lemma keeps_clause violated loc format args ok :
  keeps (fun ok => ok) ok (clause violated loc format args ok).
Proof.
  rewrite clause_eq. simpl. intros H. apply andb_prop in H. destruct H as [-> H].
  destruct violated; [discriminate|]. auto.
Qed.

Section QuietSchema.
Variable joinKey : string -> string -> string.

Lemma keeps_checkType actual accept loc :
  keeps (fun ok => ok) true (checkType actual accept loc).
Proof.
  unfold checkType. destruct (negb _); [|apply (keeps_ret (fun ok : bool => ok) true)].
  unfold typeError. rewrite validationErrorf_eq. apply keeps_false. reflexivity.
Qed.

(** [x] is checked quietly against every schema. *)
Lemma keeps_validateSchemaType_on x :
  onSome (fun x => forall accept loc,
              keeps (fun ok => ok) true (validateSchemaArray joinKey x accept loc)
              /\ keeps (fun ok => ok) true (validateSchemaObject joinKey x accept loc)) x ->
  forall accept loc, keeps (fun ok => ok) true (validateSchemaType joinKey x accept loc).
Proof.
  intros Hx accept loc. unfold validateSchemaType, validateSchemaType_.
  pose proof (keeps_ret (fun ok : bool => ok) true) as Rt.
  assert (Rf : forall b, keeps (fun ok : bool => ok) b (ret false))
    by (intros; apply keeps_false; reflexivity).
  destruct accept as [a|]; [|exact Rt].
  destruct (Always a); [exact Rt|].
  destruct (Never a); [apply Rf|].
  destruct x as [x|]; [|exact Rt].
  destruct (Always x); [exact Rt|].
  eapply keeps_bind; [apply keeps_checkType|].
  intros ok. destruct ok; cbn [negb]; [|apply Rf].
  destruct (Hx a loc) as [HA HO].
  destruct (String.eqb (Type_ x) "array"); [exact HA|].
  destruct (String.eqb (Type_ x) "object"); [exact HO|exact Rt].
Qed.

Lemma keeps_validatePrefixItems (vst : option Schema -> option Schema -> validationLoc -> M bool)
      xItems acceptItems loc xprefix :
  (forall a l, keeps (fun ok => ok) true (vst xItems a l)) ->
  Forall (fun xp => forall a l, keeps (fun ok => ok) true (vst xp a l)) xprefix ->
  forall aprefix i allOk,
    keeps (fun ok => ok) allOk
          (validatePrefixItems vst xItems acceptItems loc xprefix aprefix i allOk).
Proof.
  intros Hit Hpre. induction Hpre as [|xp xprefix Hxp _ IH]; intros aprefix i allOk.
  - rewrite validatePrefixItems_nil.
    eapply keeps_bind with (okA := snd).
    + apply (keeps_forRange snd). apply Forall_forall. intros ap _ [j b].
      apply keeps_bind_and; [apply Hit|]. intros ok. apply (keeps_ret snd (S j, b && ok)).
    + intros r. apply (keeps_ret (fun ok : bool => ok) (snd r)).
  - destruct aprefix as [|ap aprefix]; cbn [validatePrefixItems];
      (apply keeps_bind_and; [apply Hxp | intros ok; apply IH]).
Qed.

Lemma missingRequired_nil xreq loc ra :
  forallb xreq ra = true -> missingRequired joinKey xreq loc ra = [].
Proof.
  unfold missingRequired. induction ra as [|name ra IH]; simpl; [reflexivity|].
  intros H. apply andb_prop in H. destruct H as [-> H]. simpl. auto.
Qed.

Lemma keeps_schema_all x :
  forall accept loc,
    keeps (fun ok => ok) true (validateSchemaArray joinKey x accept loc)
    /\ keeps (fun ok => ok) true (validateSchemaObject joinKey x accept loc).
Proof.
  induction x as [x Hpre Hit Hprops Hap] using Schema_induction.
  intros accept loc.
  assert (Hopt : forall o, onSome (fun x => forall accept loc,
              keeps (fun ok => ok) true (validateSchemaArray joinKey x accept loc)
              /\ keeps (fun ok => ok) true (validateSchemaObject joinKey x accept loc)) o ->
            forall a l, keeps (fun ok => ok) true (validateSchemaType joinKey o a l))
    by (intros o Ho; apply keeps_validateSchemaType_on; exact Ho).
  split.
  - rewrite validateSchemaArray_eq.
    eapply keeps_bind with (okA := fun ok : bool => ok).
    + apply keeps_validatePrefixItems.
      * apply Hopt. exact Hit.
      * eapply Forall_impl; [|exact Hpre]. intros xp Hxp. apply Hopt. exact Hxp.
    + intros allOk. destruct (Items x) as [xi|] eqn:E;
        [|apply (keeps_ret (fun ok : bool => ok) allOk)].
      destruct (negb (Never xi)); [|apply (keeps_ret (fun ok : bool => ok) allOk)].
      apply keeps_bind_and; [apply Hopt; exact Hit|].
      intros ok. apply (keeps_ret (fun ok : bool => ok) (allOk && ok)).
  - rewrite validateSchemaObject_eq.
    eapply keeps_bind with (okA := fun ok : bool => ok).
    + apply (keeps_forRange (fun ok : bool => ok)). rewrite Forall_forall in *.
      intros [name px] Hin allOk. specialize (Hprops _ Hin). simpl in Hprops.
      destruct (lookup (Properties accept) name);
        (apply keeps_bind_and; [apply Hopt; exact Hprops|]);
        intros ok; apply (keeps_ret (fun ok : bool => ok) (allOk && ok)).
    + intros allOk. destruct (AdditionalProperties x) as [xa|] eqn:E.
      * destruct (negb (Never xa)); [|apply (keeps_ret (fun ok : bool => ok) allOk)].
        apply keeps_bind_and; [apply Hopt; exact Hap|].
        intros ok. apply (keeps_ret (fun ok : bool => ok) (allOk && ok)).
      * cbv zeta. rewrite checkRequired_eq. cbn [bind].
        rewrite dependentRequired_eq. cbn [keeps].
        intros H. apply andb_prop in H. destruct H as [H Hd].
        apply andb_prop in H. destruct H as [-> Hr].
        split; [reflexivity|].
        rewrite (missingRequired_nil _ _ _ Hr). cbn [app].
        clear - Hd. induction (DependentRequired accept) as [|[name req] deps IH];
          [reflexivity|].
        cbn [forallb flat_map] in *. apply andb_prop in Hd. destruct Hd as [H1 H2].
        rewrite (IH H2), app_nil_r.
        destruct (existsb (String.eqb name) (Required x)); [|reflexivity].
        apply missingRequired_nil. exact H1.
Qed.

Lemma quiet_validateSchemaType x accept loc :
  quiet (validateSchemaType joinKey x accept loc).
Proof.
  apply quiet_keeps. apply keeps_validateSchemaType_on.
  destruct x; simpl; [apply keeps_schema_all | exact I].
Qed.

End QuietSchema.

(** ** Induction over values *)
Section ValueInduction.
Variable P : value -> Prop.

Hypothesis step : forall v,
    match vrepr v with
    | r_slice a => Forall P a
    | r_map m => Forall (fun kv => P (snd kv)) m
    | _ => True
    end -> P v.

Lemma value_induction : forall v, P v.
Proof.
  fix IH 1. intros v. apply step.
  destruct v as [d s sec u r]. simpl. destruct r as [| | | |a|m]; try exact I.
  - induction a as [|w a IHa]; constructor; [apply IH | exact IHa].
  - induction m as [|[k w] m IHm]; constructor; [apply IH | exact IHm].
Qed.
End ValueInduction.

Lemma keeps_bound {A} (get : option A) violated loc format args ok :
  keeps (fun ok => ok) ok
        match get with
        | Some m => clause (violated m) loc format args ok
        | None => ret ok
        end.
Proof.
  destruct get; [apply keeps_clause | apply (keeps_ret (fun ok : bool => ok) ok)].
Qed.

Lemma keeps_error {T} (ok : T -> bool) b loc format args (f : bool -> M T) t :
  (forall a, f a = ret t) -> ok t = false ->
  keeps ok b (bind (validationErrorf loc format args) f).
Proof.
  intros Hf Ht. rewrite validationErrorf_eq. cbn [bind]. rewrite Hf. cbn [ret].
  apply keeps_false. exact Ht.
Qed.

Lemma keeps_bind_unless {T} (okT : T -> bool) b (m : M bool) (f : bool -> M T) :
  keeps (fun ok => ok) true m ->
  (forall a, keeps okT (if negb a then false else b) (f a)) ->
  keeps okT b (bind m f).
Proof.
  intros Hm Hf. apply keeps_bind_and; [exact Hm|].
  intros a. specialize (Hf a). destruct a, b; exact Hf.
Qed.

Section QuietValue.
Variable joinKey : string -> string -> string.
Variable json_Marshal : any -> string + string.
Variable Regexp : Type.
Variable regexp_Compile : string -> option Regexp.
Variable MatchString : Regexp -> string -> bool.
Variable Regexp_String : Regexp -> string.

Local Abbreviation validateElement' :=
  (validateElement joinKey json_Marshal Regexp regexp_Compile MatchString Regexp_String).
Local Abbreviation validateValue' :=
  (validateValue joinKey json_Marshal Regexp regexp_Compile MatchString Regexp_String).

Lemma keeps_validateConst v accept loc :
  keeps (fun ok => ok) true (validateConst json_Marshal v accept loc).
Proof.
  pose proof (keeps_ret (fun ok : bool => ok) true) as Rt.
  unfold validateConst.
  destruct (Const accept); try exact Rt;
    (destruct (equalsConst _ _); [exact Rt|]);
    unfold constError; rewrite validationErrorf_eq; apply keeps_false; reflexivity.
Qed.

Lemma keeps_validateEnum v accept loc :
  keeps (fun ok => ok) true (validateEnum json_Marshal v accept loc).
Proof.
  pose proof (keeps_ret (fun ok : bool => ok) true) as Rt.
  unfold validateEnum.
  destruct (Enum accept) as [|e0 enum]; [exact Rt|].
  destruct (existsb _ _); [exact Rt|].
  unfold enumError, constError. destruct enum;
    rewrite validationErrorf_eq; apply keeps_false; reflexivity.
Qed.

Lemma keeps_validateNumber v accept loc :
  keeps (fun ok => ok) true (validateNumber v accept loc).
Proof.
  unfold validateNumber. destruct (big.ParseFloat v) as [n|].
  2:{ apply keeps_error with (t := false); reflexivity. }
  cbv zeta.
  eapply keeps_bind with (okA := fun ok : bool => ok).
  { destruct (GetMultipleOf accept) as [m|];
      [|apply (keeps_ret (fun ok : bool => ok) true)].
    destruct (big.Quo n m); [apply keeps_clause | exact I]. }
  intros ok0. eapply keeps_bind with (okA := fun ok : bool => ok);
    [apply (keeps_bound (GetMinimum accept) (fun m => big.Cmp n m >? 0))|].
  intros ok1. eapply keeps_bind with (okA := fun ok : bool => ok);
    [apply (keeps_bound (GetExclusiveMinimum accept) (fun m => big.Cmp n m >=? 0))|].
  intros ok2. eapply keeps_bind with (okA := fun ok : bool => ok);
    [apply (keeps_bound (GetMaximum accept) (fun m => big.Cmp n m <? 0))|].
  intros ok3. eapply keeps_bind with (okA := fun ok : bool => ok);
    [apply (keeps_bound (GetExclusiveMaximum accept) (fun m => big.Cmp n m <=? 0))|].
  intros ok4. apply (keeps_ret (fun ok : bool => ok) ok4).
Qed.

Lemma keeps_validateString v accept loc :
  keeps (fun ok => ok) true
        (validateString Regexp regexp_Compile MatchString Regexp_String v accept loc).
Proof.
  unfold validateString. cbv zeta.
  eapply keeps_bind with (okA := fun ok : bool => ok);
    [apply (keeps_bound (GetMinLength accept)
                        (fun m => Z.of_nat (String.length v) <? m))|].
  intros ok0. eapply keeps_bind with (okA := fun ok : bool => ok);
    [apply (keeps_bound (GetMaxLength accept)
                        (fun m => Z.of_nat (String.length v) >? m))|].
  intros ok1. eapply keeps_bind with (okA := fun ok : bool => ok);
    [destruct (GetPattern Regexp regexp_Compile accept);
     [apply keeps_clause | apply (keeps_ret (fun ok : bool => ok) ok1)]|].
  intros ok2. apply (keeps_ret (fun ok : bool => ok) ok2).
Qed.

Lemma keeps_validateArray (vv : value -> option Schema -> validationLoc -> M bool)
      vs accept loc :
  Forall (fun v => forall a l, keeps (fun ok => ok) true (vv v a l)) vs ->
  keeps (fun ok => ok) true (validateArray_ vv vs accept loc).
Proof.
  intros Hvs. unfold validateArray_. cbv zeta.
  eapply keeps_bind with (okA := fun ok : bool => ok);
    [apply (keeps_bound (GetMinItems accept)
                        (fun m => Z.of_nat (List.length vs) <? m))|].
  intros ok0. eapply keeps_bind with (okA := fun ok : bool => ok);
    [apply (keeps_bound (GetMaxItems accept)
                        (fun m => Z.of_nat (List.length vs) >? m))|].
  intros ok1. eapply keeps_bind with (okA := snd).
  - apply (keeps_forRange snd _ vs) with (s := (O, ok1)).
    eapply Forall_impl; [|exact Hvs]. intros v Hv [i ok].
    destruct (nth_error (PrefixItems accept) i);
      (apply keeps_bind_unless; [apply Hv|]);
      intros vok; apply (keeps_ret snd (S i, if negb vok then false else ok)).
  - intros r. apply (keeps_ret (fun ok : bool => ok) (snd r)).
Qed.

Lemma keeps_validateObject (vv : value -> option Schema -> validationLoc -> M bool)
      v accept loc :
  Forall (fun kv => forall a l, keeps (fun ok => ok) true (vv (snd kv) a l)) (entries v) ->
  keeps (fun ok => ok) true (validateObject_ joinKey vv v accept loc).
Proof.
  intros Hvs. unfold validateObject_. cbv zeta.
  eapply keeps_bind with (okA := fun ok : bool => ok);
    [apply (keeps_bound (GetMinProperties accept)
                        (fun m => Z.of_nat (List.length (keys v)) <? m))|].
  intros ok0. eapply keeps_bind with (okA := fun ok : bool => ok);
    [apply (keeps_bound (GetMaxProperties accept)
                        (fun m => Z.of_nat (List.length (keys v)) >? m))|].
  intros ok1. eapply keeps_bind with (okA := fun ok : bool => ok).
  - rewrite forEntries_eq. apply (keeps_forRange (fun ok : bool => ok)).
    eapply Forall_impl; [|exact Hvs]. intros [k kv] Hv ok. simpl in Hv.
    destruct (lookup (Properties accept) k);
      (apply keeps_bind_unless; [apply Hv|]);
      intros vok; apply (keeps_ret (fun ok : bool => ok) (if negb vok then false else ok)).
  - intros ok2. eapply keeps_bind with (okA := fun ok : bool => ok);
      [apply keeps_clause|].
    intros ok3. apply (keeps_ret (fun ok : bool => ok) ok3).
Qed.

Lemma keeps_validateElement v :
  forall accept loc, keeps (fun ok => ok) true (validateElement' v accept loc).
Proof.
  induction v as [v IH] using value_induction. intros accept loc.
  pose proof (keeps_ret (fun ok : bool => ok) true) as Rt.
  assert (Rf : forall b, keeps (fun ok : bool => ok) b (ret false))
    by (intros; apply keeps_false; reflexivity).
  rewrite validateElement_eq.
  destruct (Compile _ _ accept).
  { apply keeps_error with (t := false); reflexivity. }
  destruct accept as [a|]; [|exact Rt].
  destruct (Always a); [exact Rt|].
  destruct (Never a); [apply Rf|].
  destruct (unknown v).
  { apply quiet_keeps. apply quiet_validateSchemaType. }
  apply keeps_bind_and; [apply keeps_validateConst|]. intros cok.
  apply keeps_bind_and; [apply keeps_validateEnum|]. intros eok.
  apply keeps_bind_and; [|intros tok; apply (keeps_ret (fun ok : bool => ok))].
  unfold validateType, validateType_.
  destruct (vrepr v) as [| b | n | s | vs | m] eqn:E;
    (eapply keeps_bind with (okA := fun ok : bool => ok); [apply keeps_checkType|]);
    intros [|]; cbn [negb]; try apply Rf; try exact Rt.
  - apply keeps_validateNumber.
  - apply keeps_validateString.
  - apply keeps_validateArray. eapply Forall_impl; [|exact IH].
    intros w Hw a' l. apply Hw.
  - apply keeps_validateObject. unfold entries. rewrite E.
    eapply Forall_impl; [|exact IH]. intros kv Hw a' l. apply Hw.
Qed.

End QuietValue.

(** ** Where diagnostics are attached *)

Lemma allDiags_ret {T} (P : Diag -> Prop) (t : T) : allDiags P (ret t).
Proof. constructor. Qed.

Lemma allDiags_bind {A T} (P : Diag -> Prop) (m : M A) (f : A -> M T) :
  allDiags P m -> (forall a, allDiags P (f a)) -> allDiags P (bind m f).
Proof.
  intros Hm Hf. destruct m as [[a d1]|]; [|exact I]. simpl.
  specialize (Hf a). destruct (f a) as [[t d2]|]; [|exact I]. simpl in *.
  apply Forall_app. auto.
Qed.

Lemma allDiags_forRange {A S} (P : Diag -> Prop) (body : A -> S -> M S) l :
  Forall (fun a => forall s, allDiags P (body a s)) l ->
  forall s, allDiags P (forRange body l s).
Proof.
  induction 1 as [|a l Ha _ IH]; intros s; cbn [forRange].
  - apply allDiags_ret.
  - apply allDiags_bind; [apply Ha | exact IH].
Qed.

Lemma allDiags_mono {T} (P Q : Diag -> Prop) (m : M T) :
  (forall d, P d -> Q d) -> allDiags P m -> allDiags Q m.
Proof.
  intros H. destruct m as [[t d]|]; [|auto]. simpl. apply Forall_impl. exact H.
Qed.

Lemma within_trans z y e : within z y -> within y e -> within z e.
Proof.
  intros Hzy Hye. induction Hye as [e | y e node els el E Hin _ IH | y e node ps k q E Hin _ IH].
  - exact Hzy.
  - eapply within_element; eauto.
  - eapply within_property; eauto.
Qed.

Lemma within_index loc i : within (x (index loc i)) (x loc).
Proof.
  unfold index. destruct (repr (x loc)) eqn:E; try apply within_refl.
  destruct (nth_error elements i) as [el|] eqn:N; [|apply within_refl].
  simpl. eapply within_element; [exact E | eapply nth_error_In; exact N | apply within_refl].
Qed.

Lemma within_property_loc joinKey loc k : within (x (property joinKey loc k)) (x loc).
Proof.
  unfold property. destruct (repr (x loc)) eqn:E; try apply within_refl.
  destruct (lookup properties k) as [v|] eqn:N; [|apply within_refl].
  simpl. eapply within_property; [exact E | eapply lookup_In; exact N | apply within_refl].
Qed.

Lemma blames_within y e d : within y e -> blames y d -> blames e d.
Proof.
  intros Hy (z & Hz & E). exists z. split; [eapply within_trans; eauto | exact E].
Qed.

Lemma blames_errorAt loc format args : blames (x loc) (errorAt loc format args).
Proof. exists (x loc). split; [apply within_refl | reflexivity]. Qed.

Lemma subvalue_trans u w v : subvalue u w -> subvalue w v -> subvalue u v.
Proof.
  intros Huw Hwv. induction Hwv as [v | w v a e E Hin _ IH | w v m k e E Hin _ IH].
  - exact Huw.
  - eapply subvalue_element; eauto.
  - eapply subvalue_property; eauto.
Qed.

(** The validators without recursion attach their diagnostics to the
    location they are given. *)
Section BlameLeaves.
Variable P : Diag -> Prop.
Variable loc : validationLoc.
Hypothesis Herr : forall format args, P (errorAt loc format args).

Lemma allDiags_validationErrorf format args :
  allDiags P (validationErrorf loc format args).
Proof. rewrite validationErrorf_eq. simpl. auto. Qed.

Lemma allDiags_error {T} format args (f : bool -> M T) :
  (forall a, allDiags P (f a)) ->
  allDiags P (bind (validationErrorf loc format args) f).
Proof. intros Hf. apply allDiags_bind; [apply allDiags_validationErrorf | exact Hf]. Qed.

Lemma allDiags_clause violated format args ok :
  allDiags P (clause violated loc format args ok).
Proof.
  rewrite clause_eq. unfold diagIf. simpl. destruct violated; auto.
Qed.

Lemma allDiags_bound {A} (get : option A) violated format args ok :
  allDiags P match get with
             | Some m => clause (violated m) loc format args ok
             | None => ret ok
             end.
Proof. destruct get; [apply allDiags_clause | apply allDiags_ret]. Qed.

Lemma allDiags_checkType actual accept : allDiags P (checkType actual accept loc).
Proof.
  unfold checkType, typeError. destruct (negb _);
    [apply allDiags_validationErrorf | apply allDiags_ret].
Qed.

Lemma allDiags_validateConst json_Marshal v accept :
  allDiags P (validateConst json_Marshal v accept loc).
Proof.
  unfold validateConst, constError.
  destruct (Const accept); try apply allDiags_ret;
    (destruct (equalsConst _ _); [apply allDiags_ret | apply allDiags_validationErrorf]).
Qed.

Lemma allDiags_validateEnum json_Marshal v accept :
  allDiags P (validateEnum json_Marshal v accept loc).
Proof.
  unfold validateEnum, enumError, constError.
  destruct (Enum accept) as [|e0 enum]; [apply allDiags_ret|].
  destruct (existsb _ _); [apply allDiags_ret|].
  destruct enum; apply allDiags_validationErrorf.
Qed.

Lemma allDiags_validateNumber v accept : allDiags P (validateNumber v accept loc).
Proof.
  unfold validateNumber. destruct (big.ParseFloat v) as [n|].
  2:{ apply allDiags_error. intros; apply allDiags_ret. }
  cbv zeta. apply allDiags_bind.
  { destruct (GetMultipleOf accept) as [m|]; [|apply allDiags_ret].
    destruct (big.Quo n m); [apply allDiags_clause | exact I]. }
  intros ok0. apply allDiags_bind;
    [apply (allDiags_bound (GetMinimum accept) (fun m => big.Cmp n m >? 0))|].
  intros ok1. apply allDiags_bind;
    [apply (allDiags_bound (GetExclusiveMinimum accept) (fun m => big.Cmp n m >=? 0))|].
  intros ok2. apply allDiags_bind;
    [apply (allDiags_bound (GetMaximum accept) (fun m => big.Cmp n m <? 0))|].
  intros ok3. apply allDiags_bind;
    [apply (allDiags_bound (GetExclusiveMaximum accept) (fun m => big.Cmp n m <=? 0))|].
  intros ok4. apply allDiags_ret.
Qed.

Lemma allDiags_validateString Regexp regexp_Compile MatchString Regexp_String v accept :
  allDiags P (validateString Regexp regexp_Compile MatchString Regexp_String v accept loc).
Proof.
  unfold validateString. cbv zeta.
  apply allDiags_bind;
    [apply (allDiags_bound (GetMinLength accept)
                           (fun m => Z.of_nat (String.length v) <? m))|].
  intros ok0. apply allDiags_bind;
    [apply (allDiags_bound (GetMaxLength accept)
                           (fun m => Z.of_nat (String.length v) >? m))|].
  intros ok1. apply allDiags_bind;
    [destruct (GetPattern Regexp regexp_Compile accept);
     [apply allDiags_clause | apply allDiags_ret]|].
  intros ok2. apply allDiags_ret.
Qed.

Lemma allDiags_validateArray (vv : value -> option Schema -> validationLoc -> M bool)
      vs accept :
  Forall (fun v => forall a l, allDiags P (vv v a l)) vs ->
  allDiags P (validateArray_ vv vs accept loc).
Proof.
  intros Hvs. unfold validateArray_. cbv zeta.
  apply allDiags_bind;
    [apply (allDiags_bound (GetMinItems accept)
                           (fun m => Z.of_nat (List.length vs) <? m))|].
  intros ok0. apply allDiags_bind;
    [apply (allDiags_bound (GetMaxItems accept)
                           (fun m => Z.of_nat (List.length vs) >? m))|].
  intros ok1. apply allDiags_bind; [|intros; apply allDiags_ret].
  apply allDiags_forRange. eapply Forall_impl; [|exact Hvs].
  intros v Hv [i ok]. destruct (nth_error (PrefixItems accept) i);
    (apply allDiags_bind; [apply Hv | intros; apply allDiags_ret]).
Qed.

Lemma allDiags_validateObject joinKey
      (vv : value -> option Schema -> validationLoc -> M bool) v accept :
  Forall (fun kv => forall a l, allDiags P (vv (snd kv) a l)) (entries v) ->
  allDiags P (validateObject_ joinKey vv v accept loc).
Proof.
  intros Hvs. unfold validateObject_. cbv zeta.
  apply allDiags_bind;
    [apply (allDiags_bound (GetMinProperties accept)
                           (fun m => Z.of_nat (List.length (keys v)) <? m))|].
  intros ok0. apply allDiags_bind;
    [apply (allDiags_bound (GetMaxProperties accept)
                           (fun m => Z.of_nat (List.length (keys v)) >? m))|].
  intros ok1. apply allDiags_bind.
  - rewrite forEntries_eq. apply allDiags_forRange.
    eapply Forall_impl; [|exact Hvs]. intros [k kv] Hv ok. simpl in Hv.
    destruct (lookup (Properties accept) k);
      (apply allDiags_bind; [apply Hv | intros; apply allDiags_ret]).
  - intros ok2. apply allDiags_bind; [apply allDiags_clause | intros; apply allDiags_ret].
Qed.

End BlameLeaves.

Section BlameSchema.
Variable joinKey : string -> string -> string.

Lemma blames_validateSchemaType_on s :
  onSome (fun s => forall accept loc,
              allDiags (blames (x loc)) (validateSchemaArray joinKey s accept loc)
              /\ allDiags (blames (x loc)) (validateSchemaObject joinKey s accept loc)) s ->
  forall accept loc, allDiags (blames (x loc)) (validateSchemaType joinKey s accept loc).
Proof.
  intros Hs accept loc. unfold validateSchemaType, validateSchemaType_.
  destruct accept as [a|]; [|apply allDiags_ret].
  destruct (Always a); [apply allDiags_ret|].
  destruct (Never a); [apply allDiags_ret|].
  destruct s as [s|]; [|apply allDiags_ret].
  destruct (Always s); [apply allDiags_ret|].
  apply allDiags_bind; [apply allDiags_checkType; apply blames_errorAt|].
  intros ok. destruct ok; cbn [negb]; [|apply allDiags_ret].
  destruct (Hs a loc) as [HA HO].
  destruct (String.eqb (Type_ s) "array"); [exact HA|].
  destruct (String.eqb (Type_ s) "object"); [exact HO|apply allDiags_ret].
Qed.

Lemma blames_index {T} loc i (m : M T) :
  allDiags (blames (x (index loc i))) m -> allDiags (blames (x loc)) m.
Proof. apply allDiags_mono. intros d. apply blames_within, within_index. Qed.

Lemma blames_property {T} loc k (m : M T) :
  allDiags (blames (x (property joinKey loc k))) m -> allDiags (blames (x loc)) m.
Proof. apply allDiags_mono. intros d. apply blames_within, within_property_loc. Qed.

Lemma blames_validatePrefixItems
      (vst : option Schema -> option Schema -> validationLoc -> M bool)
      xItems acceptItems loc xprefix :
  (forall a l, allDiags (blames (x l)) (vst xItems a l)) ->
  Forall (fun xp => forall a l, allDiags (blames (x l)) (vst xp a l)) xprefix ->
  forall aprefix i allOk,
    allDiags (blames (x loc))
             (validatePrefixItems vst xItems acceptItems loc xprefix aprefix i allOk).
Proof.
  intros Hit Hpre. induction Hpre as [|xp xprefix Hxp _ IH]; intros aprefix i allOk.
  - rewrite validatePrefixItems_nil.
    apply allDiags_bind; [|intros; apply allDiags_ret].
    apply allDiags_forRange. apply Forall_forall. intros ap _ [j b].
    apply allDiags_bind; [apply (blames_index loc j), Hit | intros; apply allDiags_ret].
  - destruct aprefix as [|ap aprefix]; cbn [validatePrefixItems];
      (apply allDiags_bind; [apply (blames_index loc i), Hxp | intros ok; apply IH]).
Qed.

Lemma blames_checkRequired xreq loc ra :
  allDiags (blames (x loc)) (checkRequired joinKey xreq loc ra).
Proof.
  unfold checkRequired. apply allDiags_forRange. apply Forall_forall.
  intros name _ ok. destruct (negb (xreq name)); [|apply allDiags_ret].
  apply blames_property with (k := name).
  apply allDiags_error; [apply blames_errorAt | intros; apply allDiags_ret].
Qed.

Lemma blames_schema_all s :
  forall accept loc,
    allDiags (blames (x loc)) (validateSchemaArray joinKey s accept loc)
    /\ allDiags (blames (x loc)) (validateSchemaObject joinKey s accept loc).
Proof.
  induction s as [s Hpre Hit Hprops Hap] using Schema_induction.
  intros accept loc.
  assert (Hopt : forall o, onSome (fun s => forall accept loc,
              allDiags (blames (x loc)) (validateSchemaArray joinKey s accept loc)
              /\ allDiags (blames (x loc)) (validateSchemaObject joinKey s accept loc)) o ->
            forall a l, allDiags (blames (x l)) (validateSchemaType joinKey o a l))
    by (intros o Ho; apply blames_validateSchemaType_on; exact Ho).
  split.
  - rewrite validateSchemaArray_eq. apply allDiags_bind.
    + apply blames_validatePrefixItems.
      * apply Hopt. exact Hit.
      * eapply Forall_impl; [|exact Hpre]. intros xp Hxp. apply Hopt. exact Hxp.
    + intros allOk. destruct (Items s) as [xi|] eqn:E; [|apply allDiags_ret].
      destruct (negb (Never xi)); [|apply allDiags_ret].
      apply allDiags_bind; [apply Hopt; exact Hit | intros; apply allDiags_ret].
  - rewrite validateSchemaObject_eq. apply allDiags_bind.
    + apply allDiags_forRange. rewrite Forall_forall in *.
      intros [name px] Hin allOk. specialize (Hprops _ Hin). simpl in Hprops.
      destruct (lookup (Properties accept) name);
        (apply allDiags_bind;
         [apply blames_property with (k := name); apply Hopt; exact Hprops
         | intros; apply allDiags_ret]).
    + intros allOk. destruct (AdditionalProperties s) as [xa|] eqn:E.
      * destruct (negb (Never xa)); [|apply allDiags_ret].
        apply allDiags_bind; [apply Hopt; exact Hap | intros; apply allDiags_ret].
      * cbv zeta. apply allDiags_bind; [apply blames_checkRequired|].
        intros ok. apply allDiags_forRange. apply Forall_forall.
        intros [name req] _ b. destruct (existsb _ _); [|apply allDiags_ret].
        apply allDiags_bind; [apply blames_checkRequired | intros; apply allDiags_ret].
Qed.

Lemma blames_validateSchemaType s accept loc :
  allDiags (blames (x loc)) (validateSchemaType joinKey s accept loc).
Proof.
  apply blames_validateSchemaType_on.
  destruct s; simpl; [apply blames_schema_all | exact I].
Qed.

End BlameSchema.

Section BlameValue.
Variable joinKey : string -> string -> string.
Variable json_Marshal : any -> string + string.
Variable Regexp : Type.
Variable regexp_Compile : string -> option Regexp.
Variable MatchString : Regexp -> string -> bool.
Variable Regexp_String : Regexp -> string.

Local Abbreviation validateElement' :=
  (validateElement joinKey json_Marshal Regexp regexp_Compile MatchString Regexp_String).

Lemma blames_validateElement v :
  forall accept loc, allDiags (blamesAt loc v) (validateElement' v accept loc).
Proof.
  induction v as [v IH] using value_induction. intros accept loc.
  assert (Herr : forall format args, blamesAt loc v (errorAt loc format args))
    by (intros; left; apply blames_errorAt).
  rewrite validateElement_eq.
  destruct (Compile _ _ accept).
  { apply allDiags_error; [exact Herr | intros; apply allDiags_ret]. }
  destruct accept as [a|]; [|apply allDiags_ret].
  destruct (Always a); [apply allDiags_ret|].
  destruct (Never a); [apply allDiags_ret|].
  destruct (unknown v).
  { eapply allDiags_mono; [|apply blames_validateSchemaType]. intros d Hd. left. exact Hd. }
  apply allDiags_bind; [apply allDiags_validateConst; exact Herr|]. intros cok.
  apply allDiags_bind; [apply allDiags_validateEnum; exact Herr|]. intros eok.
  apply allDiags_bind; [|intros; apply allDiags_ret].
  unfold validateType, validateType_.
  destruct (vrepr v) as [| b | n | s | vs | m] eqn:E;
    (apply allDiags_bind; [apply allDiags_checkType; exact Herr|]);
    intros [|]; cbn [negb]; try apply allDiags_ret.
  - apply allDiags_validateNumber. exact Herr.
  - apply allDiags_validateString. exact Herr.
  - apply allDiags_validateArray; [exact Herr|].
    rewrite Forall_forall in *. intros w Hin a' l. unfold validateValue_.
    eapply allDiags_mono; [|apply (IH w Hin)].
    intros d [Hd | (u & Hu & Hd)]; right.
    + exists w. split; [|exact Hd].
      eapply subvalue_element; [exact E | exact Hin | apply subvalue_refl].
    + exists u. split; [|exact Hd].
      eapply subvalue_element; [exact E | exact Hin | exact Hu].
  - apply allDiags_validateObject; [exact Herr|]. unfold entries. rewrite E.
    rewrite Forall_forall in *. intros [k w] Hin a' l. unfold validateValue_.
    eapply allDiags_mono; [|apply (IH _ Hin)]. simpl.
    intros d [Hd | (u & Hu & Hd)]; right.
    + exists w. split; [|exact Hd].
      eapply subvalue_property; [exact E | exact Hin | apply subvalue_refl].
    + exists u. split; [|exact Hd].
      eapply subvalue_property; [exact E | exact Hin | exact Hu].
Qed.

End BlameValue.

(** ** A failure is reported, unless a [never] schema causes it *)

Lemma loud_ret {T} (ok : T -> bool) t : loud ok (ok t) (ret t).
Proof. simpl. auto. Qed.

Lemma loud_true {T} (ok : T -> bool) b t d : ok t = true -> loud ok b (Some (t, d)).
Proof. simpl. intros -> H. discriminate. Qed.

Lemma loud_diag {T} (ok : T -> bool) b t d : d <> [] -> loud ok b (Some (t, d)).
Proof. simpl. auto. Qed.

Lemma loud_bind {A T} (okA : A -> bool) (okT : T -> bool) b (m : M A) (f : A -> M T) :
  loud okA b m -> (forall a, loud okT (okA a) (f a)) -> loud okT b (bind m f).
Proof.
  intros Hm Hf. destruct m as [[a d1]|]; [|exact I]. simpl.
  specialize (Hf a). destruct (f a) as [[t d2]|]; [|exact I]. simpl in *.
  intros Ht. destruct (Hf Ht) as [Ha|Hd].
  - destruct (Hm Ha) as [Hb|Hd]; [left; exact Hb|].
    right. intros E. apply app_eq_nil in E. tauto.
  - right. intros E. apply app_eq_nil in E. tauto.
Qed.

Lemma loud_bind_and {T} (okT : T -> bool) b (m : M bool) (f : bool -> M T) :
  loud (fun ok => ok) true m -> (forall a, loud okT (b && a) (f a)) ->
  loud okT b (bind m f).
Proof.
  intros Hm Hf. destruct m as [[a d1]|]; [|exact I]. simpl.
  specialize (Hf a). destruct (f a) as [[t d2]|]; [|exact I]. simpl in *.
  intros Ht. destruct (Hf Ht) as [Ha|Hd].
  - apply andb_false_iff in Ha. destruct Ha as [Hb|Ha]; [left; exact Hb|].
    destruct (Hm Ha) as [Hb|Hd]; [discriminate|].
    right. intros E. apply app_eq_nil in E. tauto.
  - right. intros E. apply app_eq_nil in E. tauto.
Qed.

Lemma loud_bind_unless {T} (okT : T -> bool) b (m : M bool) (f : bool -> M T) :
  loud (fun ok => ok) true m ->
  (forall a, loud okT (if negb a then false else b) (f a)) ->
  loud okT b (bind m f).
Proof.
  intros Hm Hf. apply loud_bind_and; [exact Hm|].
  intros a. specialize (Hf a). destruct a, b; exact Hf.
Qed.

Lemma loud_forRange {A S} (ok : S -> bool) (body : A -> S -> M S) l :
  Forall (fun a => forall s, loud ok (ok s) (body a s)) l ->
  forall s, loud ok (ok s) (forRange body l s).
Proof.
  induction 1 as [|a l Ha _ IH]; intros s; cbn [forRange].
  - apply loud_ret.
  - eapply loud_bind; [apply Ha | exact IH].
Qed.

Lemma loud_error {T} (ok : T -> bool) b loc format args (f : bool -> M T) t :
  (forall a, f a = ret t) -> loud ok b (bind (validationErrorf loc format args) f).
Proof.
  intros Hf. rewrite validationErrorf_eq. cbn [bind]. rewrite Hf. cbn [ret].
  apply loud_diag. discriminate.
Qed.

Lemma loud_validationErrorf b loc format args :
  loud (fun ok => ok) b (validationErrorf loc format args).
Proof. rewrite validationErrorf_eq. apply loud_diag. discriminate. Qed.

Lemma loud_clause violated loc format args ok :
  loud (fun ok => ok) ok (clause violated loc format args ok).
Proof.
  rewrite clause_eq. unfold diagIf. simpl. intros H. apply andb_false_iff in H.
  destruct H as [H|H]; [left; exact H|].
  destruct violated; [right; discriminate | discriminate].
Qed.

Lemma loud_bound {A} (get : option A) violated loc format args ok :
  loud (fun ok => ok) ok
       match get with
       | Some m => clause (violated m) loc format args ok
       | None => ret ok
       end.
Proof.
  destruct get; [apply loud_clause | apply (loud_ret (fun ok : bool => ok) ok)].
Qed.

Lemma loud_checkType actual accept loc :
  loud (fun ok => ok) true (checkType actual accept loc).
Proof.
  unfold checkType, typeError. destruct (negb _);
    [apply loud_validationErrorf | apply (loud_ret (fun ok : bool => ok) true)].
Qed.

Section LoudSchema.
Variable joinKey : string -> string -> string.

Lemma loud_validateSchemaType_on x :
  onSome (fun x => forall accept loc, ~ hasNever accept ->
              loud (fun ok => ok) true (validateSchemaArray joinKey x accept loc)
              /\ loud (fun ok => ok) true (validateSchemaObject joinKey x accept loc)) x ->
  forall accept loc, ~ neverIn accept ->
    loud (fun ok => ok) true (validateSchemaType joinKey x accept loc).
Proof.
  intros Hx accept loc Hn. unfold validateSchemaType, validateSchemaType_.
  pose proof (loud_ret (fun ok : bool => ok) true) as Rt.
  destruct accept as [a|]; [|exact Rt]. simpl in Hn.
  destruct (Always a); [exact Rt|].
  destruct (Never a) eqn:N; [destruct Hn; apply hasNever_here; exact N|].
  destruct x as [x|]; [|exact Rt].
  destruct (Always x); [exact Rt|].
  apply loud_bind_and; [apply loud_checkType|].
  intros ok. destruct ok; cbn [negb andb]; [|apply (loud_ret (fun ok : bool => ok) false)].
  destruct (Hx a loc Hn) as [HA HO].
  destruct (String.eqb (Type_ x) "array"); [exact HA|].
  destruct (String.eqb (Type_ x) "object"); [exact HO|exact Rt].
Qed.

Lemma loud_validatePrefixItems
      (vst : option Schema -> option Schema -> validationLoc -> M bool)
      xItems acceptItems loc xprefix :
  (forall a l, ~ neverIn a -> loud (fun ok => ok) true (vst xItems a l)) ->
  Forall (fun xp => forall a l, ~ neverIn a -> loud (fun ok => ok) true (vst xp a l))
         xprefix ->
  ~ neverIn acceptItems ->
  forall aprefix i allOk,
    Forall (fun ap => ~ neverIn ap) aprefix ->
    loud (fun ok => ok) allOk
         (validatePrefixItems vst xItems acceptItems loc xprefix aprefix i allOk).
Proof.
  intros Hit Hpre Hai.
  induction Hpre as [|xp xprefix Hxp _ IH]; intros aprefix i allOk Hap.
  - rewrite validatePrefixItems_nil.
    eapply loud_bind with (okA := snd).
    + apply (loud_forRange snd). eapply Forall_impl; [|exact Hap]. intros ap Hn [j b].
      apply loud_bind_and; [apply Hit; exact Hn|].
      intros ok. apply (loud_ret snd (S j, b && ok)).
    + intros r. apply (loud_ret (fun ok : bool => ok) (snd r)).
  - destruct aprefix as [|ap aprefix]; cbn [validatePrefixItems].
    + apply loud_bind_and; [apply Hxp; exact Hai | intros ok; apply IH; constructor].
    + inversion Hap; subst.
      apply loud_bind_and; [apply Hxp; assumption | intros ok; apply IH; assumption].
Qed.

Lemma loud_checkRequired xreq loc ra :
  loud (fun ok => ok) true (checkRequired joinKey xreq loc ra).
Proof.
  unfold checkRequired. apply (loud_forRange (fun ok : bool => ok)) with (s := true).
  apply Forall_forall. intros name _ ok.
  destruct (negb (xreq name)); [|apply (loud_ret (fun ok : bool => ok) ok)].
  apply loud_error with (t := false). reflexivity.
Qed.

Lemma loud_schema_all x :
  forall accept loc, ~ hasNever accept ->
    loud (fun ok => ok) true (validateSchemaArray joinKey x accept loc)
    /\ loud (fun ok => ok) true (validateSchemaObject joinKey x accept loc).
Proof.
  induction x as [x Hpre Hit Hprops Hap] using Schema_induction.
  intros accept loc Hn.
  assert (Hopt : forall o, onSome (fun x => forall accept loc, ~ hasNever accept ->
              loud (fun ok => ok) true (validateSchemaArray joinKey x accept loc)
              /\ loud (fun ok => ok) true (validateSchemaObject joinKey x accept loc)) o ->
            forall a l, ~ neverIn a ->
              loud (fun ok => ok) true (validateSchemaType joinKey o a l))
    by (intros o Ho; apply loud_validateSchemaType_on; exact Ho).
  assert (Hitems : ~ neverIn (Items accept)).
  { destruct (Items accept) as [c|] eqn:E; simpl; [|tauto].
    intros Hc. apply Hn. eapply hasNever_items; eauto. }
  assert (Hadd : ~ neverIn (AdditionalProperties accept)).
  { destruct (AdditionalProperties accept) as [c|] eqn:E; simpl; [|tauto].
    intros Hc. apply Hn. eapply hasNever_additional; eauto. }
  split.
  - rewrite validateSchemaArray_eq.
    eapply loud_bind with (okA := fun ok : bool => ok).
    + apply loud_validatePrefixItems.
      * apply Hopt. exact Hit.
      * eapply Forall_impl; [|exact Hpre]. intros xp Hxp. apply Hopt. exact Hxp.
      * exact Hitems.
      * apply Forall_forall. intros [c|] Hin; simpl; [|tauto].
        intros Hc. apply Hn. eapply hasNever_prefixItem; eauto.
    + intros allOk. destruct (Items x) as [xi|] eqn:E;
        [|apply (loud_ret (fun ok : bool => ok) allOk)].
      destruct (negb (Never xi)); [|apply (loud_ret (fun ok : bool => ok) allOk)].
      apply loud_bind_and; [apply Hopt; [exact Hit | exact Hitems]|].
      intros ok. apply (loud_ret (fun ok : bool => ok) (allOk && ok)).
  - rewrite validateSchemaObject_eq.
    eapply loud_bind with (okA := fun ok : bool => ok).
    + apply (loud_forRange (fun ok : bool => ok)). rewrite Forall_forall in *.
      intros [name px] Hin allOk. specialize (Hprops _ Hin). simpl in Hprops.
      destruct (lookup (Properties accept) name) as [pa|] eqn:L.
      * apply loud_bind_and.
        -- apply Hopt; [exact Hprops|]. destruct pa as [c|]; simpl; [|tauto].
           intros Hc. apply Hn. eapply hasNever_property; [|exact Hc].
           eapply lookup_In. exact L.
        -- intros ok. apply (loud_ret (fun ok : bool => ok) (allOk && ok)).
      * apply loud_bind_and; [apply Hopt; [exact Hprops | exact Hadd]|].
        intros ok. apply (loud_ret (fun ok : bool => ok) (allOk && ok)).
    + intros allOk. destruct (AdditionalProperties x) as [xa|] eqn:E.
      * destruct (negb (Never xa)); [|apply (loud_ret (fun ok : bool => ok) allOk)].
        apply loud_bind_and; [apply Hopt; [exact Hap | exact Hadd]|].
        intros ok. apply (loud_ret (fun ok : bool => ok) (allOk && ok)).
      * cbv zeta. apply loud_bind_and; [apply loud_checkRequired|].
        intros ok. apply (loud_forRange (fun ok : bool => ok)). apply Forall_forall.
        intros [name req] _ b. destruct (existsb _ _);
          [|apply (loud_ret (fun ok : bool => ok) b)].
        apply loud_bind_and; [apply loud_checkRequired|].
        intros ok'. apply (loud_ret (fun ok : bool => ok) (b && ok')).
Qed.

Lemma loud_validateSchemaType x accept loc :
  ~ neverIn accept -> loud (fun ok => ok) true (validateSchemaType joinKey x accept loc).
Proof.
  apply loud_validateSchemaType_on.
  destruct x; simpl; [apply loud_schema_all | exact I].
Qed.

End LoudSchema.

Section LoudValue.
Variable joinKey : string -> string -> string.
Variable json_Marshal : any -> string + string.
Variable Regexp : Type.
Variable regexp_Compile : string -> option Regexp.
Variable MatchString : Regexp -> string -> bool.
Variable Regexp_String : Regexp -> string.

Local Abbreviation validateElement' :=
  (validateElement joinKey json_Marshal Regexp regexp_Compile MatchString Regexp_String).

Lemma loud_validateConst v accept loc :
  loud (fun ok => ok) true (validateConst json_Marshal v accept loc).
Proof.
  pose proof (loud_ret (fun ok : bool => ok) true) as Rt.
  unfold validateConst, constError.
  destruct (Const accept); try exact Rt;
    (destruct (equalsConst _ _); [exact Rt | apply loud_validationErrorf]).
Qed.

Lemma loud_validateEnum v accept loc :
  loud (fun ok => ok) true (validateEnum json_Marshal v accept loc).
Proof.
  pose proof (loud_ret (fun ok : bool => ok) true) as Rt.
  unfold validateEnum, enumError, constError.
  destruct (Enum accept) as [|e0 enum]; [exact Rt|].
  destruct (existsb _ _); [exact Rt|].
  destruct enum; apply loud_validationErrorf.
Qed.

Lemma loud_validateNumber v accept loc :
  loud (fun ok => ok) true (validateNumber v accept loc).
Proof.
  unfold validateNumber. destruct (big.ParseFloat v) as [n|].
  2:{ apply loud_error with (t := false); reflexivity. }
  cbv zeta.
  eapply loud_bind with (okA := fun ok : bool => ok).
  { destruct (GetMultipleOf accept) as [m|];
      [|apply (loud_ret (fun ok : bool => ok) true)].
    destruct (big.Quo n m); [apply loud_clause | exact I]. }
  intros ok0. eapply loud_bind with (okA := fun ok : bool => ok);
    [apply (loud_bound (GetMinimum accept) (fun m => big.Cmp n m >? 0))|].
  intros ok1. eapply loud_bind with (okA := fun ok : bool => ok);
    [apply (loud_bound (GetExclusiveMinimum accept) (fun m => big.Cmp n m >=? 0))|].
  intros ok2. eapply loud_bind with (okA := fun ok : bool => ok);
    [apply (loud_bound (GetMaximum accept) (fun m => big.Cmp n m <? 0))|].
  intros ok3. eapply loud_bind with (okA := fun ok : bool => ok);
    [apply (loud_bound (GetExclusiveMaximum accept) (fun m => big.Cmp n m <=? 0))|].
  intros ok4. apply (loud_ret (fun ok : bool => ok) ok4).
Qed.

Lemma loud_validateString v accept loc :
  loud (fun ok => ok) true
       (validateString Regexp regexp_Compile MatchString Regexp_String v accept loc).
Proof.
  unfold validateString. cbv zeta.
  eapply loud_bind with (okA := fun ok : bool => ok);
    [apply (loud_bound (GetMinLength accept)
                       (fun m => Z.of_nat (String.length v) <? m))|].
  intros ok0. eapply loud_bind with (okA := fun ok : bool => ok);
    [apply (loud_bound (GetMaxLength accept)
                       (fun m => Z.of_nat (String.length v) >? m))|].
  intros ok1. eapply loud_bind with (okA := fun ok : bool => ok);
    [destruct (GetPattern Regexp regexp_Compile accept);
     [apply loud_clause | apply (loud_ret (fun ok : bool => ok) ok1)]|].
  intros ok2. apply (loud_ret (fun ok : bool => ok) ok2).
Qed.

Lemma loud_validateArray (vv : value -> option Schema -> validationLoc -> M bool)
      vs accept loc :
  Forall (fun v => forall a l, ~ neverIn a -> loud (fun ok => ok) true (vv v a l)) vs ->
  ~ hasNever accept ->
  loud (fun ok => ok) true (validateArray_ vv vs accept loc).
Proof.
  intros Hvs Hn. unfold validateArray_. cbv zeta.
  eapply loud_bind with (okA := fun ok : bool => ok);
    [apply (loud_bound (GetMinItems accept)
                       (fun m => Z.of_nat (List.length vs) <? m))|].
  intros ok0. eapply loud_bind with (okA := fun ok : bool => ok);
    [apply (loud_bound (GetMaxItems accept)
                       (fun m => Z.of_nat (List.length vs) >? m))|].
  intros ok1. eapply loud_bind with (okA := snd).
  - apply (loud_forRange snd _ vs) with (s := (O, ok1)).
    eapply Forall_impl; [|exact Hvs]. intros v Hv [i ok].
    destruct (nth_error (PrefixItems accept) i) as [p|] eqn:N.
    + apply loud_bind_unless.
      * apply Hv. destruct p as [c|]; simpl; [|tauto].
        intros Hc. apply Hn. eapply hasNever_prefixItem; [|exact Hc].
        eapply nth_error_In. exact N.
      * intros vok. apply (loud_ret snd (S i, if negb vok then false else ok)).
    + apply loud_bind_unless.
      * apply Hv. destruct (Items accept) as [c|] eqn:E; simpl; [|tauto].
        intros Hc. apply Hn. eapply hasNever_items; eauto.
      * intros vok. apply (loud_ret snd (S i, if negb vok then false else ok)).
  - intros r. apply (loud_ret (fun ok : bool => ok) (snd r)).
Qed.

Lemma loud_validateObject (vv : value -> option Schema -> validationLoc -> M bool)
      v accept loc :
  Forall (fun kv => forall a l, ~ neverIn a -> loud (fun ok => ok) true (vv (snd kv) a l))
         (entries v) ->
  ~ hasNever accept ->
  loud (fun ok => ok) true (validateObject_ joinKey vv v accept loc).
Proof.
  intros Hvs Hn. unfold validateObject_. cbv zeta.
  eapply loud_bind with (okA := fun ok : bool => ok);
    [apply (loud_bound (GetMinProperties accept)
                       (fun m => Z.of_nat (List.length (keys v)) <? m))|].
  intros ok0. eapply loud_bind with (okA := fun ok : bool => ok);
    [apply (loud_bound (GetMaxProperties accept)
                       (fun m => Z.of_nat (List.length (keys v)) >? m))|].
  intros ok1. eapply loud_bind with (okA := fun ok : bool => ok).
  - rewrite forEntries_eq. apply (loud_forRange (fun ok : bool => ok)).
    eapply Forall_impl; [|exact Hvs]. intros [k kv] Hv ok. simpl in Hv.
    destruct (lookup (Properties accept) k) as [p|] eqn:L.
    + apply loud_bind_unless.
      * apply Hv. destruct p as [c|]; simpl; [|tauto].
        intros Hc. apply Hn. eapply hasNever_property; [|exact Hc].
        eapply lookup_In. exact L.
      * intros vok. apply (loud_ret (fun ok : bool => ok) (if negb vok then false else ok)).
    + apply loud_bind_unless.
      * apply Hv. destruct (AdditionalProperties accept) as [c|] eqn:E; simpl; [|tauto].
        intros Hc. apply Hn. eapply hasNever_additional; eauto.
      * intros vok. apply (loud_ret (fun ok : bool => ok) (if negb vok then false else ok)).
  - intros ok2. eapply loud_bind with (okA := fun ok : bool => ok);
      [apply loud_clause|].
    intros ok3. apply (loud_ret (fun ok : bool => ok) ok3).
Qed.

Lemma loud_validateElement v :
  forall accept loc, ~ neverIn accept ->
    loud (fun ok => ok) true (validateElement' v accept loc).
Proof.
  induction v as [v IH] using value_induction. intros accept loc Hn.
  pose proof (loud_ret (fun ok : bool => ok) true) as Rt.
  pose proof (loud_ret (fun ok : bool => ok) false) as Rf.
  rewrite validateElement_eq.
  destruct (Compile _ _ accept).
  { apply loud_error with (t := false); reflexivity. }
  destruct accept as [a|]; [|exact Rt]. simpl in Hn.
  destruct (Always a); [exact Rt|].
  destruct (Never a) eqn:N; [destruct Hn; apply hasNever_here; exact N|].
  destruct (unknown v).
  { apply loud_validateSchemaType. exact Hn. }
  apply loud_bind_and; [apply loud_validateConst|]. intros cok.
  apply loud_bind_and; [apply loud_validateEnum|]. intros eok.
  apply loud_bind_and; [|intros tok; apply (loud_ret (fun ok : bool => ok))].
  unfold validateType, validateType_.
  destruct (vrepr v) as [| b | n | s | vs | m] eqn:E;
    (apply loud_bind_and; [apply loud_checkType|]);
    intros [|]; cbn [negb andb]; try exact Rf; try exact Rt.
  - apply loud_validateNumber.
  - apply loud_validateString.
  - apply loud_validateArray; [|exact Hn]. eapply Forall_impl; [|exact IH].
    intros w Hw a' l. apply Hw.
  - apply loud_validateObject; [|exact Hn]. unfold entries. rewrite E.
    eapply Forall_impl; [|exact IH]. intros kv Hw a' l. apply Hw.
Qed.

End LoudValue.

(** ** The verdict does not depend on the location *)

Lemma sv_ret {A} (a : A) : sameVerdict (ret a) (ret a).
Proof. simpl. auto. Qed.

Lemma sv_bind {A B} (m1 m2 : M A) (f1 f2 : A -> M B) :
  sameVerdict m1 m2 -> (forall a, sameVerdict (f1 a) (f2 a)) ->
  sameVerdict (bind m1 f1) (bind m2 f2).
Proof.
  intros Hm Hf. destruct m1 as [[a1 d1]|], m2 as [[a2 d2]|]; simpl in *; try tauto.
  destruct Hm as [<- Hd]. specialize (Hf a1).
  destruct (f1 a1) as [[b1 e1]|], (f2 a1) as [[b2 e2]|]; simpl in *; try tauto.
  destruct Hf as [<- He]. split; [reflexivity|]. rewrite !length_app. congruence.
Qed.

Lemma sv_forRange {A S} (body1 body2 : A -> S -> M S) l :
  Forall (fun a => forall s, sameVerdict (body1 a s) (body2 a s)) l ->
  forall s, sameVerdict (forRange body1 l s) (forRange body2 l s).
Proof.
  induction 1 as [|a l Ha _ IH]; intros s; cbn [forRange].
  - apply sv_ret.
  - apply sv_bind; [apply Ha | exact IH].
Qed.

Lemma sv_validationErrorf loc loc' format format' args args' :
  sameVerdict (validationErrorf loc format args) (validationErrorf loc' format' args').
Proof. rewrite !validationErrorf_eq. simpl. auto. Qed.

Lemma sv_error {T} loc loc' format format' args args' (f : bool -> M T) :
  (forall a, sameVerdict (f a) (f a)) ->
  sameVerdict (bind (validationErrorf loc format args) f)
              (bind (validationErrorf loc' format' args') f).
Proof. intros Hf. apply sv_bind; [apply sv_validationErrorf | exact Hf]. Qed.

Lemma sv_clause violated loc loc' format args args' ok :
  sameVerdict (clause violated loc format args ok) (clause violated loc' format args' ok).
Proof. rewrite !clause_eq. unfold diagIf. simpl. destruct violated; auto. Qed.

Lemma sv_bound {A} (get : option A) violated loc loc' format args ok :
  sameVerdict match get with
              | Some m => clause (violated m) loc format args ok
              | None => ret ok
              end
              match get with
              | Some m => clause (violated m) loc' format args ok
              | None => ret ok
              end.
Proof. destruct get; [apply sv_clause | apply sv_ret]. Qed.

Lemma sv_checkType actual accept loc loc' :
  sameVerdict (checkType actual accept loc) (checkType actual accept loc').
Proof.
  unfold checkType, typeError. destruct (negb _);
    [apply sv_validationErrorf | apply sv_ret].
Qed.

Section VerdictSchema.
Variables joinKey joinKey' : string -> string -> string.

Lemma sv_validateSchemaType_on x :
  onSome (fun x => forall accept loc loc',
              sameVerdict (validateSchemaArray joinKey x accept loc)
                          (validateSchemaArray joinKey' x accept loc')
              /\ sameVerdict (validateSchemaObject joinKey x accept loc)
                             (validateSchemaObject joinKey' x accept loc')) x ->
  forall accept loc loc',
    sameVerdict (validateSchemaType joinKey x accept loc)
                (validateSchemaType joinKey' x accept loc').
Proof.
  intros Hx accept loc loc'. unfold validateSchemaType, validateSchemaType_.
  destruct accept as [a|]; [|apply sv_ret].
  destruct (Always a); [apply sv_ret|].
  destruct (Never a); [apply sv_ret|].
  destruct x as [x|]; [|apply sv_ret].
  destruct (Always x); [apply sv_ret|].
  apply sv_bind; [apply sv_checkType|].
  intros ok. destruct ok; cbn [negb]; [|apply sv_ret].
  destruct (Hx a loc loc') as [HA HO].
  destruct (String.eqb (Type_ x) "array"); [exact HA|].
  destruct (String.eqb (Type_ x) "object"); [exact HO|apply sv_ret].
Qed.

Lemma sv_validatePrefixItems
      (vst vst' : option Schema -> option Schema -> validationLoc -> M bool)
      xItems acceptItems loc loc' xprefix :
  (forall a l l', sameVerdict (vst xItems a l) (vst' xItems a l')) ->
  Forall (fun xp => forall a l l', sameVerdict (vst xp a l) (vst' xp a l')) xprefix ->
  forall aprefix i allOk,
    sameVerdict (validatePrefixItems vst xItems acceptItems loc xprefix aprefix i allOk)
                (validatePrefixItems vst' xItems acceptItems loc' xprefix aprefix i allOk).
Proof.
  intros Hit Hpre. induction Hpre as [|xp xprefix Hxp _ IH]; intros aprefix i allOk.
  - rewrite !validatePrefixItems_nil.
    apply sv_bind; [|intros; apply sv_ret].
    apply sv_forRange. apply Forall_forall. intros ap _ [j b].
    apply sv_bind; [apply Hit | intros; apply sv_ret].
  - destruct aprefix as [|ap aprefix]; cbn [validatePrefixItems];
      (apply sv_bind; [apply Hxp | intros ok; apply IH]).
Qed.

Lemma sv_checkRequired xreq loc loc' ra :
  sameVerdict (checkRequired joinKey xreq loc ra) (checkRequired joinKey' xreq loc' ra).
Proof.
  unfold checkRequired. apply sv_forRange. apply Forall_forall.
  intros name _ ok. destruct (negb (xreq name)); [|apply sv_ret].
  apply sv_error. intros; apply sv_ret.
Qed.

Lemma sv_schema_all x :
  forall accept loc loc',
    sameVerdict (validateSchemaArray joinKey x accept loc)
                (validateSchemaArray joinKey' x accept loc')
    /\ sameVerdict (validateSchemaObject joinKey x accept loc)
                   (validateSchemaObject joinKey' x accept loc').
Proof.
  induction x as [x Hpre Hit Hprops Hap] using Schema_induction.
  intros accept loc loc'.
  assert (Hopt : forall o, onSome (fun x => forall accept loc loc',
              sameVerdict (validateSchemaArray joinKey x accept loc)
                          (validateSchemaArray joinKey' x accept loc')
              /\ sameVerdict (validateSchemaObject joinKey x accept loc)
                             (validateSchemaObject joinKey' x accept loc')) o ->
            forall a l l', sameVerdict (validateSchemaType joinKey o a l)
                                       (validateSchemaType joinKey' o a l'))
    by (intros o Ho; apply sv_validateSchemaType_on; exact Ho).
  split.
  - rewrite !validateSchemaArray_eq. apply sv_bind.
    + apply sv_validatePrefixItems.
      * apply Hopt. exact Hit.
      * eapply Forall_impl; [|exact Hpre]. intros xp Hxp. apply Hopt. exact Hxp.
    + intros allOk. destruct (Items x) as [xi|] eqn:E; [|apply sv_ret].
      destruct (negb (Never xi)); [|apply sv_ret].
      apply sv_bind; [apply Hopt; exact Hit | intros; apply sv_ret].
  - rewrite !validateSchemaObject_eq. apply sv_bind.
    + apply sv_forRange. rewrite Forall_forall in *.
      intros [name px] Hin allOk. specialize (Hprops _ Hin). simpl in Hprops.
      destruct (lookup (Properties accept) name);
        (apply sv_bind; [apply Hopt; exact Hprops | intros; apply sv_ret]).
    + intros allOk. destruct (AdditionalProperties x) as [xa|] eqn:E.
      * destruct (negb (Never xa)); [|apply sv_ret].
        apply sv_bind; [apply Hopt; exact Hap | intros; apply sv_ret].
      * cbv zeta. apply sv_bind; [apply sv_checkRequired|].
        intros ok. apply sv_forRange. apply Forall_forall.
        intros [name req] _ b. destruct (existsb _ _); [|apply sv_ret].
        apply sv_bind; [apply sv_checkRequired | intros; apply sv_ret].
Qed.

Lemma sv_validateSchemaType x accept loc loc' :
  sameVerdict (validateSchemaType joinKey x accept loc)
              (validateSchemaType joinKey' x accept loc').
Proof.
  apply sv_validateSchemaType_on.
  destruct x; simpl; [apply sv_schema_all | exact I].
Qed.

End VerdictSchema.

Section VerdictValue.
Variables joinKey joinKey' : string -> string -> string.
Variables json_Marshal json_Marshal' : any -> string + string.
Variable Regexp : Type.
Variable regexp_Compile : string -> option Regexp.
Variable MatchString : Regexp -> string -> bool.
Variables Regexp_String Regexp_String' : Regexp -> string.

Lemma sv_validateConst v accept loc loc' :
  sameVerdict (validateConst json_Marshal v accept loc)
              (validateConst json_Marshal' v accept loc').
Proof.
  unfold validateConst, constError.
  destruct (Const accept); try apply sv_ret;
    (destruct (equalsConst _ _); [apply sv_ret | apply sv_validationErrorf]).
Qed.

Lemma sv_validateEnum v accept loc loc' :
  sameVerdict (validateEnum json_Marshal v accept loc)
              (validateEnum json_Marshal' v accept loc').
Proof.
  unfold validateEnum, enumError, constError.
  destruct (Enum accept) as [|e0 enum]; [apply sv_ret|].
  destruct (existsb _ _); [apply sv_ret|].
  destruct enum; apply sv_validationErrorf.
Qed.

Lemma sv_validateNumber v accept loc loc' :
  sameVerdict (validateNumber v accept loc) (validateNumber v accept loc').
Proof.
  unfold validateNumber. destruct (big.ParseFloat v) as [n|].
  2:{ apply sv_error. intros; apply sv_ret. }
  cbv zeta. apply sv_bind.
  { destruct (GetMultipleOf accept) as [m|]; [|apply sv_ret].
    destruct (big.Quo n m); [apply sv_clause | exact I]. }
  intros ok0. apply sv_bind;
    [apply (sv_bound (GetMinimum accept) (fun m => big.Cmp n m >? 0))|].
  intros ok1. apply sv_bind;
    [apply (sv_bound (GetExclusiveMinimum accept) (fun m => big.Cmp n m >=? 0))|].
  intros ok2. apply sv_bind;
    [apply (sv_bound (GetMaximum accept) (fun m => big.Cmp n m <? 0))|].
  intros ok3. apply sv_bind;
    [apply (sv_bound (GetExclusiveMaximum accept) (fun m => big.Cmp n m <=? 0))|].
  intros ok4. apply sv_ret.
Qed.

Lemma sv_validateString v accept loc loc' :
  sameVerdict
    (validateString Regexp regexp_Compile MatchString Regexp_String v accept loc)
    (validateString Regexp regexp_Compile MatchString Regexp_String' v accept loc').
Proof.
  unfold validateString. cbv zeta.
  apply sv_bind;
    [apply (sv_bound (GetMinLength accept)
                     (fun m => Z.of_nat (String.length v) <? m))|].
  intros ok0. apply sv_bind;
    [apply (sv_bound (GetMaxLength accept)
                     (fun m => Z.of_nat (String.length v) >? m))|].
  intros ok1. apply sv_bind;
    [destruct (GetPattern Regexp regexp_Compile accept);
     [apply sv_clause | apply sv_ret]|].
  intros ok2. apply sv_ret.
Qed.

Lemma sv_validateArray (vv vv' : value -> option Schema -> validationLoc -> M bool)
      vs accept loc loc' :
  Forall (fun v => forall a l l', sameVerdict (vv v a l) (vv' v a l')) vs ->
  sameVerdict (validateArray_ vv vs accept loc) (validateArray_ vv' vs accept loc').
Proof.
  intros Hvs. unfold validateArray_. cbv zeta.
  apply sv_bind;
    [apply (sv_bound (GetMinItems accept)
                     (fun m => Z.of_nat (List.length vs) <? m))|].
  intros ok0. apply sv_bind;
    [apply (sv_bound (GetMaxItems accept)
                     (fun m => Z.of_nat (List.length vs) >? m))|].
  intros ok1. apply sv_bind; [|intros; apply sv_ret].
  apply sv_forRange. eapply Forall_impl; [|exact Hvs].
  intros v Hv [i ok]. destruct (nth_error (PrefixItems accept) i);
    (apply sv_bind; [apply Hv | intros; apply sv_ret]).
Qed.

Lemma sv_validateObject (vv vv' : value -> option Schema -> validationLoc -> M bool)
      v accept loc loc' :
  Forall (fun kv => forall a l l', sameVerdict (vv (snd kv) a l) (vv' (snd kv) a l'))
         (entries v) ->
  sameVerdict (validateObject_ joinKey vv v accept loc)
              (validateObject_ joinKey' vv' v accept loc').
Proof.
  intros Hvs. unfold validateObject_. cbv zeta.
  apply sv_bind;
    [apply (sv_bound (GetMinProperties accept)
                     (fun m => Z.of_nat (List.length (keys v)) <? m))|].
  intros ok0. apply sv_bind;
    [apply (sv_bound (GetMaxProperties accept)
                     (fun m => Z.of_nat (List.length (keys v)) >? m))|].
  intros ok1. apply sv_bind.
  - rewrite !forEntries_eq. apply sv_forRange.
    eapply Forall_impl; [|exact Hvs]. intros [k kv] Hv ok. simpl in Hv.
    destruct (lookup (Properties accept) k);
      (apply sv_bind; [apply Hv | intros; apply sv_ret]).
  - intros ok2. apply sv_bind; [apply sv_clause | intros; apply sv_ret].
Qed.

Lemma sv_validateElement v :
  forall accept loc loc',
    sameVerdict
      (validateElement joinKey json_Marshal Regexp regexp_Compile MatchString
                       Regexp_String v accept loc)
      (validateElement joinKey' json_Marshal' Regexp regexp_Compile MatchString
                       Regexp_String' v accept loc').
Proof.
  induction v as [v IH] using value_induction. intros accept loc loc'.
  rewrite !validateElement_eq.
  destruct (Compile _ _ accept).
  { apply sv_error. intros; apply sv_ret. }
  destruct accept as [a|]; [|apply sv_ret].
  destruct (Always a); [apply sv_ret|].
  destruct (Never a); [apply sv_ret|].
  destruct (unknown v); [apply sv_validateSchemaType|].
  apply sv_bind; [apply sv_validateConst|]. intros cok.
  apply sv_bind; [apply sv_validateEnum|]. intros eok.
  apply sv_bind; [|intros; apply sv_ret].
  unfold validateType, validateType_.
  destruct (vrepr v) as [| b | n | s | vs | m] eqn:E;
    (apply sv_bind; [apply sv_checkType|]);
    intros [|]; cbn [negb]; try apply sv_ret.
  - apply sv_validateNumber.
  - apply sv_validateString.
  - apply sv_validateArray. eapply Forall_impl; [|exact IH].
    intros w Hw a' l l'. apply Hw.
  - apply sv_validateObject. unfold entries. rewrite E.
    eapply Forall_impl; [|exact IH]. intros kv Hw a' l l'. apply Hw.
Qed.

End VerdictValue.

(** ** Export *)

Section ExprInduction.
Variable P : expr -> Prop.

Hypothesis step : forall x,
    match base x with Some b => P (def b) | None => True end ->
    match repr x with
    | accessExpr _ receiver _ => P (def receiver)
    | listExpr _ elements => Forall P elements
    | objectExpr _ properties => Forall (fun kv => P (snd kv)) properties
    | openExpr _ provider inputs _ => P provider /\ P inputs
    | joinExpr _ delimiter values => P delimiter /\ P values
    | toJSONExpr _ v | toStringExpr _ v | secretExpr _ v | toBase64Expr _ v => P v
    | _ => True
    end ->
    P x.

Lemma expr_induction : forall x, P x.
Proof.
  fix IH 1. intros x. apply step.
  - destruct x as [p r b s st sec]. simpl.
    destruct b as [[d ? ? ? ?]|]; [simpl; apply IH | exact I].
  - destruct x as [p r b s st sec]. simpl.
    destruct r as [ | | | node [d ? ? ? ?] a | node els | node props | node pr inp sc
                  | node v | node v | node dl vs | node v | node v ];
      try exact I; try apply IH; try (split; apply IH).
    + induction els as [|e els IHl]; constructor; [apply IH | exact IHl].
    + induction props as [|[k e] props IHl]; constructor; [apply IH | exact IHl].
Qed.
End ExprInduction.

Lemma isSome_obind {A B} (m : option A) (f : A -> option B) :
  isSome (obind m f) = match m with Some a => isSome (f a) | None => false end.
Proof. destruct m; reflexivity. Qed.

Lemma isSome_mapO {A B} (f : A -> option B) l :
  isSome (mapO f l) = forallb (fun a => isSome (f a)) l.
Proof.
  induction l as [|a l IH]; simpl; [reflexivity|].
  destruct (f a); simpl; [|reflexivity].
  rewrite <- IH. destruct (mapO f l); reflexivity.
Qed.

Lemma forallb_ext_Forall {A} (f g : A -> bool) l :
  Forall (fun a => f a = g a) l -> forallb f l = forallb g l.
Proof. induction 1 as [|a l E _ IH]; simpl; [reflexivity | rewrite E, IH; reflexivity]. Qed.

Lemma mapO_length {A B} (f : A -> option B) l r :
  mapO f l = Some r -> List.length r = List.length l.
Proof.
  revert r. induction l as [|a l IH]; intros r; simpl.
  - intros H. inversion H. reflexivity.
  - destruct (f a); simpl; [|discriminate].
    destruct (mapO f l) as [bs|]; simpl; [|discriminate].
    intros H. inversion H. simpl. rewrite (IH bs eq_refl). reflexivity.
Qed.

Lemma mapO_nth {A B} (f : A -> option B) l r :
  mapO f l = Some r -> forall i, nth_error r i = obind (nth_error l i) f.
Proof.
  revert r. induction l as [|a l IH]; intros r; simpl.
  - intros H i. inversion H. destruct i; reflexivity.
  - destruct (f a) as [b|] eqn:E; simpl; [|discriminate].
    destruct (mapO f l) as [bs|]; simpl; [|discriminate].
    intros H i. inversion H. destruct i; simpl; [symmetry; exact E | apply IH; reflexivity].
Qed.

Lemma mapO_Forall {A B} (f : A -> option B) (Q : B -> Prop) l r :
  mapO f l = Some r -> (forall a b, In a l -> f a = Some b -> Q b) -> Forall Q r.
Proof.
  revert r. induction l as [|a l IH]; intros r; simpl.
  - intros H _. inversion H. constructor.
  - destruct (f a) as [b|] eqn:E; simpl; [|discriminate].
    destruct (mapO f l) as [bs|]; simpl; [|discriminate].
    intros H Hq. inversion H. constructor; [apply (Hq a); auto|].
    apply IH; [reflexivity|]. intros a' b' Hin. apply Hq. auto.
Qed.

Lemma mapO_lookup {V W} (f : V -> option W) (l : list (string * V)) r :
  mapO (fun '(k, v) => e <~ f v ;; Some (k, e)) l = Some r ->
  map fst r = map fst l /\ forall k, lookup r k = obind (lookup l k) f.
Proof.
  revert r. induction l as [|[k v] l IH]; intros r; simpl.
  - intros H. inversion H. auto.
  - destruct (f v) as [e|] eqn:E; simpl; [|discriminate].
    destruct (mapO _ l) as [bs|]; simpl; [|discriminate].
    intros H. inversion H. destruct (IH bs eq_refl) as [IH1 IH2].
    split; [simpl; rewrite IH1; reflexivity|].
    intros k'. simpl. destruct (String.eqb k k'); [symmetry; exact E | apply IH2].
Qed.

Lemma exportAccessor_valid a : isSome (exportAccessor a) = validAccessor a.
Proof. destruct a as [n|[s|i|]]; reflexivity. Qed.

Lemma exportAccessor_keyOrIndex a acc : exportAccessor a = Some acc -> keyOrIndex acc.
Proof.
  destruct a as [n|[s|i|]]; simpl; intros H; inversion H; exact I.
Qed.

Lemma exportAccess_valid environment l :
  isSome (exportAccess environment l)
  = forallb (fun a => validAccessor (accessor a)) l.
Proof.
  unfold exportAccess. rewrite isSome_mapO. apply forallb_ext_Forall.
  apply Forall_forall. intros a _. rewrite isSome_obind, <- exportAccessor_valid.
  destruct (exportAccessor (accessor a)); reflexivity.
Qed.

Lemma exportAccess_keyOrIndex environment l r :
  exportAccess environment l = Some r -> Forall keyOrIndex (map environments.Accessor_ r).
Proof.
  intros H. apply Forall_map. eapply mapO_Forall; [exact H|].
  intros a b _. simpl. destruct (exportAccessor (accessor a)) as [acc|] eqn:E; simpl;
    [|discriminate].
  intros Hb. inversion Hb. simpl. eapply exportAccessor_keyOrIndex. exact E.
Qed.

Section ExportMore.
Variable joinArgSchema : option Schema.
Variable openArgSchema : option Schema -> option Schema.
Variable alwaysSchema : option Schema.
Variable stringSchema : option Schema.

Local Abbreviation export' :=
  (export joinArgSchema openArgSchema alwaysSchema stringSchema).

Lemma export_eq x environment :
  export' x environment =
  (base <~ match base x with
           | Some b => b <~ export' (def b) environment ;; Some (Some b)
           | None => Some None
           end ;;
   let ex := environments.mkExpr (defRange x environment) base (schema x)
                                 a_nil None None None None None None in
   match repr x with
   | literalExpr _ =>
       match ast.kind (syntax (repr x)) with
       | ast.BooleanExpr Value => Some (withLiteral ex (a_bool Value))
       | ast.NumberExpr Value => Some (withLiteral ex (a_Number Value))
       | ast.StringExpr Value => Some (withLiteral ex (a_string Value))
       | _ => Some ex
       end
   | interpolateExpr _ parts =>
       interp <~ mapO (fun p =>
                         value <~ match ivalue p with
                                  | Some pa =>
                                      v <~ exportAccess environment (accessors pa) ;;
                                      Some (Some v)
                                  | None => Some None
                                  end ;;
                         Some (environments.mkInterpolation
                                 (ast.Text (isyntax p)) value))
                      parts ;;
       Some (withInterpolate ex interp)
   | symbolExpr _ property =>
       value <~ exportAccess environment (accessors property) ;;
       Some (withSymbol ex value)
   | accessExpr _ receiver accessor =>
       accessor <~ exportAccessor accessor ;;
       match repr (def receiver) with
       | accessExpr _ _ _ =>
           ex <~ export' (def receiver) environment ;;
           match environments.Access ex with
           | Some a =>
               Some (withAccess ex (environments.mkAccessExpr
                                      (environments.Receiver a)
                                      (environments.Accessors a ++ [accessor])))
           | None => None
           end
       | _ =>
           Some (withAccess ex (environments.mkAccessExpr
                                  (defRange (def receiver) environment)
                                  [accessor]))
       end
   | joinExpr _ delimiter values =>
       d <~ export' delimiter environment ;;
       v <~ export' values environment ;;
       Some (withBuiltin ex (environments.mkBuiltinExpr
                               joinArgSchema (withList zeroExpr [d; v])))
   | openExpr _ provider inputs inputSchema =>
       p <~ export' provider environment ;;
       i <~ export' inputs environment ;;
       Some (withBuiltin ex (environments.mkBuiltinExpr
                               (openArgSchema inputSchema)
                               (withObject zeroExpr [("provider", p); ("inputs", i)])))
   | secretExpr _ value =>
       arg <~ export' value environment ;;
       Some (withBuiltin ex (environments.mkBuiltinExpr alwaysSchema arg))
   | toBase64Expr _ value =>
       arg <~ export' value environment ;;
       Some (withBuiltin ex (environments.mkBuiltinExpr stringSchema arg))
   | toJSONExpr _ value =>
       arg <~ export' value environment ;;
       Some (withBuiltin ex (environments.mkBuiltinExpr alwaysSchema arg))
   | toStringExpr _ value =>
       arg <~ export' value environment ;;
       Some (withBuiltin ex (environments.mkBuiltinExpr alwaysSchema arg))
   | listExpr _ elements =>
       l <~ mapO (fun el => export' el environment) elements ;;
       Some (withList ex l)
   | objectExpr _ properties =>
       o <~ mapO (fun '(k, v) => e <~ export' v environment ;; Some (k, e))
                 properties ;;
       Some (withObject ex o)
   end).
Proof. destruct x as [p r b s st sec]. destruct r; reflexivity. Qed.


Lemma accessorsValid_eq x :
  accessorsValid x =
  (match base x with
   | Some b => accessorsValid (def b)
   | None => true
   end
   && match repr x with
      | literalExpr _ => true
      | interpolateExpr _ parts =>
          forallb (fun p => match ivalue p with
                            | Some pa => validAccess pa
                            | None => true
                            end) parts
      | symbolExpr _ property => validAccess property
      | accessExpr _ receiver accessor =>
          validAccessor accessor
          && match repr (def receiver) with
             | accessExpr _ _ _ => accessorsValid (def receiver)
             | _ => true
             end
      | listExpr _ elements => forallb accessorsValid elements
      | objectExpr _ properties => forallb (fun kv => accessorsValid (snd kv)) properties
      | openExpr _ provider inputs _ => accessorsValid provider && accessorsValid inputs
      | joinExpr _ delimiter values => accessorsValid delimiter && accessorsValid values
      | toJSONExpr _ v | toStringExpr _ v | secretExpr _ v | toBase64Expr _ v =>
          accessorsValid v
      end)%bool.
Proof. destruct x as [p r b s st sec]. destruct r; reflexivity. Qed.

Lemma chainHead_eq x :
  chainHead x =
  match repr x with
  | accessExpr _ receiver _ =>
      match repr (def receiver) with
      | accessExpr _ _ _ => chainHead (def receiver)
      | _ => x
      end
  | _ => x
  end.
Proof. destruct x as [p r b s st sec]. destruct r; reflexivity. Qed.

Lemma exported_base x environment eb :
  match base x with
  | Some b => b <~ export' (def b) environment ;; Some (Some b)
  | None => Some None
  end = Some eb ->
  eb = match base x with
       | Some b => export' (def b) environment
       | None => None
       end.
Proof.
  destruct (base x) as [b|]; [|intros H; inversion H; reflexivity].
  destruct (export' (def b) environment); simpl; intros H; inversion H; reflexivity.
Qed.

Lemma payloads_withAccess ex a0 a :
  environments.Access ex = Some a0 -> payloads (withAccess ex a) = payloads ex.
Proof. intros E. unfold payloads, withAccess. simpl. rewrite E. reflexivity. Qed.

Lemma payloads_access ex :
  payloads ex = [PAccess] -> environments.Access ex <> None.
Proof.
  unfold payloads. intros H E. rewrite E in H.
  destruct (environments.Literal ex), (environments.Interpolate ex),
    (environments.Symbol ex), (environments.List_ ex), (environments.Object ex),
    (environments.Builtin ex); discriminate H.
Qed.

Ltac export_base H eb Eb :=
  rewrite export_eq in H;
  match type of H with
  | obind ?m _ = Some _ => destruct m as [eb|] eqn:Eb; [|discriminate H]
  end;
  cbn [obind] in H; cbv zeta in H.

Ltac export_step H :=
  match type of H with
  | obind ?m _ = Some _ =>
      let E := fresh "E" in destruct m eqn:E; [cbn [obind] in H | discriminate H]
  end.

Lemma export_payloads x :
  forall environment ex, export' x environment = Some ex -> payloads ex = payloadOf (repr x).
Proof.
  induction x as [x _ IHr] using expr_induction. intros environment ex H.
  export_base H eb Eb. revert IHr H.
  destruct (repr x) as [ node | node parts | node pa | node receiver a | node els
                       | node props | node pr inp sc | node v | node v | node dl vs
                       | node v | node v ]; intros IHr H; cbn [payloadOf];
    try solve [repeat export_step H; inversion H; reflexivity].
  - cbn [syntax] in H. destruct (ast.kind node); inversion H; reflexivity.
  - export_step H.
    destruct (repr (def receiver)) eqn:Erec; try solve [inversion H; reflexivity].
    export_step H. destruct (environments.Access e) as [inner|] eqn:EA; [|discriminate H].
    injection H as <-. rewrite (payloads_withAccess _ inner _ EA).
    apply (IHr environment e E0).
Qed.

Lemma export_head x :
  forall environment ex,
    export' x environment = Some ex ->
    environments.Range_ ex = defRange (chainHead x) environment
    /\ environments.Schema_ ex = schema (chainHead x)
    /\ environments.Base ex = match base (chainHead x) with
                              | Some b => export' (def b) environment
                              | None => None
                              end.
Proof.
  induction x as [x _ IHr] using expr_induction. intros environment ex H.
  export_base H eb Eb. apply exported_base in Eb. rewrite chainHead_eq. revert IHr H.
  destruct (repr x) as [ node | node parts | node pa | node receiver a | node els
                       | node props | node pr inp sc | node v | node v | node dl vs
                       | node v | node v ]; intros IHr H;
    try solve [repeat export_step H; inversion H; simpl; auto].
  - cbn [syntax] in H. destruct (ast.kind node); inversion H; simpl; auto.
  - export_step H.
    destruct (repr (def receiver)) eqn:Erec; try solve [inversion H; simpl; auto].
    export_step H. destruct (environments.Access e) as [inner|] eqn:EA; [|discriminate H].
    injection H as <-. simpl. apply (IHr environment e E0).
Qed.

Lemma export_keyOrIndex x :
  forall environment ex,
    export' x environment = Some ex -> Forall keyOrIndex (accessorsOf ex).
Proof.
  induction x as [x _ IHr] using expr_induction. intros environment ex H.
  export_base H eb Eb. revert IHr H.
  destruct (repr x) as [ node | node parts | node pa | node receiver a | node els
                       | node props | node pr inp sc | node v | node v | node dl vs
                       | node v | node v ]; intros IHr H;
    try solve [repeat export_step H; inversion H; apply Forall_nil].
  - cbn [syntax] in H. destruct (ast.kind node); inversion H; apply Forall_nil.
  - export_step H. inversion H. unfold accessorsOf. simpl.
    apply Forall_flat_map. eapply mapO_Forall; [exact E|].
    intros pt i _. simpl.
    destruct (ivalue pt) as [pa|].
    + destruct (exportAccess environment (accessors pa)) as [v|] eqn:Ev; simpl;
        [|discriminate].
      intros Hi. inversion Hi. simpl. eapply exportAccess_keyOrIndex. exact Ev.
    + simpl. intros Hi. inversion Hi. constructor.
  - export_step H. inversion H. unfold accessorsOf. simpl. rewrite app_nil_r.
    eapply exportAccess_keyOrIndex. exact E.
  - export_step H. pose proof (exportAccessor_keyOrIndex _ _ E) as Ha.
    destruct (repr (def receiver)) eqn:Erec;
      try solve [inversion H; unfold accessorsOf; simpl; constructor;
                 [exact Ha | constructor]].
    export_step H. destruct (environments.Access e) as [inner|] eqn:EA; [|discriminate H].
    injection H as <-. specialize (IHr environment e E0).
    unfold accessorsOf in *. simpl. rewrite EA in IHr.
    rewrite <- app_assoc. apply Forall_app in IHr. destruct IHr as [I1 I2].
    apply Forall_app. split; [exact I1|]. constructor; [exact Ha | exact I2].
Qed.

Lemma isSome_obind_Some {A B} (m : option A) (f : A -> option B) :
  (forall a, isSome (f a) = true) -> isSome (obind m f) = isSome m.
Proof. intros Hf. destruct m; simpl; auto. Qed.

Lemma export_accessorsValid x :
  forall environment, isSome (export' x environment) = accessorsValid x.
Proof.
  induction x as [x IHb IHr] using expr_induction. intros environment.
  rewrite export_eq, accessorsValid_eq, isSome_obind.
  assert (Eb : isSome match base x with
                      | Some b => b <~ export' (def b) environment ;; Some (Some b)
                      | None => Some None
                      end
               = match base x with
                 | Some b => accessorsValid (def b)
                 | None => true
                 end).
  { destruct (base x) as [b|]; [|reflexivity].
    rewrite <- (IHb environment). destruct (export' (def b) environment); reflexivity. }
  rewrite <- Eb.
  match goal with
  | |- context [isSome ?m && _] => destruct m as [eb|]; [|reflexivity]
  end.
  cbn [isSome andb]. cbv zeta. revert IHr.
  destruct (repr x) as [ node | node parts | node pa | node receiver a | node els
                       | node props | node pr inp sc | node v | node v | node dl vs
                       | node v | node v ]; intros IHr.
  - cbn [syntax]. destruct (ast.kind node); reflexivity.
  - rewrite isSome_obind_Some by reflexivity. rewrite isSome_mapO.
    apply forallb_ext_Forall. apply Forall_forall. intros pt _.
    rewrite isSome_obind_Some by reflexivity.
    destruct (ivalue pt) as [q|]; [|reflexivity].
    rewrite isSome_obind_Some by reflexivity. apply exportAccess_valid.
  - rewrite isSome_obind_Some by reflexivity. apply exportAccess_valid.
  - rewrite isSome_obind, <- exportAccessor_valid.
    destruct (exportAccessor a) as [acc|]; [|reflexivity]. cbn [isSome andb].
    destruct (repr (def receiver)) eqn:Erec; try reflexivity.
    rewrite <- (IHr environment).
    destruct (export' (def receiver) environment) as [e|] eqn:E0; [|reflexivity].
    cbn [obind isSome].
    pose proof (export_payloads _ _ _ E0) as Hp. rewrite Erec in Hp. cbn [payloadOf] in Hp.
    apply payloads_access in Hp.
    destruct (environments.Access e); [reflexivity | congruence].
  - rewrite isSome_obind_Some by reflexivity. rewrite isSome_mapO.
    apply forallb_ext_Forall. eapply Forall_impl; [|exact IHr].
    intros e He. apply He.
  - rewrite isSome_obind_Some by reflexivity. rewrite isSome_mapO.
    apply forallb_ext_Forall. eapply Forall_impl; [|exact IHr].
    intros [k e] He. simpl in *. rewrite isSome_obind_Some by reflexivity. apply He.
  - destruct IHr as [I1 I2]. rewrite <- (I1 environment), <- (I2 environment).
    destruct (export' pr environment), (export' inp environment); reflexivity.
  - rewrite <- (IHr environment). destruct (export' v environment); reflexivity.
  - rewrite <- (IHr environment). destruct (export' v environment); reflexivity.
  - destruct IHr as [I1 I2]. rewrite <- (I1 environment), <- (I2 environment).
    destruct (export' dl environment), (export' vs environment); reflexivity.
  - rewrite <- (IHr environment). destruct (export' v environment); reflexivity.
  - rewrite <- (IHr environment). destruct (export' v environment); reflexivity.
Qed.

End ExportMore.

(** ** Value validation: panics, closed schemas, types *)

Lemma Quo_divisor n m : divisor m -> big.Quo n m <> None.
Proof.
  unfold divisor, big.Quo. destruct (big.val m) as [mm em|]; [|tauto].
  intros Hm. destruct (big.val n) as [mn en|]; [|discriminate].
  destruct (mm =? 0) eqn:E; [apply Z.eqb_eq in E; tauto|].
  destruct (mn =? 0); discriminate.
Qed.

Lemma Quo_None n m :
  big.Quo n m = None <-> (isZero n /\ isZero m) \/ (isInf n /\ isInf m).
Proof.
  unfold big.Quo, isZero, isInf.
  destruct (big.val n) as [mn en|nn], (big.val m) as [mm em|nm]; simpl.
  - destruct (mm =? 0) eqn:Em.
    + apply Z.eqb_eq in Em. destruct (mn =? 0) eqn:En.
      * apply Z.eqb_eq in En. tauto.
      * apply Z.eqb_neq in En. split; [discriminate | tauto].
    + apply Z.eqb_neq in Em. destruct (mn =? 0); (split; [discriminate | tauto]).
  - split; [discriminate | tauto].
  - split; [discriminate | tauto].
  - tauto.
Qed.

Lemma returns_bound {A} (get : option A) violated loc format args ok :
  returns match get with
          | Some m => clause (violated m) loc format args ok
          | None => ret ok
          end.
Proof. destruct get; auto with returns. Qed.

Lemma validateNumber_panics v accept loc :
  validateNumber v accept loc = None
  <-> exists n m, big.ParseFloat v = Some n /\ GetMultipleOf accept = Some m
                  /\ big.Quo n m = None.
Proof.
  unfold validateNumber. destruct (big.ParseFloat v) as [n|].
  2:{ split; [discriminate | intros (n & m & H & _); discriminate]. }
  cbv zeta.
  assert (R : forall ok0 : bool, returns (
      ok <- match GetMinimum accept with
            | Some m => clause (big.Cmp n m >? 0) loc
                               "expected a number greater than or equal to %v"
                               [ArgString (Minimum accept)] ok0
            | None => ret ok0
            end ;;
      ok <- match GetExclusiveMinimum accept with
            | Some m => clause (big.Cmp n m >=? 0) loc
                               "expected a number greater than %v"
                               [ArgString (ExclusiveMinimum accept)] ok
            | None => ret ok
            end ;;
      ok <- match GetMaximum accept with
            | Some m => clause (big.Cmp n m <? 0) loc
                               "expected a number less than or equal to%v"
                               [ArgString (Maximum accept)] ok
            | None => ret ok
            end ;;
      ok <- match GetExclusiveMaximum accept with
            | Some m => clause (big.Cmp n m <=? 0) loc
                               "expected a number less than %v"
                               [ArgString (ExclusiveMaximum accept)] ok
            | None => ret ok
            end ;;
      ret ok)).
  { intros ok0.
    apply returns_bind; [apply (returns_bound (GetMinimum accept) (fun m => big.Cmp n m >? 0))|].
    intros ok1. apply returns_bind;
      [apply (returns_bound (GetExclusiveMinimum accept) (fun m => big.Cmp n m >=? 0))|].
    intros ok2. apply returns_bind;
      [apply (returns_bound (GetMaximum accept) (fun m => big.Cmp n m <? 0))|].
    intros ok3. apply returns_bind;
      [apply (returns_bound (GetExclusiveMaximum accept) (fun m => big.Cmp n m <=? 0))|].
    intros ok4. apply returns_ret. }
  destruct (GetMultipleOf accept) as [m|].
  - destruct (big.Quo n m) as [q|] eqn:Eq.
    + split.
      * intros H. exfalso.
        assert (Rq : returns (clause (negb (big.IsInt q)) loc "expected a multiple of %v"
                                     [ArgString (MultipleOf accept)] true))
          by apply returns_clause.
        destruct (returns_bind _ _ Rq R) as (b & d & E). rewrite E in H. discriminate.
      * intros (n' & m' & Hn & Hm & Hq). inversion Hn; inversion Hm; subst. congruence.
    + split; [|reflexivity]. intros _. exists n, m. auto.
  - split.
    + intros H. exfalso.
      destruct (returns_bind _ _ (returns_ret true) R) as (b & d & E).
      rewrite E in H. discriminate.
    + intros (n' & m' & _ & Hm & _). discriminate.
Qed.

Lemma nested_trans d c s : nested d c -> nested c s -> nested d s.
Proof.
  intros Hdc Hcs. induction Hcs; eauto using nested.
Qed.

Lemma divisors_item accept i :
  divisors (Some accept) -> divisors (itemSchema accept i).
Proof.
  unfold itemSchema, divisors. intros H.
  destruct (nth_error (PrefixItems accept) i) as [[c|]|] eqn:N; try exact I.
  - intros d m Hd. apply H. eapply nested_prefixItem; [|exact Hd].
    eapply nth_error_In. exact N.
  - destruct (Items accept) as [c|] eqn:E; [|exact I].
    intros d m Hd. apply H. eapply nested_items; eauto.
Qed.

Lemma divisors_property accept k :
  divisors (Some accept) -> divisors (propertySchema accept k).
Proof.
  unfold propertySchema, divisors. intros H.
  destruct (lookup (Properties accept) k) as [[c|]|] eqn:N; try exact I.
  - intros d m Hd. apply H. eapply nested_property; [|exact Hd].
    eapply lookup_In. exact N.
  - destruct (AdditionalProperties accept) as [c|] eqn:E; [|exact I].
    intros d m Hd. apply H. eapply nested_additional; eauto.
Qed.

Lemma sticks_ret {T} (ok : T -> bool) t : sticks ok (ok t) (ret t).
Proof. simpl. auto. Qed.

Lemma sticks_bind {A T} (okA : A -> bool) (okT : T -> bool) b (m : M A) (f : A -> M T) :
  sticks okA b m -> (forall a, sticks okT (okA a) (f a)) -> sticks okT b (bind m f).
Proof.
  intros Hm Hf. destruct m as [[a d1]|]; [|exact I]. simpl.
  specialize (Hf a). destruct (f a) as [[t d2]|]; [|exact I]. simpl in *. auto.
Qed.

Lemma sticks_forRange {A S} (ok : S -> bool) (body : A -> S -> M S) l :
  Forall (fun a => forall s, sticks ok (ok s) (body a s)) l ->
  forall s, sticks ok (ok s) (forRange body l s).
Proof.
  induction 1 as [|a l Ha _ IH]; intros s; cbn [forRange].
  - apply sticks_ret.
  - eapply sticks_bind; [apply Ha | exact IH].
Qed.

Lemma sticks_false {T} (ok : T -> bool) b (m : M T) :
  sticks ok false m -> sticks ok b m.
Proof. destruct m as [[t d]|]; simpl; auto. Qed.

Lemma sticks_clause violated loc format args ok :
  sticks (fun ok => ok) ok (clause violated loc format args ok).
Proof. rewrite clause_eq. simpl. intros ->. reflexivity. Qed.

(** A loop one of whose iterations always clears the flag ends with the
    flag cleared. *)
Lemma forRange_fails {A S} (ok : S -> bool) (body : A -> S -> M S) l a0 :
  Forall (fun a => forall s, sticks ok (ok s) (body a s)) l ->
  In a0 l -> (forall s, sticks ok false (body a0 s)) ->
  forall s, sticks ok false (forRange body l s).
Proof.
  intros Hl Hin Ha0. induction Hl as [|a l Ha Hl IH]; [destruct Hin|].
  intros s. cbn [forRange]. destruct Hin as [->|Hin].
  - eapply sticks_bind with (okA := ok); [apply Ha0|].
    intros s'. apply sticks_forRange. exact Hl.
  - eapply sticks_bind with (okA := fun _ => false).
    + destruct (body a s) as [[t d]|]; simpl; auto.
    + intros s'. apply IH. exact Hin.
Qed.

Section ValueMore.
Variable joinKey : string -> string -> string.
Variable json_Marshal : any -> string + string.
Variable Regexp : Type.
Variable regexp_Compile : string -> option Regexp.
Variable MatchString : Regexp -> string -> bool.
Variable Regexp_String : Regexp -> string.

Local Abbreviation validateElement' :=
  (validateElement joinKey json_Marshal Regexp regexp_Compile MatchString Regexp_String).
Local Abbreviation validateValue' :=
  (validateValue joinKey json_Marshal Regexp regexp_Compile MatchString Regexp_String).
Local Abbreviation validateType' :=
  (validateType joinKey json_Marshal Regexp regexp_Compile MatchString Regexp_String).
Local Abbreviation validateArray' :=
  (validateArray joinKey json_Marshal Regexp regexp_Compile MatchString Regexp_String).
Local Abbreviation validateObject' :=
  (validateObject joinKey json_Marshal Regexp regexp_Compile MatchString Regexp_String).

(** A [never] schema fails every value. *)
Lemma validateElement_never v s loc :
  Never s = true -> Always s = false ->
  sticks (fun ok => ok) false (validateElement' v (Some s) loc).
Proof.
  intros Hn Ha. rewrite validateElement_eq.
  destruct (Compile _ _ (Some s)).
  - rewrite validationErrorf_eq. simpl. auto.
  - rewrite Ha, Hn. simpl. auto.
Qed.

Lemma returns_validateNumber v accept loc :
  divisors (Some accept) -> returns (validateNumber v accept loc).
Proof.
  intros Hd. destruct (validateNumber v accept loc) as [[b d]|] eqn:E;
    [exists b, d; reflexivity|].
  apply validateNumber_panics in E. destruct E as (n & m & _ & Hm & Hq).
  exfalso. revert Hq. apply Quo_divisor. apply (Hd accept m); [apply nested_refl | exact Hm].
Qed.

Lemma returns_validateString v accept loc :
  returns (validateString Regexp regexp_Compile MatchString Regexp_String v accept loc).
Proof.
  unfold validateString. cbv zeta.
  apply returns_bind;
    [apply (returns_bound (GetMinLength accept)
                          (fun m => Z.of_nat (String.length v) <? m))|].
  intros ok0. apply returns_bind;
    [apply (returns_bound (GetMaxLength accept)
                          (fun m => Z.of_nat (String.length v) >? m))|].
  intros ok1. apply returns_bind;
    [destruct (GetPattern Regexp regexp_Compile accept); auto with returns|].
  intros ok2. apply returns_ret.
Qed.

Lemma returns_validateElement v :
  forall accept loc, divisors accept -> returns (validateElement' v accept loc).
Proof.
  induction v as [v IH] using value_induction. intros accept loc Hd.
  rewrite validateElement_eq.
  destruct (Compile _ _ accept).
  { apply returns_bind; [apply returns_validationErrorf | intros; apply returns_ret]. }
  destruct accept as [a|]; [|apply returns_ret].
  destruct (Always a); [apply returns_ret|].
  destruct (Never a); [apply returns_ret|].
  destruct (unknown v); [apply returns_validateSchemaType|].
  apply returns_bind; [apply returns_validateConst|]. intros cok.
  apply returns_bind; [apply returns_validateEnum|]. intros eok.
  apply returns_bind; [|intros; apply returns_ret].
  unfold validateType, validateType_.
  destruct (vrepr v) as [| b | n | s | vs | m] eqn:E;
    (apply returns_bind; [apply returns_checkType|]);
    intros [|]; cbn [negb]; try apply returns_ret.
  - apply returns_validateNumber. exact Hd.
  - apply returns_validateString.
  - unfold validateArray_. cbv zeta.
    apply returns_bind;
      [apply (returns_bound (GetMinItems a)
                            (fun m => Z.of_nat (List.length vs) <? m))|].
    intros ok0. apply returns_bind;
      [apply (returns_bound (GetMaxItems a)
                            (fun m => Z.of_nat (List.length vs) >? m))|].
    intros ok1. apply returns_bind; [|intros; apply returns_ret].
    apply returns_forRange. eapply Forall_impl; [|exact IH].
    intros w Hw [i ok]. pose proof (divisors_item a i Hd) as Hi. unfold itemSchema in Hi.
    destruct (nth_error (PrefixItems a) i);
      (apply returns_bind; [apply Hw; exact Hi | intros; apply returns_ret]).
  - unfold validateObject_. cbv zeta.
    apply returns_bind;
      [apply (returns_bound (GetMinProperties a)
                            (fun m => Z.of_nat (List.length (keys v)) <? m))|].
    intros ok0. apply returns_bind;
      [apply (returns_bound (GetMaxProperties a)
                            (fun m => Z.of_nat (List.length (keys v)) >? m))|].
    intros ok1. apply returns_bind.
    + rewrite forEntries_eq. unfold entries. rewrite E. apply returns_forRange.
      eapply Forall_impl; [|exact IH].
      intros [k w] Hw ok. simpl in Hw.
      pose proof (divisors_property a k Hd) as Hk. unfold propertySchema in Hk.
      destruct (lookup (Properties a) k);
        (apply returns_bind; [apply Hw; exact Hk | intros; apply returns_ret]).
    + intros ok2. apply returns_bind; [apply returns_clause | intros; apply returns_ret].
Qed.

Lemma sticks_elements (vv : value -> option Schema -> validationLoc -> M bool)
      accept loc vs :
  Forall (fun v => forall s : nat * bool,
              sticks snd (snd s)
                (let '(i, ok) := s in
                 let vloc := index loc i in
                 match nth_error (PrefixItems accept) i with
                 | Some p =>
                     vok <- vv v p vloc ;;
                     ret (S i, if negb vok then false else ok)
                 | None =>
                     vok <- vv v (Items accept) vloc ;;
                     ret (S i, if negb vok then false else ok)
                 end)) vs.
Proof.
  apply Forall_forall. intros v _ [i ok]. cbv zeta.
  destruct (nth_error (PrefixItems accept) i);
    (destruct (vv v _ _) as [[[|] d]|]; simpl; auto).
Qed.

End ValueMore.

(** * Validation: diagnostics, verdicts and panics *)

(** X1.  Schema-versus-schema validation that succeeds is quiet:
    [validateSchemaType] never reports a diagnostic and then returns true.
    Every diagnostic it issues, at any depth of [validateSchemaArray],
    [validateSchemaObject] and [checkType], makes the result false. *)
Theorem schema_success_is_quiet joinKey x accept loc d :
  validateSchemaType joinKey x accept loc = Some (true, d) -> d = [].
Proof.
  intros H. pose proof (quiet_validateSchemaType joinKey x accept loc) as Q.
  unfold quiet in Q. rewrite H in Q. exact Q.
Qed.

(** An array of strings validates an array of strings. *)
Lemma schema_success_is_quiet_witness :
  let m := validateSchemaType Sample.joinKey (Some Sample.stringArray)
                              (Some Sample.stringArray) (Sample.loc Sample.lst) in
  exists d, m = Some (true, d) /\ d = [].
Proof.
  intros m. exists (diags m).
  assert (E : m = Some (true, diags m)) by (vm_compute; reflexivity).
  split; [exact E|].
  exact (schema_success_is_quiet Sample.joinKey _ _ _ _ E).
Defined.

(** X2.  Value-versus-schema validation that succeeds is quiet: when
    [validateElement] returns true it has issued no diagnostic, whatever the
    value (known or unknown, nested to any depth) and the schema. *)
Theorem value_success_is_quiet joinKey json_Marshal Regexp regexp_Compile MatchString
        Regexp_String v accept loc d :
  validateElement joinKey json_Marshal Regexp regexp_Compile MatchString Regexp_String
                  v accept loc = Some (true, d) ->
  d = [].
Proof.
  intros H.
  pose proof (keeps_validateElement joinKey json_Marshal Regexp regexp_Compile MatchString
                                    Regexp_String v accept loc) as Q.
  rewrite H in Q. simpl in Q. apply Q. reflexivity.
Qed.

(** The list [[5]] is an array of numbers. *)
Lemma value_success_is_quiet_witness :
  let m := Sample.validateElement
             Sample.vlst
             (Some (Sample.arraySchema [] (Some (Sample.numberSchema "" "" "" "" ""))))
             (Sample.loc Sample.lst) in
  exists d, m = Some (true, d) /\ d = [].
Proof.
  intros m. exists (diags m).
  assert (E : m = Some (true, diags m)) by (vm_compute; reflexivity).
  split; [exact E|].
  exact (value_success_is_quiet _ _ _ _ _ _ _ _ _ _ E).
Defined.

(** X3.  Every diagnostic of schema-versus-schema validation is attached to
    the expression of the location it was given or to an element or property
    of that list or object literal, at some depth: [index] and [property]
    only ever move a location inwards. *)
Theorem schema_diagnostics_blame_within joinKey s accept loc :
  Forall (blames (x loc)) (diags (validateSchemaType joinKey s accept loc)).
Proof.
  pose proof (blames_validateSchemaType joinKey s accept loc) as H.
  destruct (validateSchemaType joinKey s accept loc) as [[ok d]|]; simpl in *;
    [exact H | constructor].
Qed.

(** X4.  Every diagnostic of [validateValue] is attached to the expression
    that defines the value or a value nested in it (or, for an unknown value,
    to an element or property of that expression): the location passed to
    [validateValue] plays no part. *)
Theorem value_diagnostics_blame_definitions joinKey json_Marshal Regexp regexp_Compile
        MatchString Regexp_String v accept loc :
  Forall (fun d => exists w, subvalue w v /\ blames (def w) d)
         (diags (validateValue joinKey json_Marshal Regexp regexp_Compile MatchString
                               Regexp_String v accept loc)).
Proof.
  unfold validateValue, validateValue_.
  pose proof (blames_validateElement joinKey json_Marshal Regexp regexp_Compile MatchString
                Regexp_String v accept (mkLoc (def v) "" false)) as H.
  destruct (validateElement _ _ _ _ _ _ v accept _) as [[ok d]|]; simpl in *;
    [|constructor].
  eapply Forall_impl; [|exact H]. intros e [He|He]; [|exact He].
  exists v. split; [apply subvalue_refl | exact He].
Qed.

(** Whether a schema has a [never] schema nested in it can be decided. *)
Lemma hasNever_dec s : hasNever s \/ ~ hasNever s.
Proof.
  induction s as [s Hpre Hit Hprops Hap] using Schema_induction.
  destruct (Never s) eqn:N; [left; apply hasNever_here; exact N|].
  assert (Hl : forall l : list (option Schema),
             Forall (onSome (fun s => hasNever s \/ ~ hasNever s)) l ->
             (exists c, In (Some c) l /\ hasNever c)
             \/ ~ (exists c, In (Some c) l /\ hasNever c)).
  { induction 1 as [|o l Ho _ IH].
    - right. intros (c & [] & _).
    - destruct o as [c|].
      + destruct Ho as [Ho|Ho]; [left; exists c; simpl; auto|].
        destruct IH as [(c' & Hin & Hc)|IH]; [left; exists c'; simpl; auto|].
        right. intros (c' & [E|Hin] & Hc); [inversion E; subst; tauto|].
        apply IH. eauto.
      + destruct IH as [(c' & Hin & Hc)|IH]; [left; exists c'; simpl; auto|].
        right. intros (c' & [E|Hin] & Hc); [discriminate|]. apply IH. eauto. }
  assert (Hm : forall l : list (string * option Schema),
             Forall (fun kv => onSome (fun s => hasNever s \/ ~ hasNever s) (snd kv)) l ->
             (exists k c, In (k, Some c) l /\ hasNever c)
             \/ ~ (exists k c, In (k, Some c) l /\ hasNever c)).
  { induction 1 as [|[k o] l Ho _ IH].
    - right. intros (k & c & [] & _).
    - simpl in Ho. destruct o as [c|].
      + destruct Ho as [Ho|Ho]; [left; exists k, c; simpl; auto|].
        destruct IH as [(k' & c' & Hin & Hc)|IH]; [left; exists k', c'; simpl; auto|].
        right. intros (k' & c' & [E|Hin] & Hc); [inversion E; subst; tauto|].
        apply IH. eauto.
      + destruct IH as [(k' & c' & Hin & Hc)|IH]; [left; exists k', c'; simpl; auto|].
        right. intros (k' & c' & [E|Hin] & Hc); [discriminate|]. apply IH. eauto. }
  destruct (Hl _ Hpre) as [(c & Hin & Hc)|H1];
    [left; eapply hasNever_prefixItem; eauto|].
  destruct (Hm _ Hprops) as [(k & c & Hin & Hc)|H2];
    [left; eapply hasNever_property; eauto|].
  destruct (Items s) as [ci|] eqn:Ei.
  - simpl in Hit. destruct Hit as [Hit|Hit]; [left; eapply hasNever_items; eauto|].
    destruct (AdditionalProperties s) as [ca|] eqn:Ea.
    + simpl in Hap. destruct Hap as [Hap|Hap]; [left; eapply hasNever_additional; eauto|].
      right. intros Hn.
      inversion Hn as [s' N' | s' c Hin Hc | s' c E Hc | s' k c Hin Hc | s' c E Hc]; subst.
      * congruence.
      * apply H1. eauto.
      * rewrite Ei in E. inversion E; subst. tauto.
      * apply H2. eauto.
      * rewrite Ea in E. inversion E; subst. tauto.
    + right. intros Hn.
      inversion Hn as [s' N' | s' c Hin Hc | s' c E Hc | s' k c Hin Hc | s' c E Hc]; subst.
      * congruence.
      * apply H1. eauto.
      * rewrite Ei in E. inversion E; subst. tauto.
      * apply H2. eauto.
      * rewrite Ea in E. discriminate.
  - destruct (AdditionalProperties s) as [ca|] eqn:Ea.
    + simpl in Hap. destruct Hap as [Hap|Hap]; [left; eapply hasNever_additional; eauto|].
      right. intros Hn.
      inversion Hn as [s' N' | s' c Hin Hc | s' c E Hc | s' k c Hin Hc | s' c E Hc]; subst.
      * congruence.
      * apply H1. eauto.
      * rewrite Ei in E. discriminate.
      * apply H2. eauto.
      * rewrite Ea in E. inversion E; subst. tauto.
    + right. intros Hn.
      inversion Hn as [s' N' | s' c Hin Hc | s' c E Hc | s' k c Hin Hc | s' c E Hc]; subst.
      * congruence.
      * apply H1. eauto.
      * rewrite Ei in E. discriminate.
      * apply H2. eauto.
      * rewrite Ea in E. discriminate.
Qed.

Lemma neverIn_dec accept : neverIn accept \/ ~ neverIn accept.
Proof. destruct accept as [a|]; simpl; [apply hasNever_dec | tauto]. Qed.

(** X5.  Schema-versus-schema validation explains its failures: when
    [validateSchemaType] returns false without any diagnostic, the accepting
    schema is, or has nested in it, a [never] schema. *)
Theorem schema_failure_is_reported joinKey x accept loc :
  validateSchemaType joinKey x accept loc = Some (false, []) -> neverIn accept.
Proof.
  intros H. destruct (neverIn_dec accept) as [D|D]; [exact D|]. exfalso.
  pose proof (loud_validateSchemaType joinKey x accept loc D) as L.
  rewrite H in L. simpl in L.
  destruct (L eq_refl) as [E|E]; [discriminate | apply E; reflexivity].
Qed.

(** A [never] schema rejects the string schema, silently. *)
Lemma schema_failure_is_reported_witness :
  validateSchemaType Sample.joinKey (Some Sample.stringSchema) (Some Sample.neverSchema)
                     (Sample.loc Sample.five) = Some (false, [])
  /\ neverIn (Some Sample.neverSchema).
Proof.
  assert (E : validateSchemaType Sample.joinKey (Some Sample.stringSchema)
                                 (Some Sample.neverSchema) (Sample.loc Sample.five)
              = Some (false, [])) by reflexivity.
  split; [exact E|].
  exact (schema_failure_is_reported _ _ _ _ E).
Defined.

(** X6.  Value-versus-schema validation explains its failures: when
    [validateElement] returns false without any diagnostic, the accepting
    schema is, or has nested in it, a [never] schema.  Every other failure
    (a constant, an enumeration, a type, a bound, a pattern, a missing key,
    a schema that does not compile) is reported. *)
Theorem value_failure_is_reported joinKey json_Marshal Regexp regexp_Compile MatchString
        Regexp_String v accept loc :
  validateElement joinKey json_Marshal Regexp regexp_Compile MatchString Regexp_String
                  v accept loc = Some (false, []) ->
  neverIn accept.
Proof.
  intros H. destruct (neverIn_dec accept) as [D|D]; [exact D|]. exfalso.
  pose proof (loud_validateElement joinKey json_Marshal Regexp regexp_Compile MatchString
                                   Regexp_String v accept loc D) as L.
  rewrite H in L. simpl in L.
  destruct (L eq_refl) as [E|E]; [discriminate | apply E; reflexivity].
Qed.

(** The object [{b: 5}] is rejected by the closed object schema without a
    diagnostic: the schema of its additional properties is [never]. *)
Lemma value_failure_is_reported_witness :
  Sample.validateElement Sample.vobj (Some Sample.closedObject) (Sample.loc Sample.obj)
  = Some (false, [])
  /\ neverIn (Some Sample.closedObject).
Proof.
  assert (E : Sample.validateElement Sample.vobj (Some Sample.closedObject)
                                     (Sample.loc Sample.obj)
              = Some (false, [])) by (vm_compute; reflexivity).
  split; [exact E|].
  exact (value_failure_is_reported _ _ _ _ _ _ _ _ _ E).
Defined.

(** X7.  The verdict of schema-versus-schema validation does not depend on
    the location it is given nor on how paths are joined: with another
    location and another [joinKey], [validateSchemaType] returns the same
    result, with the same number of diagnostics. *)
Theorem schema_verdict_ignores_location joinKey joinKey' x accept loc loc' :
  sameVerdict (validateSchemaType joinKey x accept loc)
              (validateSchemaType joinKey' x accept loc').
Proof. apply sv_validateSchemaType. Qed.

(** X8.  The verdict of value-versus-schema validation depends on the value
    and the schema only: with another location, another [joinKey], another
    rendering of constants and of patterns, [validateElement] panics or not
    alike and returns the same result with the same number of
    diagnostics. *)
Theorem value_verdict_ignores_location joinKey joinKey' json_Marshal json_Marshal'
        Regexp regexp_Compile MatchString Regexp_String Regexp_String'
        v accept loc loc' :
  sameVerdict
    (validateElement joinKey json_Marshal Regexp regexp_Compile MatchString
                     Regexp_String v accept loc)
    (validateElement joinKey' json_Marshal' Regexp regexp_Compile MatchString
                     Regexp_String' v accept loc').
Proof. apply sv_validateElement. Qed.

(** * Export: payloads, ranges, accessors and panics *)

(** X9.  An exported expression carries the payload of its kind and no
    other: a boolean, number or string literal sets [Literal] only, an
    interpolation [Interpolate] only, a symbol [Symbol] only, an access
    (chained or not) [Access] only, a list [List] only, an object [Object]
    only and every builtin [Builtin] only; any other literal (null) sets no
    payload at all. *)
Theorem export_sets_one_payload joinArgSchema openArgSchema alwaysSchema stringSchema
        x environment ex :
  export joinArgSchema openArgSchema alwaysSchema stringSchema x environment = Some ex ->
  payloads ex = payloadOf (repr x).
Proof. apply export_payloads. Qed.

(** The list literal [[5]] is exported with its [List] payload only. *)
Lemma export_sets_one_payload_witness :
  exists ex, Sample.export Sample.lst "env" = Some ex /\ payloads ex = [PList].
Proof.
  destruct (Sample.export Sample.lst "env") as [ex|] eqn:E; [|vm_compute in E; discriminate].
  exists ex. split; [reflexivity|].
  exact (export_sets_one_payload Sample.joinArgSchema Sample.openArgSchema
            (Some Sample.alwaysSchema) (Some Sample.stringSchema)
            Sample.lst "env" ex E).
Defined.

(** X10.  The range, the schema and the base of an exported expression are
    those of the expression itself, except for a chain of accesses: there
    they are those of the innermost access expression of the chain, whose
    export the outer accesses extend with their accessor. *)
Theorem export_describes_chain_head joinArgSchema openArgSchema alwaysSchema stringSchema
        x environment ex :
  export joinArgSchema openArgSchema alwaysSchema stringSchema x environment = Some ex ->
  environments.Range_ ex = defRange (chainHead x) environment
  /\ environments.Schema_ ex = schema (chainHead x)
  /\ environments.Base ex
     = match base (chainHead x) with
       | Some b => export joinArgSchema openArgSchema alwaysSchema stringSchema
                          (def b) environment
       | None => None
       end.
Proof. apply export_head. Qed.

(** The export of [${xs}.b[0]] has the range of [${xs}.b], on line 5, not
    that of the whole expression, on line 6. *)
Lemma export_describes_chain_head_witness :
  exists ex,
    Sample.export Sample.xs_b_0 "env" = Some ex
    /\ environments.Range_ ex = defRange Sample.xs_b "env"
    /\ environments.Range_ ex <> defRange Sample.xs_b_0 "env".
Proof.
  destruct (Sample.export Sample.xs_b_0 "env") as [ex|] eqn:E;
    [|vm_compute in E; discriminate].
  exists ex. split; [reflexivity|].
  destruct (export_describes_chain_head Sample.joinArgSchema Sample.openArgSchema
            (Some Sample.alwaysSchema) (Some Sample.stringSchema)
            Sample.xs_b_0 "env" ex E) as (R & _ & _).
  change (chainHead Sample.xs_b_0) with Sample.xs_b in R.
  split; [exact R|]. rewrite R. vm_compute. discriminate.
Defined.

(** X11.  Every accessor that an exported expression holds, in its access,
    its symbol or its interpolations, is a key or an index: exactly one of
    [Key] and [Index] is set. *)
Theorem export_accessors_key_or_index joinArgSchema openArgSchema alwaysSchema
        stringSchema x environment ex :
  export joinArgSchema openArgSchema alwaysSchema stringSchema x environment = Some ex ->
  Forall keyOrIndex (accessorsOf ex).
Proof. apply export_keyOrIndex. Qed.

(** The accessors [.b] and [[0]] of the exported chain [${xs}.b[0]]. *)
Lemma export_accessors_key_or_index_witness :
  exists ex,
    Sample.export Sample.xs_b_0 "env" = Some ex
    /\ List.length (accessorsOf ex) = 2%nat
    /\ Forall keyOrIndex (accessorsOf ex).
Proof.
  destruct (Sample.export Sample.xs_b_0 "env") as [ex|] eqn:E;
    [|vm_compute in E; discriminate].
  exists ex. split; [reflexivity|].
  split; [vm_compute in E; inversion E; reflexivity|].
  exact (export_accessors_key_or_index Sample.joinArgSchema Sample.openArgSchema
            (Some Sample.alwaysSchema) (Some Sample.stringSchema)
            Sample.xs_b_0 "env" ex E).
Defined.

(** X12.  For an expression of one of the twelve representations, [export]
    panics exactly when an accessor it reads is a subscript that is neither
    a string nor an int: in the expression, in the base it overrides, or in
    an expression exported on the way.  Nothing else makes it panic; in
    particular the receiver of a chained access always exports with its
    [Access] set, so that appending to its accessors never dereferences
    nil. *)
Theorem export_panics_iff_invalid_accessor joinArgSchema openArgSchema alwaysSchema
        stringSchema x environment :
  export joinArgSchema openArgSchema alwaysSchema stringSchema x environment = None
  <-> accessorsValid x = false.
Proof.
  rewrite <- (export_accessorsValid joinArgSchema openArgSchema alwaysSchema stringSchema
                                    x environment).
  destruct (export _ _ _ _ x environment); simpl; split; congruence.
Qed.

(** X13.  Exporting commutes with indexing and with key lookup: the export
    of a list literal holds as many elements, and its element at a position
    is the export of the literal's element at that position; the export of
    an object literal has the same keys, and the entry of a key is the
    export of the literal's property of that key. *)
Theorem export_commutes_with_lookup joinArgSchema openArgSchema alwaysSchema stringSchema
        x environment ex :
  export joinArgSchema openArgSchema alwaysSchema stringSchema x environment = Some ex ->
  match repr x with
  | listExpr _ elements =>
      exists l,
        environments.List_ ex = Some l
        /\ List.length l = List.length elements
        /\ forall i, nth_error l i
                     = (el <~ nth_error elements i ;;
                        export joinArgSchema openArgSchema alwaysSchema stringSchema
                               el environment)
  | objectExpr _ properties =>
      exists o,
        environments.Object ex = Some o
        /\ map fst o = map fst properties
        /\ forall k, lookup o k
                     = (v <~ lookup properties k ;;
                        export joinArgSchema openArgSchema alwaysSchema stringSchema
                               v environment)
  | _ => True
  end.
Proof.
  intros H. rewrite export_eq in H.
  match type of H with
  | obind ?m _ = Some _ => destruct m as [eb|]; [|discriminate H]
  end.
  cbn [obind] in H. cbv zeta in H.
  destruct (repr x) as [ node | node parts | node pa | node receiver a | node els
                       | node props | node pr inp sc | node v | node v | node dl vs
                       | node v | node v ]; try exact I.
  - destruct (mapO _ els) as [l|] eqn:E; [|discriminate H]. cbn [obind] in H.
    injection H as <-. exists l. split; [reflexivity|].
    split; [eapply mapO_length; exact E | eapply mapO_nth; exact E].
  - destruct (mapO _ props) as [o|] eqn:E; [|discriminate H]. cbn [obind] in H.
    injection H as <-. exists o. split; [reflexivity|].
    apply (mapO_lookup (fun v => export joinArgSchema openArgSchema alwaysSchema
                                        stringSchema v environment)).
    exact E.
Qed.

(** The object literal [{b: 5}]: the entry [b] of its export is the export
    of the literal [5]. *)
Lemma export_commutes_with_lookup_witness :
  exists ex o,
    Sample.export Sample.obj "env" = Some ex
    /\ environments.Object ex = Some o
    /\ lookup o "b" = Sample.export Sample.five "env".
Proof.
  destruct (Sample.export Sample.obj "env") as [ex|] eqn:E;
    [|vm_compute in E; discriminate].
  destruct (export_commutes_with_lookup Sample.joinArgSchema Sample.openArgSchema
            (Some Sample.alwaysSchema) (Some Sample.stringSchema)
            Sample.obj "env" ex E)
    as (o & Eo & _ & Hl).
  exists ex, o. split; [reflexivity|]. split; [exact Eo|].
  rewrite (Hl "b"). reflexivity.
Defined.

(** * Value validation: closed schemas, types and panics *)

Lemma sticks_any {T} b (m : M T) : sticks (fun _ => false) b m.
Proof. destruct m as [[t d]|]; simpl; auto. Qed.

Lemma sticks_unless (m : M bool) b (ok : bool) :
  sticks (fun ok => ok) b m ->
  sticks (fun ok => ok) b (vok <- m ;; ret (if negb vok then false else ok)).
Proof.
  intros H. eapply sticks_bind with (okA := fun ok : bool => ok); [exact H|].
  intros [|]; simpl; [discriminate | auto].
Qed.

Lemma sticks_keep (m : M bool) (ok : bool) :
  sticks (fun ok => ok) ok (vok <- m ;; ret (if negb vok then false else ok)).
Proof. destruct m as [[[|] d]|]; simpl; auto. Qed.

(** X14.  An enumeration with a single member is a constant: [validateEnum]
    with the members [[c]] returns what [validateConst] returns for the
    constant [c], with the same diagnostic ("expected c", not "expected one
    of [c]"). *)
Theorem single_enum_is_const json_Marshal v a a' loc c :
  Enum a = [c] -> Const a' = c -> c <> a_nil ->
  validateEnum json_Marshal v a loc = validateConst json_Marshal v a' loc.
Proof.
  intros He Hc Hn. unfold validateEnum, validateConst, enumError.
  rewrite He, Hc. cbn [existsb]. rewrite orb_false_r.
  destruct c; try reflexivity. congruence.
Qed.

(** The number 5 against the enumeration [[4]] and against the constant 4. *)
Lemma single_enum_is_const_witness :
  let a := mkSchema false false "number" a_nil [a_Number "4"] "" "" "" "" ""
                    None None "" [] None None None [] None None None [] [] in
  let a' := mkSchema false false "number" (a_Number "4") [] "" "" "" "" ""
                     None None "" [] None None None [] None None None [] [] in
  Enum a = [a_Number "4"]
  /\ validateEnum Sample.json_Marshal Sample.vfive a (Sample.loc Sample.five)
     = validateConst Sample.json_Marshal Sample.vfive a' (Sample.loc Sample.five).
Proof.
  intros a a'. split; [reflexivity|].
  apply (single_enum_is_const Sample.json_Marshal Sample.vfive a a'
                              (Sample.loc Sample.five) (a_Number "4"));
    [reflexivity | reflexivity | discriminate].
Defined.

(** X15.  An object schema whose additional properties are [never] is
    closed: an object value with a key that is not among the schema's
    properties is rejected, whatever the value of that key and whatever else
    the object holds. *)
Theorem closed_object_rejects_extra_key joinKey json_Marshal Regexp regexp_Compile
        MatchString Regexp_String v accept loc k kv s ok d :
  validateObject joinKey json_Marshal Regexp regexp_Compile MatchString Regexp_String
                 v accept loc = Some (ok, d) ->
  In (k, kv) (entries v) ->
  lookup (Properties accept) k = None ->
  AdditionalProperties accept = Some s ->
  Never s = true -> Always s = false ->
  ok = false.
Proof.
  intros H Hin Hl Ha Hn Hal.
  assert (S : sticks (fun ok => ok) false
                (validateObject joinKey json_Marshal Regexp regexp_Compile MatchString
                                Regexp_String v accept loc)).
  { unfold validateObject, validateObject_. cbv zeta.
    eapply sticks_bind with (okA := fun _ => false); [apply sticks_any|]. intros ok0.
    eapply sticks_bind with (okA := fun _ => false); [apply sticks_any|]. intros ok1.
    eapply sticks_bind with (okA := fun ok : bool => ok).
    - rewrite forEntries_eq. apply sticks_false.
      apply (forRange_fails (fun ok : bool => ok)) with (a0 := (k, kv)).
      + apply Forall_forall. intros [k' w] _ b.
        destruct (lookup (Properties accept) k'); apply sticks_keep.
      + exact Hin.
      + intros b. cbv beta iota. rewrite Hl, Ha.
        apply sticks_unless. unfold validateValue_.
        apply validateElement_never; assumption.
    - intros ok2. eapply sticks_bind with (okA := fun ok : bool => ok);
        [apply sticks_clause|].
      intros ok3. apply (sticks_ret (fun ok : bool => ok) ok3). }
  rewrite H in S. simpl in S. auto.
Qed.

(** The object [{b: 5}] against the object schema without properties whose
    additional properties are [never]. *)
Lemma closed_object_rejects_extra_key_witness :
  exists d,
    validateObject Sample.joinKey Sample.json_Marshal Sample.Regexp Sample.regexp_Compile
                   Sample.MatchString Sample.Regexp_String
                   Sample.vobj Sample.closedObject (Sample.loc Sample.obj)
    = Some (false, d).
Proof.
  destruct (validateObject Sample.joinKey Sample.json_Marshal Sample.Regexp
                           Sample.regexp_Compile Sample.MatchString Sample.Regexp_String
                           Sample.vobj Sample.closedObject (Sample.loc Sample.obj))
    as [[ok d]|] eqn:E; [|vm_compute in E; discriminate].
  exists d.
  rewrite (closed_object_rejects_extra_key
             Sample.joinKey Sample.json_Marshal Sample.Regexp Sample.regexp_Compile
             Sample.MatchString Sample.Regexp_String
             Sample.vobj Sample.closedObject (Sample.loc Sample.obj)
             "b" Sample.vfive Sample.neverSchema ok d E);
    [reflexivity | left; reflexivity | reflexivity | reflexivity | reflexivity
     | reflexivity].
Defined.

Lemma elements_fail (vv : value -> option Schema -> validationLoc -> M bool)
      accept loc s :
  Items accept = Some s ->
  (forall v l, sticks (fun ok => ok) false (vv v (Some s) l)) ->
  forall vs i ok,
    (i <= List.length (PrefixItems accept) < i + List.length vs)%nat ->
    sticks snd false
           (forRange (fun v '(i, ok) =>
                        let vloc := index loc i in
                        match nth_error (PrefixItems accept) i with
                        | Some p =>
                            vok <- vv v p vloc ;;
                            ret (S i, if negb vok then false else ok)
                        | None =>
                            vok <- vv v (Items accept) vloc ;;
                            ret (S i, if negb vok then false else ok)
                        end)
                     vs (i, ok)).
Proof.
  intros Hi Hs. induction vs as [|v vs IH]; intros i ok [H1 H2].
  - simpl in H2. lia.
  - cbn [forRange]. cbv zeta.
    destruct (nth_error (PrefixItems accept) i) as [p|] eqn:N.
    + assert (Hlt : (i < List.length (PrefixItems accept))%nat)
        by (apply nth_error_Some; congruence).
      eapply sticks_bind
        with (okA := fun s' : nat * bool => negb (Nat.eqb (fst s') (S i))).
      * destruct (vv v p (index loc i)) as [[vok d]|]; simpl; [|exact I].
        intros _. rewrite Nat.eqb_refl. reflexivity.
      * intros [j b]. simpl. destruct (Nat.eqb j (S i)) eqn:Ej; simpl.
        -- apply Nat.eqb_eq in Ej. subst j. apply IH. simpl in H2. lia.
        -- destruct (forRange _ vs (j, b)) as [[t d]|]; simpl; [discriminate | exact I].
    + eapply sticks_bind with (okA := snd).
      * rewrite Hi. eapply sticks_bind with (okA := fun ok : bool => ok); [apply Hs|].
        intros [|]; simpl; [discriminate | auto].
      * intros s'. apply (sticks_forRange snd). apply sticks_elements.
Qed.

(** X16.  An array schema whose items are [never] admits no element beyond
    its prefix items: an array value that is longer than the schema's prefix
    items is rejected. *)
Theorem closed_array_rejects_surplus joinKey json_Marshal Regexp regexp_Compile
        MatchString Regexp_String vs accept loc s ok d :
  validateArray joinKey json_Marshal Regexp regexp_Compile MatchString Regexp_String
                vs accept loc = Some (ok, d) ->
  (List.length (PrefixItems accept) < List.length vs)%nat ->
  Items accept = Some s ->
  Never s = true -> Always s = false ->
  ok = false.
Proof.
  intros H Hlen Hi Hn Hal.
  assert (S : sticks (fun ok => ok) false
                (validateArray joinKey json_Marshal Regexp regexp_Compile MatchString
                               Regexp_String vs accept loc)).
  { unfold validateArray, validateArray_. cbv zeta.
    eapply sticks_bind with (okA := fun _ => false); [apply sticks_any|]. intros ok0.
    eapply sticks_bind with (okA := fun _ => false); [apply sticks_any|]. intros ok1.
    eapply sticks_bind with (okA := snd).
    - apply sticks_false. apply (elements_fail _ accept loc s Hi).
      + intros v l. unfold validateValue, validateValue_.
        apply validateElement_never; assumption.
      + lia.
    - intros r. apply (sticks_ret (fun ok : bool => ok) (snd r)). }
  rewrite H in S. simpl in S. auto.
Qed.

(** The list [[5]] against the array schema without prefix items whose
    items are [never]. *)
Lemma closed_array_rejects_surplus_witness :
  exists d,
    Sample.validateArray [Sample.vfive] Sample.emptyArray (Sample.loc Sample.lst)
    = Some (false, d).
Proof.
  destruct (Sample.validateArray [Sample.vfive] Sample.emptyArray (Sample.loc Sample.lst))
    as [[ok d]|] eqn:E; [|vm_compute in E; discriminate].
  exists d.
  rewrite (closed_array_rejects_surplus
             Sample.joinKey Sample.json_Marshal Sample.Regexp Sample.regexp_Compile
             Sample.MatchString Sample.Regexp_String
             [Sample.vfive] Sample.emptyArray (Sample.loc Sample.lst)
             Sample.neverSchema ok d E);
    [reflexivity | simpl; lia | reflexivity | reflexivity | reflexivity].
Defined.

(** X17.  A known value whose type is not the [Type] of the schema is
    rejected: the type check issues one diagnostic, "expected %s, got %s",
    and none of the checks of the value's type is run; and the validation of
    the value against the schema returns false.  The type of a value is one
    of null, boolean, number, string, array and object, so a schema that is
    not [always] and whose [Type] is none of these (no type at all, or
    integer) rejects every known value. *)
Theorem type_mismatch_rejects joinKey json_Marshal Regexp regexp_Compile MatchString
        Regexp_String v accept loc :
  unknown v = false -> Always accept = false ->
  Type_ accept <> typeName (vrepr v) ->
  validateType joinKey json_Marshal Regexp regexp_Compile MatchString Regexp_String
               v accept loc
  = Some (false, [errorAt loc "expected %s, got %s"
                          [ArgString (Type_ accept); ArgString (typeName (vrepr v))]])
  /\ exists d,
      validateElement joinKey json_Marshal Regexp regexp_Compile MatchString
                      Regexp_String v (Some accept) loc
      = Some (false, d).
Proof.
  intros Hu Ha Ht.
  assert (T : validateType joinKey json_Marshal Regexp regexp_Compile MatchString
                           Regexp_String v accept loc
              = Some (false, [errorAt loc "expected %s, got %s"
                                      [ArgString (Type_ accept);
                                       ArgString (typeName (vrepr v))]])).
  { unfold validateType, validateType_, checkType, typeError.
    destruct (vrepr v); cbn [typeName] in *;
      (match goal with
       | |- context [String.eqb ?a ?b] =>
           destruct (String.eqb a b) eqn:E; [apply String.eqb_eq in E; congruence|]
       end);
      cbn [negb]; rewrite validationErrorf_eq; reflexivity. }
  split; [exact T|].
  rewrite validateElement_eq.
  destruct (Compile _ _ (Some accept)).
  { rewrite validationErrorf_eq. eexists. reflexivity. }
  rewrite Ha, Hu. destruct (Never accept); [eexists; reflexivity|].
  destruct (returns_validateConst json_Marshal v accept loc) as (cok & dc & Ec).
  destruct (returns_validateEnum json_Marshal v accept loc) as (eok & de & Ee).
  rewrite Ec, Ee, T. cbn [bind ret]. rewrite !andb_false_r. eexists. reflexivity.
Qed.

(** The number 5 against the string schema, and against a schema without
    type whose constant is 5. *)
Lemma type_mismatch_rejects_witness :
  let untyped := mkSchema false false "" (a_Number "5") [] "" "" "" "" ""
                          None None "" [] None None None [] None None None [] [] in
  (exists d, Sample.validateElement Sample.vfive (Some Sample.stringSchema)
                                    (Sample.loc Sample.five) = Some (false, d))
  /\ (exists d, Sample.validateElement Sample.vfive (Some untyped)
                                       (Sample.loc Sample.five) = Some (false, d)).
Proof.
  intros untyped. split.
  - apply (type_mismatch_rejects
             Sample.joinKey Sample.json_Marshal Sample.Regexp Sample.regexp_Compile
             Sample.MatchString Sample.Regexp_String
             Sample.vfive Sample.stringSchema (Sample.loc Sample.five));
      [reflexivity | reflexivity | discriminate].
  - apply (type_mismatch_rejects
             Sample.joinKey Sample.json_Marshal Sample.Regexp Sample.regexp_Compile
             Sample.MatchString Sample.Regexp_String
             Sample.vfive untyped (Sample.loc Sample.five));
      [reflexivity | reflexivity | discriminate].
Defined.

(** X18.  [validateNumber] panics exactly when the quotient of the number by
    the schema's [multipleOf] is undefined: both are zero, or both are
    infinite.  A number that does not parse, and a zero [multipleOf] with any
    other number, are reported or checked without a panic. *)
Theorem validateNumber_panics_iff v accept loc :
  validateNumber v accept loc = None
  <-> exists n m,
      big.ParseFloat v = Some n /\ GetMultipleOf accept = Some m
      /\ ((isZero n /\ isZero m) \/ (isInf n /\ isInf m)).
Proof.
  rewrite validateNumber_panics. split; intros (n & m & Hn & Hm & Hq);
    exists n, m; (split; [exact Hn|]); (split; [exact Hm|]); apply Quo_None; exact Hq.
Qed.

(** X19.  Value-versus-schema validation does not panic when every
    [multipleOf] of the accepting schema and of the schemas nested in it is
    finite and not zero: [validateElement] returns a result, for every
    value whose representation, at every depth, is null, a boolean, a
    number, a string, a list or a map. *)
Theorem validation_returns joinKey json_Marshal Regexp regexp_Compile MatchString
        Regexp_String v accept loc :
  divisors accept ->
  returns (validateElement joinKey json_Marshal Regexp regexp_Compile MatchString
                           Regexp_String v accept loc).
Proof. apply returns_validateElement. Qed.

(** The list [[5]] against the arrays of multiples of 2. *)
Lemma validation_returns_witness :
  let accept := Some (Sample.arraySchema [] (Some (Sample.numberSchema "2" "" "" "" ""))) in
  divisors accept
  /\ returns (Sample.validateElement Sample.vlst accept (Sample.loc Sample.lst)).
Proof.
  intros accept.
  assert (D : divisors accept).
  { intros c m Hc Hm.
    inversion Hc as [s' | d' s' c' Hin Hd | d' s' c' E Hd | d' s' k c' Hin Hd
                     | d' s' c' E Hd]; subst; simpl in *; try contradiction;
      try discriminate.
    injection E as <-.
    inversion Hd as [s' | d' s' c' Hin Hd' | d' s' c' E Hd' | d' s' k c' Hin Hd'
                     | d' s' c' E Hd']; subst; simpl in *; try contradiction;
      try discriminate.
    vm_compute in Hm. injection Hm as <-. vm_compute. discriminate. }
  split; [exact D|].
  exact (validation_returns Sample.joinKey Sample.json_Marshal Sample.Regexp
                            Sample.regexp_Compile Sample.MatchString Sample.Regexp_String
                            Sample.vlst accept (Sample.loc Sample.lst) D).
Defined.

(** * Schema validation reads the skeleton only *)

Lemma skeleton_eq s :
  skeleton s =
  mkSchema (Never s) (Always s) (Type_ s) a_nil [] "" "" "" "" "" None None ""
           (map (option_map skeleton) (PrefixItems s))
           (option_map skeleton (Items s))
           None None
           (map (fun kv => (fst kv, option_map skeleton (snd kv))) (Properties s))
           (option_map skeleton (AdditionalProperties s))
           None None (Required s) (DependentRequired s).
Proof. destruct s; reflexivity. Qed.

Lemma lookup_map_snd {V W} (g : V -> W) (m : list (string * V)) k :
  lookup (map (fun kv => (fst kv, g (snd kv))) m) k = option_map g (lookup m k).
Proof.
  induction m as [|[k' v] m IH]; simpl; [reflexivity|].
  destruct (String.eqb k' k); [reflexivity | exact IH].
Qed.

Lemma forRange_map {A B S} (g : A -> B) (body : B -> S -> M S) l s :
  forRange body (map g l) s = forRange (fun a => body (g a)) l s.
Proof.
  revert s. induction l as [|a l IH]; intros s; simpl; [reflexivity|].
  destruct (body (g a) s) as [[s' d]|]; simpl; [|reflexivity].
  rewrite IH. reflexivity.
Qed.

Lemma forRange_ext {A S} (body1 body2 : A -> S -> M S) l :
  Forall (fun a => forall s, body1 a s = body2 a s) l ->
  forall s, forRange body1 l s = forRange body2 l s.
Proof.
  induction 1 as [|a l Ha _ IH]; intros s; simpl; [reflexivity|].
  rewrite Ha. destruct (body2 a s) as [[s' d]|]; simpl; [|reflexivity].
  rewrite IH. reflexivity.
Qed.

Lemma Always_skeleton s : Always (skeleton s) = Always s.
Proof. destruct s; reflexivity. Qed.

Lemma Never_skeleton s : Never (skeleton s) = Never s.
Proof. destruct s; reflexivity. Qed.

Lemma Type_skeleton s : Type_ (skeleton s) = Type_ s.
Proof. destruct s; reflexivity. Qed.

Lemma PrefixItems_skeleton s :
  PrefixItems (skeleton s) = map (option_map skeleton) (PrefixItems s).
Proof. destruct s; reflexivity. Qed.

Lemma Items_skeleton s : Items (skeleton s) = option_map skeleton (Items s).
Proof. destruct s; reflexivity. Qed.

Lemma Properties_skeleton s :
  Properties (skeleton s)
  = map (fun kv => (fst kv, option_map skeleton (snd kv))) (Properties s).
Proof. destruct s; reflexivity. Qed.

Lemma AdditionalProperties_skeleton s :
  AdditionalProperties (skeleton s) = option_map skeleton (AdditionalProperties s).
Proof. destruct s; reflexivity. Qed.

Lemma Required_skeleton s : Required (skeleton s) = Required s.
Proof. destruct s; reflexivity. Qed.

Lemma DependentRequired_skeleton s : DependentRequired (skeleton s) = DependentRequired s.
Proof. destruct s; reflexivity. Qed.

Lemma bind_ext {A B} (m1 m2 : M A) (f1 f2 : A -> M B) :
  m1 = m2 -> (forall a, f1 a = f2 a) -> bind m1 f1 = bind m2 f2.
Proof.
  intros -> H. destruct m2 as [[a d]|]; simpl; [|reflexivity]. rewrite H. reflexivity.
Qed.

Section Skeleton.
Variable joinKey : string -> string -> string.

Local Abbreviation sk := (option_map skeleton).

Lemma skeleton_validateSchemaType_on x :
  onSome (fun x => forall accept loc,
              validateSchemaArray joinKey (skeleton x) (skeleton accept) loc
              = validateSchemaArray joinKey x accept loc
              /\ validateSchemaObject joinKey (skeleton x) (skeleton accept) loc
                 = validateSchemaObject joinKey x accept loc) x ->
  forall accept loc,
    validateSchemaType joinKey (sk x) (sk accept) loc
    = validateSchemaType joinKey x accept loc.
Proof.
  intros Hx accept loc. unfold validateSchemaType, validateSchemaType_.
  destruct accept as [a|]; [|reflexivity]. cbn [option_map].
  rewrite Always_skeleton, Never_skeleton.
  destruct (Always a); [reflexivity|].
  destruct (Never a); [reflexivity|].
  destruct x as [x|]; [|reflexivity]. cbn [option_map].
  rewrite Always_skeleton.
  destruct (Always x); [reflexivity|].
  unfold checkType. rewrite !Type_skeleton.
  destruct (Hx a loc) as [HA HO]. rewrite HA, HO. reflexivity.
Qed.

Lemma skeleton_validatePrefixItems
      (vst : option Schema -> option Schema -> validationLoc -> M bool)
      xItems acceptItems loc xprefix :
  (forall a l, vst (sk xItems) (sk a) l = vst xItems a l) ->
  Forall (fun xp => forall a l, vst (sk xp) (sk a) l = vst xp a l) xprefix ->
  forall aprefix i allOk,
    validatePrefixItems vst (sk xItems) (sk acceptItems) loc
                        (map sk xprefix) (map sk aprefix) i allOk
    = validatePrefixItems vst xItems acceptItems loc xprefix aprefix i allOk.
Proof.
  intros Hit Hpre. induction Hpre as [|xp xprefix Hxp _ IH]; intros aprefix i allOk.
  - cbn [map]. rewrite !validatePrefixItems_nil. rewrite forRange_map.
    erewrite forRange_ext; [reflexivity|].
    apply Forall_forall. intros ap _ [j b]. rewrite Hit. reflexivity.
  - destruct aprefix as [|ap aprefix]; cbn [map validatePrefixItems].
    + rewrite Hxp. destruct (vst xp acceptItems (index loc i)) as [[ok d]|]; simpl;
        [|reflexivity].
      pose proof (IH [] (S i) (allOk && ok)) as IH'. cbn [map] in IH'.
      rewrite IH'. reflexivity.
    + rewrite Hxp. destruct (vst xp ap (index loc i)) as [[ok d]|]; simpl;
        [|reflexivity].
      rewrite (IH aprefix (S i) (allOk && ok)). reflexivity.
Qed.

Lemma skeleton_schema_all x :
  forall accept loc,
    validateSchemaArray joinKey (skeleton x) (skeleton accept) loc
    = validateSchemaArray joinKey x accept loc
    /\ validateSchemaObject joinKey (skeleton x) (skeleton accept) loc
       = validateSchemaObject joinKey x accept loc.
Proof.
  induction x as [x Hpre Hit Hprops Hap] using Schema_induction.
  intros accept loc.
  assert (Hopt : forall o, onSome (fun x => forall accept loc,
              validateSchemaArray joinKey (skeleton x) (skeleton accept) loc
              = validateSchemaArray joinKey x accept loc
              /\ validateSchemaObject joinKey (skeleton x) (skeleton accept) loc
                 = validateSchemaObject joinKey x accept loc) o ->
            forall a l, validateSchemaType joinKey (sk o) (sk a) l
                        = validateSchemaType joinKey o a l)
    by (intros o Ho; apply skeleton_validateSchemaType_on; exact Ho).
  split.
  - rewrite !validateSchemaArray_eq.
    rewrite !PrefixItems_skeleton, !Items_skeleton.
    apply bind_ext.
    + apply skeleton_validatePrefixItems.
      * apply Hopt. exact Hit.
      * eapply Forall_impl; [|exact Hpre]. intros xp Hxp. apply Hopt. exact Hxp.
    + intros allOk.
      destruct (Items x) as [xi|] eqn:E; cbn [option_map]; [|reflexivity].
      rewrite Never_skeleton.
      destruct (negb (Never xi)); [|reflexivity].
      change (Some (skeleton xi)) with (sk (Some xi)).
      rewrite (Hopt (Some xi) Hit). reflexivity.
  - rewrite !validateSchemaObject_eq.
    rewrite !Properties_skeleton, !AdditionalProperties_skeleton, !Required_skeleton,
      !DependentRequired_skeleton.
    rewrite forRange_map.
    apply bind_ext.
    + apply forRange_ext.
      eapply Forall_impl; [|exact Hprops]. intros [name px] Hpx allOk.
      cbn [fst snd] in *. rewrite lookup_map_snd.
      destruct (lookup (Properties accept) name) as [pa|]; cbn [option_map];
        rewrite (Hopt px Hpx); reflexivity.
    + intros allOk.
      destruct (AdditionalProperties x) as [xa|] eqn:E; cbn [option_map]; [|reflexivity].
      rewrite Never_skeleton.
      destruct (negb (Never xa)); [|reflexivity].
      change (Some (skeleton xa)) with (sk (Some xa)).
      rewrite (Hopt (Some xa) Hap). reflexivity.
Qed.

End Skeleton.

(** X20.  Schema-versus-schema validation reads the skeleton of the two
    schemas only: erasing the constant, the enumeration, the numeric bounds,
    the lengths, the pattern and the item and property counts of both
    schemas, at every depth, changes neither the result nor the
    diagnostics.  None of these constraints is ever compared. *)
Theorem schema_validation_reads_skeleton joinKey x accept loc :
  validateSchemaType joinKey (option_map skeleton x) (option_map skeleton accept) loc
  = validateSchemaType joinKey x accept loc.
Proof.
  apply skeleton_validateSchemaType_on.
  destruct x; simpl; [apply skeleton_schema_all | exact I].
Qed.
